(** * BusTub buffer pool: extendible hash directory, LRU-K replacer, manager

    A shallow embedding of

    - [src/container/hash/extendible_hash_table.cpp]
    - [src/buffer/lru_k_replacer.cpp]
    - [src/buffer/buffer_pool_manager_instance.cpp]
    - [src/buffer/lru_replacer.cpp]

    followed by the properties of the specification that were checked
    against it.  The latches and the [LOG_INFO] calls are not modelled: every
    operation is taken as one sequential step.  The [int] depths of the hash
    table are mathematical integers; the source agrees with that below depth
    31. *)

From Stdlib Require Import ZArith Lia.
From stdpp Require Import base tactics option list numbers gmap strings.

(** ** Outcomes of a call

    A call either returns, throws a [bustub::Exception], or is still
    running when the fuel given to it is used up.  A call that is [Spin]
    for every amount of fuel never returns. *)

Inductive result (A : Type) : Type :=
| Ret (a : A)
| Throw (msg : string)
| Spin.

Arguments Ret {A} a.
Arguments Throw {A} msg.
Arguments Spin {A}.

Definition bind {A B : Type} (m : result A) (k : A → result B) : result B :=
  match m with
  | Ret a => k a
  | Throw msg => Throw msg
  | Spin => Spin
  end.

Notation "'let*' x ':=' m 'in' k" := (bind m (fun x => k))
  (at level 10, x pattern, m at level 100, k at level 200).

(** ** Machine integers *)

(** [size_t] arithmetic wraps modulo 2^64. *)
Definition to_size_t (z : Z) : Z := (z mod 2 ^ 64)%Z.

(** [int] / [page_id_t] arithmetic on the atomic page counter wraps in two's
    complement. *)
Definition to_int32 (z : Z) : Z := ((z + 2 ^ 31) mod 2 ^ 32 - 2 ^ 31)%Z.

(** ** Extendible hash table: buckets *)

Module Bucket.
Section Bucket.
Context {K V : Type} `{EqDecision K}.

(** [size_] is the capacity, [depth_] the local depth, [list_] the
    [std::list] of pairs. *)
Record t : Type := mk { size_ : nat; depth_ : Z; list_ : list (K * V) }.

Definition set_list (b : t) (l : list (K * V)) : t :=
  {| size_ := size_ b; depth_ := depth_ b; list_ := l |}.

Definition GetDepth (b : t) : Z := depth_ b.

Definition IncrementDepth (b : t) : t :=
  {| size_ := size_ b; depth_ := (depth_ b + 1)%Z; list_ := list_ b |}.

Definition GetItems (b : t) : list (K * V) := list_ b.

(** [Bucket::Find]: the loop visits every pair and does not stop at the first
    match, so the last matching pair gives the value.  [None] stands for the
    [false] return (the out-parameter is then left alone). *)
Definition Find (b : t) (key : K) : option V :=
  fold_left (fun acc p => if decide (p.1 = key) then Some p.2 else acc) (list_ b) None.

(** [Bucket::Remove]: erases every pair with the key. *)
Fixpoint remove_scan (l : list (K * V)) (key : K) : bool * list (K * V) :=
  match l with
  | [] => (false, [])
  | p :: tl =>
      let r := remove_scan tl key in
      if decide (p.1 = key) then (true, r.2) else (r.1, p :: r.2)
  end.

Definition Remove (b : t) (key : K) : bool * t :=
  let r := remove_scan (list_ b) key in (r.1, set_list b r.2).

(** The first loop of [Bucket::Insert].  The iterator is the split of the list
    into the pairs already passed ([seen], most recent first) and the pairs
    from the iterator on ([rest]).  On a match the pair is overwritten and the
    iterator is NOT advanced: the source has [it++] in the [else] branch
    only. *)
Fixpoint insert_scan (fuel : nat) (seen rest : list (K * V)) (flag : bool)
    (key : K) (value : V) : result (bool * list (K * V)) :=
  match fuel with
  | O => Spin
  | S fuel' =>
      match rest with
      | [] => Ret (flag, rev_append seen [])
      | p :: tl =>
          if decide (p.1 = key)
          then insert_scan fuel' seen ((p.1, value) :: tl) true key value
          else insert_scan fuel' (p :: seen) tl flag key value
      end
  end.

(** [Bucket::Insert]. *)
Definition Insert (fuel : nat) (b : t) (key : K) (value : V) : result (bool * t) :=
  let* r := insert_scan fuel [] (list_ b) false key value in
  let b1 := set_list b r.2 in
  if negb r.1 then
    if decide (length (list_ b1) ≠ size_ b1)
    then Ret (true, set_list b1 (list_ b1 ++ [(key, value)]))
    else Ret (false, b1)
  else Ret (true, b1).

End Bucket.
Arguments t : clear implicits.
End Bucket.

(** ** Extendible hash table: directory *)

Module ExtendibleHashTable.
Section Table.
Context {K V : Type} `{EqDecision K}.

(** [std::hash<K>()(key)], a [size_t]. *)
Variable hash : K → Z.

(** [dir_] is a vector of shared pointers: several slots may point to one
    bucket, and a bucket changed through one slot is changed for all.  The
    buckets live in [store_]; a pointer is an index into it and
    [std::make_shared] appends.  Buckets no slot points to any more stay in
    [store_] as garbage. *)
Record t : Type := mk {
  global_depth_ : Z;
  bucket_size_ : nat;
  num_buckets_ : Z;
  dir_ : list nat;
  store_ : list (Bucket.t K V)
}.

Definition set_dir (h : t) (d : list nat) : t :=
  {| global_depth_ := global_depth_ h; bucket_size_ := bucket_size_ h;
     num_buckets_ := num_buckets_ h; dir_ := d; store_ := store_ h |}.

Definition set_store (h : t) (s : list (Bucket.t K V)) : t :=
  {| global_depth_ := global_depth_ h; bucket_size_ := bucket_size_ h;
     num_buckets_ := num_buckets_ h; dir_ := dir_ h; store_ := s |}.

Definition set_global_depth (h : t) (g : Z) : t :=
  {| global_depth_ := g; bucket_size_ := bucket_size_ h;
     num_buckets_ := num_buckets_ h; dir_ := dir_ h; store_ := store_ h |}.

(** The constructor. *)
Definition new (bucket_size : nat) : t :=
  {| global_depth_ := 0; bucket_size_ := bucket_size; num_buckets_ := 1;
     dir_ := [0%nat]; store_ := [Bucket.mk bucket_size 0 []] |}.

(** [dir_[i]] and [*p].  Outside the vector the source has no defined
    behaviour; the model reads pointer 0 and an empty bucket there.
    [dir_ok] below says when this does not happen. *)
Definition slot (h : t) (i : Z) : nat := default 0%nat (dir_ h !! Z.to_nat i).

Definition bucket (h : t) (a : nat) : Bucket.t K V :=
  default (Bucket.mk 0 0 []) (store_ h !! a).

Definition set_bucket (h : t) (a : nat) (b : Bucket.t K V) : t :=
  set_store h (<[a := b]> (store_ h)).

Definition IndexOf (h : t) (key : K) : Z :=
  let mask := (Z.shiftl 1 (global_depth_ h) - 1)%Z in
  Z.land (hash key) mask.

Definition IndexOfDepth (key : K) (depth : Z) : Z :=
  let mask := (Z.shiftl 1 depth - 1)%Z in
  Z.land (hash key) mask.

Definition GetGlobalDepth (h : t) : Z := global_depth_ h.

Definition GetLocalDepth (h : t) (dir_index : Z) : Z :=
  Bucket.GetDepth (bucket h (slot h dir_index)).

Definition GetNumBuckets (h : t) : Z := num_buckets_ h.

Definition Find (h : t) (key : K) : option V :=
  Bucket.Find (bucket h (slot h (IndexOf h key))) key.

Definition Remove (h : t) (key : K) : bool * t :=
  let a := slot h (IndexOf h key) in
  let r := Bucket.Remove (bucket h a) key in
  (r.1, set_bucket h a r.2).

(** The doubling loop of [RedistributeBucket]:
    [for (i = 0; i < 1 << global_depth_; i++) dir_.push_back(dir_[i])]. *)
Definition double_dir (h : t) : t :=
  let n := Z.to_nat (Z.shiftl 1 (global_depth_ h)) in
  let d := fold_left (fun d i => d ++ [default 0%nat (d !! i)]) (seq 0 n) (dir_ h) in
  set_global_depth (set_dir h d) (global_depth_ h + 1)%Z.

(** One round of the last loop of [RedistributeBucket], for the pair
    [(key, value)] of the copied list; [a] is the bucket being split.  The
    result of the inner [Insert] is dropped, as in the source. *)
Definition move_item (fuel : nat) (a : nat) (index : Z) (h : t) (p : K * V) : result t :=
  let j := IndexOfDepth p.1 (Bucket.GetDepth (bucket h a)) in
  if decide (j ≠ index) then
    let src := slot h index in
    let h1 := set_bucket h src (Bucket.Remove (bucket h src) p.1).2 in
    let dst := slot h1 j in
    let* r := Bucket.Insert fuel (bucket h1 dst) p.1 p.2 in
    Ret (set_bucket h1 dst r.2)
  else Ret h.

Fixpoint move_items (fuel : nat) (a : nat) (index : Z) (h : t) (l : list (K * V)) : result t :=
  match l with
  | [] => Ret h
  | p :: tl =>
      let* h1 := move_item fuel a index h p in
      move_items fuel a index h1 tl
  end.

(** [RedistributeBucket(bucket, index)]; [a] is the pointer [bucket]. *)
Definition RedistributeBucket (fuel : nat) (h : t) (a : nat) (index : Z) : result t :=
  let h1 := if decide (Bucket.GetDepth (bucket h a) = global_depth_ h)
            then double_dir h else h in
  let h2 := set_bucket h1 a (Bucket.IncrementDepth (bucket h1 a)) in
  let list := Bucket.GetItems (bucket h2 a) in
  let half := Z.shiftl 1 (global_depth_ h2 - 1) in
  let split_idx := if decide (index >= half)%Z then (index - half)%Z else (index + half)%Z in
  let fresh := length (store_ h2) in
  let h3 := set_store h2 (store_ h2 ++ [Bucket.mk (bucket_size_ h2) (Bucket.GetDepth (bucket h2 a)) []]) in
  let h4 := set_dir h3 (<[Z.to_nat split_idx := fresh]> (dir_ h3)) in
  move_items fuel a index h4 list.

(** [Insert]: the [while (true)] loop; one unit of fuel per round. *)
Fixpoint Insert (fuel : nat) (h : t) (key : K) (value : V) : result t :=
  match fuel with
  | O => Spin
  | S fuel' =>
      let a := slot h (IndexOf h key) in
      let* r := Bucket.Insert fuel' (bucket h a) key value in
      let h1 := set_bucket h a r.2 in
      if r.1 then Ret h1
      else
        let* h2 := RedistributeBucket fuel' h1 (slot h1 (IndexOf h1 key)) (IndexOf h1 key) in
        Insert fuel' h2 key value
  end.

(** *** What the specification says of the directory *)

(** The buckets reachable from the directory, each once. *)
Definition reachable (h : t) : list nat := remove_dups (dir_ h).

(** Slots [i] and [j] agree on their low [d] bits. *)
Definition same_suffix (d : Z) (i j : nat) : bool :=
  bool_decide (Z.land (Z.of_nat i) (Z.shiftl 1 d - 1) = Z.land (Z.of_nat j) (Z.shiftl 1 d - 1)).

(** For the bucket [b] of local depth [d] in slot [i]: slot [j] points to [b]
    exactly when [j] has the low [d] bits of [i]. *)
Definition dir_inv (h : t) : Prop :=
  length (dir_ h) = Z.to_nat (2 ^ global_depth_ h) ∧
  ∀ i j a, dir_ h !! i = Some a → (j < length (dir_ h))%nat →
    (dir_ h !! j = Some a ↔ same_suffix (Bucket.depth_ (bucket h a)) i j = true).

(** Every slot holds a pointer to an allocated bucket, and [IndexOf] lands
    inside the directory. *)
Definition dir_ok (h : t) : Prop :=
  (0 ≤ global_depth_ h)%Z ∧
  length (dir_ h) = Z.to_nat (2 ^ global_depth_ h) ∧
  Forall (fun a => (a < length (store_ h))%nat) (dir_ h).

End Table.
Arguments t : clear implicits.
End ExtendibleHashTable.

(** ** LRU-K replacer: history nodes *)

Module HeapNode.

(** The class [HeapNode] is declared in [lru_k_replacer.h], which is not among
    the sources.  The fields [timestamps_] and [evict_] are the ones the
    replacer reads and writes; [k_] is the constructor argument. *)
Record t : Type := mk { k_ : Z; timestamps_ : list Z; evict_ : bool }.

Definition set_evict (n : t) (b : bool) : t :=
  {| k_ := k_ n; timestamps_ := timestamps_ n; evict_ := b |}.

(** Modelled from the spec: [HeapNode::AddTimeStamp] (header missing).
    "Append the current timestamp to the frame's history", which is "a bounded
    history of the last K access timestamps". *)
Definition AddTimeStamp (n : t) (ts : Z) : t :=
  let l := timestamps_ n ++ [ts] in
  {| k_ := k_ n; timestamps_ := drop (length l - Z.to_nat (k_ n)) l; evict_ := evict_ n |}.

(** Modelled from the spec: [HeapNode::operator<] (header missing); [lt a b]
    says that [b] is the better victim.  A node with fewer than K accesses has
    distance +infinity; among two such nodes the one with the earlier first
    access wins; among two full histories the one whose K-th most recent
    access is earlier (the greater backward K-distance) wins. *)
Definition lt (a b : t) : bool :=
  let inf n := bool_decide (Z.of_nat (length (timestamps_ n)) < k_ n)%Z in
  let first n := default 0%Z (head (timestamps_ n)) in
  match inf a, inf b with
  | false, true => true
  | true, false => false
  | _, _ => bool_decide (first b < first a)%Z
  end.

End HeapNode.

(** ** LRU-K replacer *)

Module LRUKReplacer.
Section Replacer.

(** What the missing header fixes and the sources do not show: the value of
    [evict_] in a freshly constructed node, the [k_] of a node made by the
    default constructor, and the order [operator<]. *)
Variable evict0 : bool.
Variable k0 : Z.
Variable node_lt : HeapNode.t → HeapNode.t → bool.

Record t : Type := mk {
  replacer_size_ : Z;
  k_ : Z;
  curr_size_ : Z;
  current_timestamp_ : Z;
  node_map_ : gmap Z HeapNode.t
}.

Definition set_node_map (r : t) (m : gmap Z HeapNode.t) : t :=
  {| replacer_size_ := replacer_size_ r; k_ := k_ r; curr_size_ := curr_size_ r;
     current_timestamp_ := current_timestamp_ r; node_map_ := m |}.

Definition set_curr_size (r : t) (n : Z) : t :=
  {| replacer_size_ := replacer_size_ r; k_ := k_ r; curr_size_ := to_size_t n;
     current_timestamp_ := current_timestamp_ r; node_map_ := node_map_ r |}.

Definition set_current_timestamp (r : t) (n : Z) : t :=
  {| replacer_size_ := replacer_size_ r; k_ := k_ r; curr_size_ := curr_size_ r;
     current_timestamp_ := to_size_t n; node_map_ := node_map_ r |}.

(** [HeapNode(k)] and [HeapNode()]; a default-constructed container is
    empty. *)
Definition node_new (k : Z) : HeapNode.t := HeapNode.mk k [] evict0.
Definition node_default : HeapNode.t := HeapNode.mk k0 [] evict0.

(** The constructor.  It sets [replacer_size_] and [k_] and clears the map;
    the two counters get their initial value in the missing header and are
    taken to start at zero. *)
Definition new (num_frames k : Z) : t :=
  {| replacer_size_ := num_frames; k_ := k; curr_size_ := 0;
     current_timestamp_ := 0; node_map_ := ∅ |}.

(** [node_map_[frame_id]]: [operator[]] makes a default node when the key is
    absent. *)
Definition at_node (m : gmap Z HeapNode.t) (frame_id : Z) : HeapNode.t :=
  default node_default (m !! frame_id).

Definition AddToMap (r : t) (frame_id : Z) : result t :=
  if decide (to_size_t frame_id > replacer_size_ r)%Z then
    Throw "frame_id is larger than the capacity of the replacer"
  else
    let r1 :=
      match node_map_ r !! frame_id with
      | None =>
          if decide (curr_size_ r = replacer_size_ r) then r
          else set_curr_size (set_node_map r (<[frame_id := node_new (k_ r)]> (node_map_ r)))
                 (curr_size_ r + 1)
      | Some _ => r
      end in
    let n := HeapNode.AddTimeStamp (at_node (node_map_ r1) frame_id) (current_timestamp_ r1) in
    Ret (set_current_timestamp (set_node_map r1 (<[frame_id := n]> (node_map_ r1)))
           (current_timestamp_ r1 + 1)).

Definition RecordAccess (r : t) (frame_id : Z) : result t := AddToMap r frame_id.

Definition SetEvictable (r : t) (frame_id : Z) (set_evictable : bool) : result t :=
  match node_map_ r !! frame_id with
  | Some n =>
      let r1 :=
        if HeapNode.evict_ n && negb set_evictable then set_curr_size r (curr_size_ r - 1)
        else if negb (HeapNode.evict_ n) && set_evictable then set_curr_size r (curr_size_ r + 1)
        else r in
      Ret (set_node_map r1 (<[frame_id := HeapNode.set_evict n set_evictable]> (node_map_ r1)))
  | None => Throw "invalid frame_id"
  end.

Definition Remove (r : t) (frame_id : Z) : result t :=
  if HeapNode.evict_ (at_node (node_map_ r) frame_id) then
    Ret (set_node_map r (delete frame_id (node_map_ r)))
  else Throw "remove a unevicted frame".

Definition Size (r : t) : Z := curr_size_ r.

(** One round of the loop of [DeleteMaxInMap]; the state is [(frame, maxnode)]. *)
Definition max_step (acc : Z * HeapNode.t) (kv : Z * HeapNode.t) : Z * HeapNode.t :=
  if HeapNode.evict_ kv.2 then
    if bool_decide (HeapNode.timestamps_ acc.2 = []) || node_lt acc.2 kv.2
    then (kv.1, kv.2) else acc
  else acc.

(** [DeleteMaxInMap].  The order in which an [unordered_map] is walked is not
    fixed by the language; the model walks [map_to_list]. *)
Definition DeleteMaxInMap (r : t) : t * Z :=
  let frame := (fold_left max_step (map_to_list (node_map_ r)) (0%Z, node_default)).1 in
  if decide (frame ≠ 0%Z)
  then (set_curr_size (set_node_map r (delete frame (node_map_ r))) (curr_size_ r - 1), frame)
  else (r, frame).

(** [Evict]: the replacer after the call, the returned flag, and [*frame_id]. *)
Definition Evict (r : t) : t * bool * Z :=
  let d := DeleteMaxInMap r in
  (d.1, bool_decide (d.2 ≠ 0%Z), d.2).

End Replacer.
End LRUKReplacer.

(** ** Page frames *)

Module Page.

(** The class [Page] is declared in [storage/page/page.h], which is not among
    the sources; these are the members the manager touches. *)
Record t : Type := mk {
  page_id_ : Z;
  pin_count_ : Z;
  is_dirty_ : bool;
  data_ : list Byte.byte
}.

Definition set_page_id (p : t) (id : Z) : t :=
  {| page_id_ := id; pin_count_ := pin_count_ p; is_dirty_ := is_dirty_ p; data_ := data_ p |}.

Definition set_pin_count (p : t) (n : Z) : t :=
  {| page_id_ := page_id_ p; pin_count_ := n; is_dirty_ := is_dirty_ p; data_ := data_ p |}.

Definition set_is_dirty (p : t) (b : bool) : t :=
  {| page_id_ := page_id_ p; pin_count_ := pin_count_ p; is_dirty_ := b; data_ := data_ p |}.

Definition set_data (p : t) (d : list Byte.byte) : t :=
  {| page_id_ := page_id_ p; pin_count_ := pin_count_ p; is_dirty_ := is_dirty_ p; data_ := d |}.

Definition GetPageId (p : t) : Z := page_id_ p.
Definition GetPinCount (p : t) : Z := pin_count_ p.
Definition IsDirty (p : t) : bool := is_dirty_ p.
Definition GetData (p : t) : list Byte.byte := data_ p.

(** The all-zero buffer of [page_size] bytes. *)
Definition zeroed (page_size : nat) : list Byte.byte := replicate page_size Byte.x00.

(** Modelled from the spec: [Page::ResetMemory] (header missing), the "reset
    that zeroes the buffer". *)
Definition ResetMemory (page_size : nat) (p : t) : t := set_data p (zeroed page_size).

End Page.

(** ** Disk manager *)

Module DiskManager.

Inductive io : Type :=
| Read (page_id : Z)
| Write (page_id : Z) (data : list Byte.byte).

(** Modelled from the spec: the disk manager (an external collaborator, no
    source here).  [read_page] "fills the buffer with the on-disk contents",
    [write_page] "writes the buffer to the backing store".  [log_] records the
    calls in order; a page never written reads as [blank]. *)
Record t : Type := mk { contents_ : gmap Z (list Byte.byte); log_ : list io }.

Definition ReadPage (blank : list Byte.byte) (d : t) (page_id : Z) : list Byte.byte * t :=
  (default blank (contents_ d !! page_id),
   {| contents_ := contents_ d; log_ := log_ d ++ [Read page_id] |}).

Definition WritePage (d : t) (page_id : Z) (data : list Byte.byte) : t :=
  {| contents_ := <[page_id := data]> (contents_ d); log_ := log_ d ++ [Write page_id data] |}.

Definition is_read (e : io) : bool := match e with Read _ => true | Write _ _ => false end.
Definition is_write (e : io) : bool := match e with Read _ => false | Write _ _ => true end.

Definition reads (d : t) : nat := length (filter (fun e => is_read e = true) (log_ d)).
Definition writes (d : t) : nat := length (filter (fun e => is_write e = true) (log_ d)).

End DiskManager.

(** ** Buffer pool manager *)

Module BufferPoolManagerInstance.
Section Manager.

(** Constants and declarations of headers that are not among the sources:
    [std::hash<page_id_t>], the member constant [bucket_size_], the sentinel
    [INVALID_PAGE_ID], the page size, and the three unknowns of [HeapNode]. *)
Variable hash : Z → Z.
Variable bucket_size : nat.
Variable INVALID_PAGE_ID : Z.
Variable PAGE_SIZE : nat.
Variable evict0 : bool.
Variable k0 : Z.
Variable node_lt : HeapNode.t → HeapNode.t → bool.

(** A [Page *] into [pages_] is the index of the frame. *)
Record t : Type := mk {
  pool_size_ : nat;
  pages_ : list Page.t;
  page_table_ : ExtendibleHashTable.t Z Z;
  replacer_ : LRUKReplacer.t;
  free_list_ : list Z;
  next_page_id_ : Z;
  disk_manager_ : DiskManager.t
}.

Definition set_pages (s : t) (x : list Page.t) : t :=
  {| pool_size_ := pool_size_ s; pages_ := x; page_table_ := page_table_ s;
     replacer_ := replacer_ s; free_list_ := free_list_ s;
     next_page_id_ := next_page_id_ s; disk_manager_ := disk_manager_ s |}.

Definition set_page_table (s : t) (x : ExtendibleHashTable.t Z Z) : t :=
  {| pool_size_ := pool_size_ s; pages_ := pages_ s; page_table_ := x;
     replacer_ := replacer_ s; free_list_ := free_list_ s;
     next_page_id_ := next_page_id_ s; disk_manager_ := disk_manager_ s |}.

Definition set_replacer (s : t) (x : LRUKReplacer.t) : t :=
  {| pool_size_ := pool_size_ s; pages_ := pages_ s; page_table_ := page_table_ s;
     replacer_ := x; free_list_ := free_list_ s;
     next_page_id_ := next_page_id_ s; disk_manager_ := disk_manager_ s |}.

Definition set_free_list (s : t) (x : list Z) : t :=
  {| pool_size_ := pool_size_ s; pages_ := pages_ s; page_table_ := page_table_ s;
     replacer_ := replacer_ s; free_list_ := x;
     next_page_id_ := next_page_id_ s; disk_manager_ := disk_manager_ s |}.

Definition set_next_page_id (s : t) (x : Z) : t :=
  {| pool_size_ := pool_size_ s; pages_ := pages_ s; page_table_ := page_table_ s;
     replacer_ := replacer_ s; free_list_ := free_list_ s;
     next_page_id_ := x; disk_manager_ := disk_manager_ s |}.

Definition set_disk_manager (s : t) (x : DiskManager.t) : t :=
  {| pool_size_ := pool_size_ s; pages_ := pages_ s; page_table_ := page_table_ s;
     replacer_ := replacer_ s; free_list_ := free_list_ s;
     next_page_id_ := next_page_id_ s; disk_manager_ := x |}.

(** Modelled from the spec: a frame as [new Page[pool_size_]] makes it (the
    constructor of [Page] is in the missing header): unbound
    ([page_id = INVALID]), unpinned, clean, zeroed. *)
Definition blank_page : Page.t := Page.mk INVALID_PAGE_ID 0 false (Page.zeroed PAGE_SIZE).

(** [pages_[frame_id]]; outside the array the source has no defined behaviour
    and the model reads a blank frame and writes nothing. *)
Definition page (s : t) (frame_id : Z) : Page.t :=
  default blank_page (pages_ s !! Z.to_nat frame_id).

Definition set_page (s : t) (frame_id : Z) (p : Page.t) : t :=
  set_pages s (<[Z.to_nat frame_id := p]> (pages_ s)).

(** The constructor: every frame is on the free list, in index order. *)
Definition new (pool_size : nat) (disk_manager : DiskManager.t) (replacer_k : Z) : t :=
  {| pool_size_ := pool_size;
     pages_ := replicate pool_size blank_page;
     page_table_ := ExtendibleHashTable.new bucket_size;
     replacer_ := LRUKReplacer.new (Z.of_nat pool_size) replacer_k;
     free_list_ := map Z.of_nat (seq 0 pool_size);
     next_page_id_ := 0;
     disk_manager_ := disk_manager |}.

Definition AllocatePage (s : t) : Z * t :=
  (next_page_id_ s, set_next_page_id s (to_int32 (next_page_id_ s + 1))).

(** "We firstly find in freelist, then find the replacer": the block that
    [NewPgImp] and [FetchPgImp] both contain.  [None] is the [return nullptr]
    after a failed [Evict] (which leaves the replacer as it was). *)
Definition pick_frame (s : t) : option (Z * t) :=
  match free_list_ s with
  | [] =>
      let e := LRUKReplacer.Evict evict0 k0 node_lt (replacer_ s) in
      if e.1.2 then Some (e.2, set_replacer s e.1.1) else None
  | _ :: _ =>
      Some (List.last (free_list_ s) 0%Z, set_free_list s (removelast (free_list_ s)))
  end.

(** The write-back of the previous tenant and the removal of its binding,
    again common to [NewPgImp] and [FetchPgImp]. *)
Definition drop_tenant (s : t) (frame_id : Z) : t :=
  let pre_page := page s frame_id in
  let s1 :=
    if Page.IsDirty pre_page then
      set_page
        (set_disk_manager s
           (DiskManager.WritePage (disk_manager_ s) (Page.GetPageId pre_page) (Page.GetData pre_page)))
        frame_id (Page.set_is_dirty pre_page false)
    else s in
  set_page_table s1 (ExtendibleHashTable.Remove hash (page_table_ s1) (Page.GetPageId (page s1 frame_id))).2.

(** The tail common to both: directory insert, access record, pin in the
    replacer. *)
Definition bind_frame (fuel : nat) (s : t) (page_id frame_id : Z) : result t :=
  let* pt := ExtendibleHashTable.Insert hash fuel (page_table_ s) page_id frame_id in
  let* r1 := LRUKReplacer.RecordAccess evict0 k0 (replacer_ s) frame_id in
  let* r2 := LRUKReplacer.SetEvictable r1 frame_id false in
  Ret (set_replacer (set_page_table s pt) r2).

Definition NewPgImp (fuel : nat) (s : t) : result (option (Z * Z) * t) :=
  let allocate :=
    existsb (fun p => bool_decide (Page.GetPinCount p = 0%Z)) (take (pool_size_ s) (pages_ s)) in
  if negb allocate then Ret (None, s)
  else
    match pick_frame s with
    | None => Ret (None, s)
    | Some (frame_id, s1) =>
        let s2 := drop_tenant s1 frame_id in
        let a := AllocatePage s2 in
        let page_id := a.1 in
        let s3 := a.2 in
        let s4 := set_page s3 frame_id (Page.set_page_id (page s3 frame_id) page_id) in
        let s5 := set_page s4 frame_id
                    (Page.set_pin_count (page s4 frame_id) (Page.pin_count_ (page s4 frame_id) + 1)) in
        let* s6 := bind_frame fuel s5 page_id frame_id in
        Ret (Some (page_id, frame_id), s6)
    end.

Definition FetchPgImp (fuel : nat) (s : t) (page_id : Z) : result (option Z * t) :=
  match ExtendibleHashTable.Find hash (page_table_ s) page_id with
  | Some frame_id => Ret (Some frame_id, s)
  | None =>
      let allpin :=
        forallb (fun p => negb (bool_decide (Page.GetPinCount p = 0%Z)))
          (take (pool_size_ s) (pages_ s)) in
      if negb allpin then
        match pick_frame s with
        | None => Ret (None, s)
        | Some (frame_id, s1) =>
            let s2 := drop_tenant s1 frame_id in
            let rd := DiskManager.ReadPage (Page.zeroed PAGE_SIZE) (disk_manager_ s2) page_id in
            let s3 := set_page (set_disk_manager s2 rd.2) frame_id
                        (Page.set_data (page s2 frame_id) rd.1) in
            let s4 := set_page s3 frame_id (Page.set_page_id (page s3 frame_id) page_id) in
            let s5 := set_page s4 frame_id
                        (Page.set_pin_count (page s4 frame_id) (Page.pin_count_ (page s4 frame_id) + 1)) in
            let* s6 := bind_frame fuel s5 page_id frame_id in
            Ret (Some frame_id, s6)
        end
      else Ret (None, s)
  end.

Definition UnpinPgImp (s : t) (page_id : Z) (is_dirty : bool) : result (bool * t) :=
  match ExtendibleHashTable.Find hash (page_table_ s) page_id with
  | None => Ret (false, s)
  | Some frame_id =>
      if bool_decide (Page.GetPinCount (page s frame_id) = 0%Z) then Ret (false, s)
      else
        let s1 := if is_dirty then set_page s frame_id (Page.set_is_dirty (page s frame_id) true)
                  else s in
        let old := Page.pin_count_ (page s1 frame_id) in
        let s2 := set_page s1 frame_id (Page.set_pin_count (page s1 frame_id) (old - 1)) in
        if bool_decide (old = 1%Z) then
          let* r := LRUKReplacer.SetEvictable (replacer_ s2) frame_id true in
          Ret (true, set_replacer s2 r)
        else Ret (true, s2)
  end.

Definition FlushPgImp (s : t) (page_id : Z) : bool * t :=
  match ExtendibleHashTable.Find hash (page_table_ s) page_id with
  | None => (false, s)
  | Some frame_id =>
      let s1 := set_disk_manager s
                  (DiskManager.WritePage (disk_manager_ s) page_id (Page.GetData (page s frame_id))) in
      (true, set_page s1 frame_id (Page.set_is_dirty (page s1 frame_id) false))
  end.

Definition FlushAllPgsImp (s : t) : t :=
  fold_left
    (fun s i =>
       let p := page s (Z.of_nat i) in
       if decide (Page.GetPageId p ≠ INVALID_PAGE_ID) then
         set_page
           (set_disk_manager s (DiskManager.WritePage (disk_manager_ s) (Page.GetPageId p) (Page.GetData p)))
           (Z.of_nat i) (Page.set_is_dirty p false)
       else s)
    (seq 0 (pool_size_ s)) s.

Definition DeletePgImp (s : t) (page_id : Z) : bool * t :=
  match ExtendibleHashTable.Find hash (page_table_ s) page_id with
  | None => (true, s)
  | Some frame_id =>
      if bool_decide (Page.GetPinCount (page s frame_id) > 0)%Z then (false, s)
      else
        let s1 := if Page.IsDirty (page s frame_id) then (FlushPgImp s page_id).2 else s in
        let s2 := set_page_table s1 (ExtendibleHashTable.Remove hash (page_table_ s1) page_id).2 in
        let s3 := set_free_list s2 (free_list_ s2 ++ [frame_id]) in
        let s4 := set_page s3 frame_id (Page.set_page_id (page s3 frame_id) INVALID_PAGE_ID) in
        let s5 := set_page s4 frame_id (Page.ResetMemory PAGE_SIZE (page s4 frame_id)) in
        (false, s5)
  end.

End Manager.
End BufferPoolManagerInstance.

(** ** Runs and inputs used in the statements *)

(** [std::hash<int>] as libstdc++ and libc++ define it: the conversion to
    [size_t]. *)
Definition hash_int (k : Z) : Z := to_size_t k.

(** Insert the pairs one after the other. *)
Fixpoint insert_all {K V : Type} `{EqDecision K} (hash : K → Z) (fuel : nat)
    (h : ExtendibleHashTable.t K V) (kvs : list (K * V)) : result (ExtendibleHashTable.t K V) :=
  match kvs with
  | [] => Ret h
  | kv :: tl =>
      let* h1 := ExtendibleHashTable.Insert hash fuel h kv.1 kv.2 in
      insert_all hash fuel h1 tl
  end.

(** A table of capacity-1 buckets over [int] keys, filled with [k ↦ 10 k]
    in the given order. *)
Definition table_of (fuel : nat) (keys : list Z) : result (ExtendibleHashTable.t Z Z) :=
  insert_all hash_int fuel (ExtendibleHashTable.new 1) (map (fun k => (k, 10 * k)%Z) keys).

(** Calls on a replacer, and a sequence of them run to the end; a call that
    throws ends the run. *)
Module ReplacerRun.

Inductive call : Type :=
| RecordAccess (frame_id : Z)
| SetEvictable (frame_id : Z) (set_evictable : bool)
| Evict
| Remove (frame_id : Z).

Section Run.
Variable evict0 : bool.
Variable k0 : Z.
Variable node_lt : HeapNode.t → HeapNode.t → bool.

Definition step (r : LRUKReplacer.t) (c : call) : result LRUKReplacer.t :=
  match c with
  | RecordAccess f => LRUKReplacer.RecordAccess evict0 k0 r f
  | SetEvictable f b => LRUKReplacer.SetEvictable r f b
  | Evict => Ret (LRUKReplacer.Evict evict0 k0 node_lt r).1.1
  | Remove f => LRUKReplacer.Remove evict0 k0 r f
  end.

Fixpoint run (r : LRUKReplacer.t) (cs : list call) : result LRUKReplacer.t :=
  match cs with
  | [] => Ret r
  | c :: tl => let* r1 := step r c in run r1 tl
  end.

End Run.
End ReplacerRun.

(** A manager for the examples: 8-byte pages, [INVALID_PAGE_ID = -1],
    directory buckets of 4, K = 2, nodes born evictable and ordered by
    [HeapNode.lt]. *)
Module Sample.

Definition evict0 : bool := true.
Definition k0 : Z := 0.

Definition new (pool_size : nat) (disk : DiskManager.t) : BufferPoolManagerInstance.t :=
  BufferPoolManagerInstance.new 4 (-1) 8 pool_size disk 2.

Definition NewPgImp := BufferPoolManagerInstance.NewPgImp hash_int (-1) 8 evict0 k0 HeapNode.lt.
Definition FetchPgImp := BufferPoolManagerInstance.FetchPgImp hash_int (-1) 8 evict0 k0 HeapNode.lt.
Definition UnpinPgImp := BufferPoolManagerInstance.UnpinPgImp hash_int (-1) 8.
Definition FlushPgImp := BufferPoolManagerInstance.FlushPgImp hash_int (-1) 8.
Definition DeletePgImp := BufferPoolManagerInstance.DeletePgImp hash_int (-1) 8.
Definition page := BufferPoolManagerInstance.page (-1) 8.

(** An empty disk, and a disk whose page 7 holds 8 bytes [0x01]. *)
Definition empty_disk : DiskManager.t := DiskManager.mk ∅ [].
Definition disk7 : DiskManager.t := DiskManager.mk {[ 7%Z := replicate 8 Byte.x01 ]} [].

(** Three frames; page 0 was created (it sits in frame 2) and unpinned. *)
Definition one_page_unpinned (is_dirty : bool) : result BufferPoolManagerInstance.t :=
  let* a := NewPgImp 8 (new 3 empty_disk) in
  let* b := UnpinPgImp a.2 0 is_dirty in
  Ret b.2.

(** Two frames; page 7 was fetched into frame 1 and unpinned, then a new page
    took frame 0 from the free list. *)
Definition fetched_then_full : result BufferPoolManagerInstance.t :=
  let* a := FetchPgImp 8 (new 2 disk7) 7 in
  let* b := UnpinPgImp a.2 7 false in
  let* c := NewPgImp 8 b.2 in
  Ret c.2.

End Sample.

(** ** Invariants of the hash table stated for the store of buckets *)

(** A bucket of the table [h]: it has the table's capacity, holds no more
    pairs than that, and holds no key twice. *)
Definition bucket_ok {K V : Type} (h : ExtendibleHashTable.t K V) (b : Bucket.t K V) : Prop :=
  Bucket.size_ b = ExtendibleHashTable.bucket_size_ h ∧
  (length (Bucket.list_ b) ≤ Bucket.size_ b)%nat ∧
  NoDup (Bucket.list_ b).*1.

Definition buckets_ok {K V : Type} (h : ExtendibleHashTable.t K V) : Prop :=
  Forall (bucket_ok h) (ExtendibleHashTable.store_ h).

(** Every bucket the directory points to has a local depth between 0 and the
    global depth. *)
Definition depths_ok {K V : Type} (h : ExtendibleHashTable.t K V) : Prop :=
  ∀ i a, ExtendibleHashTable.dir_ h !! i = Some a →
    (0 ≤ Bucket.depth_ (ExtendibleHashTable.bucket h a) ≤ ExtendibleHashTable.global_depth_ h)%Z.

(** Calls on a replacer can be compared, so a list of calls can be searched. *)
#[global] Instance call_eq_dec : EqDecision ReplacerRun.call.
Proof. solve_decision. Defined.

(** ** Helpers for statements about the manager *)

(** The disk after the write-back of the frame [p] that is about to be
    reused: one [WritePage] of its buffer under its page id if it is dirty,
    nothing otherwise. *)
Definition written_back (d : DiskManager.t) (p : Page.t) : DiskManager.t :=
  if Page.is_dirty_ p then DiskManager.WritePage d (Page.page_id_ p) (Page.data_ p) else d.

(** What [FlushAllPgsImp] does to one frame, and the call it makes for it. *)
Definition flushed (INVALID_PAGE_ID : Z) (p : Page.t) : Page.t :=
  if decide (Page.page_id_ p ≠ INVALID_PAGE_ID) then Page.set_is_dirty p false else p.

Definition flush_calls (INVALID_PAGE_ID : Z) (ps : list Page.t) : list DiskManager.io :=
  flat_map (fun p => if decide (Page.page_id_ p ≠ INVALID_PAGE_ID)
                     then [DiskManager.Write (Page.page_id_ p) (Page.data_ p)] else []) ps.

(** More managers for the examples, built with the calls of [Sample]. *)
Module Scenario.

(** Two frames; page 7 was fetched into frame 1 and unpinned as dirty, then a
    new page took frame 0: the free list is empty and frame 1, dirty, is the
    only frame the replacer can give. *)
Definition dirty_victim : result BufferPoolManagerInstance.t :=
  let* a := Sample.FetchPgImp 8 (Sample.new 2 Sample.disk7) 7 in
  let* b := Sample.UnpinPgImp a.2 7 true in
  let* c := Sample.NewPgImp 8 b.2 in
  Ret c.2.


(** Ten frames, filled by ten fetches; every page stays pinned.  Page 6 goes
    to frame 2.  The bucket split of the page directory during the last
    fetch, of page 14, loses the key 6: from then on the directory does not
    resolve page 6 although frame 2 holds it. *)
Definition fetch_all (s : BufferPoolManagerInstance.t) (page_ids : list Z) :
    result BufferPoolManagerInstance.t :=
  fold_left (fun r page_id =>
               let* s := r in
               let* a := Sample.FetchPgImp 8 s page_id in
               Ret a.2)
            page_ids (Ret s).

Definition lost_page : result BufferPoolManagerInstance.t :=
  fetch_all (Sample.new 10 Sample.empty_disk) [18; 19; 15; 11; 7; 3; 8; 6; 16; 14]%Z.

End Scenario.


(** ** LRU replacer: [src/buffer/lru_replacer.cpp]

    The replacer keeps its frames in a doubly linked list of heap nodes
    between two sentinels, [dummy_] in front and [tail_] at the end, and a
    map from frame ids to nodes.  Nodes live in a heap, a list indexed by
    address; [new DqueueNode] appends to it, and a removed node is never
    freed.  A pointer is [Some] address or [None] for [nullptr].

    A call is a computation in [option]: [None] is undefined behaviour, the
    dereference of a null pointer. *)

Module LRUReplacer.

Record DqueueNode : Type := mkNode {
  pre_ : option nat;
  next_ : option nat;
  cur_frame_ : Z
}.

Definition set_pre (n : DqueueNode) (p : option nat) : DqueueNode :=
  mkNode p (next_ n) (cur_frame_ n).
Definition set_next (n : DqueueNode) (p : option nat) : DqueueNode :=
  mkNode (pre_ n) p (cur_frame_ n).

Record t : Type := mk {
  node_map_ : gmap Z nat;
  dummy_ : nat;
  tail_ : nat;
  size_ : Z;
  capacity_ : Z;
  heap_ : list DqueueNode
}.

Definition set_heap (r : t) (h : list DqueueNode) : t :=
  mk (node_map_ r) (dummy_ r) (tail_ r) (size_ r) (capacity_ r) h.
Definition set_node_map (r : t) (m : gmap Z nat) : t :=
  mk m (dummy_ r) (tail_ r) (size_ r) (capacity_ r) (heap_ r).
Definition set_size (r : t) (n : Z) : t :=
  mk (node_map_ r) (dummy_ r) (tail_ r) n (capacity_ r) (heap_ r).

(** [LRUReplacer::LRUReplacer]: the two sentinels are created with frame id
    0 and linked to each other; [capacity_] is an [int] that receives a
    [size_t]. *)
Definition new (num_pages : Z) : t :=
  mk ∅ 0 1 0 (to_int32 num_pages)
     [mkNode None (Some 1%nat) 0; mkNode (Some 0%nat) None 0].

(** [LRUReplacer::RemoveNode]:
    [node->pre_->next_ = node->next_; node->next_->pre_ = node->pre_;] *)
Definition RemoveNode (r : t) (node : option nat) : option t :=
  n ← node;
  nd ← heap_ r !! n;
  p ← pre_ nd;
  pd ← heap_ r !! p;
  let h1 := <[p := set_next pd (next_ nd)]> (heap_ r) in
  nd1 ← h1 !! n;
  x ← next_ nd1;
  xd ← h1 !! x;
  Some (set_heap r (<[x := set_pre xd (pre_ nd1)]> h1)).

(** [LRUReplacer::AddToHead]:
    [node->next_ = dummy_->next_; node->pre_ = dummy_;
     dummy_->next_->pre_ = node; dummy_->next_ = node;] *)
Definition AddToHead (r : t) (node : nat) : option t :=
  nd ← heap_ r !! node;
  d ← heap_ r !! dummy_ r;
  let h1 := <[node := set_next nd (next_ d)]> (heap_ r) in
  nd1 ← h1 !! node;
  let h2 := <[node := set_pre nd1 (Some (dummy_ r))]> h1 in
  d2 ← h2 !! dummy_ r;
  x ← next_ d2;
  xd ← h2 !! x;
  let h3 := <[x := set_pre xd (Some node)]> h2 in
  d3 ← h3 !! dummy_ r;
  Some (set_heap r (<[dummy_ r := set_next d3 (Some node)]> h3)).

(** [LRUReplacer::GetTail]: [tail_->pre_->cur_frame_]. *)
Definition GetTail (r : t) : option Z :=
  td ← heap_ r !! tail_ r;
  p ← pre_ td;
  pd ← heap_ r !! p;
  Some (cur_frame_ pd).

(** [LRUReplacer::Victim].  [frame_id] is the value the caller's variable
    holds before the call; the result carries the value it holds after it
    and the flag returned.  [node_map_[*frame_id]] on an absent key inserts
    a null pointer, which [RemoveNode] dereferences at once. *)
Definition Victim (r : t) (frame_id : Z) : option (t * Z * bool) :=
  g ← GetTail r;
  if decide (g = (-1)%Z) then Some (r, frame_id, false)
  else
    f ← GetTail r;
    r1 ← RemoveNode r (node_map_ r !! f);
    Some (set_size (set_node_map r1 (delete f (node_map_ r1))) (size_ r1 - 1), f, true).

(** [LRUReplacer::Pin]. *)
Definition Pin (r : t) (frame_id : Z) : option t :=
  match node_map_ r !! frame_id with
  | Some a =>
      r1 ← RemoveNode r (Some a);
      Some (set_size (set_node_map r1 (delete frame_id (node_map_ r1))) (size_ r1 - 1))
  | None => Some r
  end.

(** [LRUReplacer::Unpin].  A frame that is already held is left where it
    is.  At capacity the source erases [tail_->cur_frame_] from the map and
    calls [RemoveNode(tail_)] on the sentinel itself. *)
Definition Unpin (r : t) (frame_id : Z) : option t :=
  match node_map_ r !! frame_id with
  | Some _ => Some r
  | None =>
      r1 ← (if decide (size_ r = capacity_ r) then
              td ← heap_ r !! tail_ r;
              r' ← RemoveNode (set_node_map r (delete (cur_frame_ td) (node_map_ r)))
                              (Some (tail_ r));
              Some (set_size r' (size_ r' - 1))
            else Some r);
      let new_node := length (heap_ r1) in
      let r2 := set_heap r1 (heap_ r1 ++ [mkNode None None frame_id]) in
      let r3 := set_node_map r2 (<[frame_id := new_node]> (node_map_ r2)) in
      r4 ← AddToHead r3 new_node;
      Some (set_size r4 (size_ r4 + 1))
  end.

(** [LRUReplacer::Size]: the [int] counter returned as [size_t]. *)
Definition Size (r : t) : Z := to_size_t (size_ r).

(** *** The list the nodes form *)

(** The address the node before or after a stretch of the list points to. *)
Definition head_addr (c : list (nat * Z)) (nxt : option nat) : option nat :=
  match c with
  | [] => nxt
  | (b, _) :: _ => Some b
  end.

Definition last_addr (prev : option nat) (c : list (nat * Z)) : option nat :=
  match last c with
  | Some (b, _) => Some b
  | None => prev
  end.

(** [seg h prev c nxt]: the nodes at the addresses of [c] hold the frames of
    [c] and are linked to each other in that order, the first one back to
    [prev], the last one on to [nxt]. *)
Fixpoint seg (h : list DqueueNode) (prev : option nat) (c : list (nat * Z))
    (nxt : option nat) : Prop :=
  match c with
  | [] => True
  | (a, f) :: rest =>
      h !! a = Some (mkNode prev (head_addr rest nxt) f) ∧ seg h (Some a) rest nxt
  end.

(** [linked r m]: the list of [r] runs from [dummy_] through the nodes of
    [m], given as pairs of address and frame id, to [tail_]; no node and no
    frame occurs twice; the map sends exactly the frames of [m] to their
    nodes; [size_] counts them. *)
Definition linked (r : t) (m : list (nat * Z)) : Prop :=
  NoDup (dummy_ r :: m.*1 ++ [tail_ r]) ∧
  NoDup m.*2 ∧
  size_ r = Z.of_nat (length m) ∧
  (∀ f a, node_map_ r !! f = Some a ↔ (a, f) ∈ m) ∧
  seg (heap_ r) None ((dummy_ r, 0%Z) :: m ++ [(tail_ r, 0%Z)]) None.

(** [queue r l]: the replacer holds the frames [l], the one unpinned last
    first. *)
Definition queue (r : t) (l : list Z) : Prop :=
  ∃ m, linked r m ∧ m.*2 = l.

(** Calls on the replacer, and the state after a list of them. *)
Inductive call : Type :=
| CallVictim
| CallPin (frame_id : Z)
| CallUnpin (frame_id : Z).

Definition step (r : t) (c : call) : option t :=
  match c with
  | CallVictim => x ← Victim r 0; Some x.1.1
  | CallPin f => Pin r f
  | CallUnpin f => Unpin r f
  end.

Fixpoint run (r : t) (cs : list call) : option t :=
  match cs with
  | [] => Some r
  | c :: cs' => r' ← step r c; run r' cs'
  end.

End LRUReplacer.

(** Replacers for the examples: the frames 1 and then 2 unpinned on a new
    replacer for [n] pages. *)
Module LRUSample.

Definition held_2_1 (n : Z) : option LRUReplacer.t :=
  LRUReplacer.run (LRUReplacer.new n) [LRUReplacer.CallUnpin 1; LRUReplacer.CallUnpin 2].

End LRUSample.
(** * Properties *)

(** ** Outcomes and fuel *)

Lemma bind_Ret_inv {A B : Type} (m : result A) (k : A → result B) (b : B) :
  bind m k = Ret b → ∃ a, m = Ret a ∧ k a = Ret b.
Proof. destruct m as [a| |]; simpl; intros E; try discriminate. by exists a. Qed.

Section BucketFacts.
Context {K V : Type} `{EqDecision K}.
Implicit Types (b : Bucket.t K V) (l seen rest : list (K * V)) (key : K) (value : V).

Lemma insert_scan_spins key value fuel :
  ∀ seen rest flag, key ∈ rest.*1 → Bucket.insert_scan fuel seen rest flag key value = Spin.
Proof.
  induction fuel as [|n IH]; intros seen rest flag Hin; [reflexivity|].
  destruct rest as [|p tl]; [by apply elem_of_nil in Hin|].
  simpl. destruct (decide (p.1 = key)) as [E|N].
  - apply IH. rewrite fmap_cons. simpl. rewrite E. apply elem_of_cons. by left.
  - apply IH. rewrite fmap_cons in Hin. apply elem_of_cons in Hin as [Hk|Hk]; [by subst|done].
Qed.

Lemma insert_scan_fresh key value :
  ∀ rest seen flag fuel, key ∉ rest.*1 → (length rest < fuel)%nat →
    Bucket.insert_scan fuel seen rest flag key value = Ret (flag, rev seen ++ rest).
Proof.
  induction rest as [|p tl IH]; intros seen flag fuel Hnin Hlt.
  - destruct fuel; [simpl in Hlt; lia|]. simpl. by rewrite rev_append_rev, app_nil_r.
  - destruct fuel; [simpl in Hlt; lia|].
    rewrite fmap_cons, not_elem_of_cons in Hnin. destruct Hnin as [Hp Htl]. simpl in *.
    destruct (decide (p.1 = key)) as [E|N]; [by subst|].
    rewrite IH; [|done|lia]. simpl. by rewrite <- app_assoc.
Qed.

Lemma insert_scan_mono key value n :
  ∀ m seen rest flag x, Bucket.insert_scan n seen rest flag key value = Ret x → (n ≤ m)%nat →
    Bucket.insert_scan m seen rest flag key value = Ret x.
Proof.
  induction n as [|n IH]; intros m seen rest flag x E Hle; [discriminate|].
  destruct m as [|m]; [lia|]. simpl in *.
  destruct rest as [|p tl]; [done|].
  destruct (decide (p.1 = key)); (apply IH; [done|lia]).
Qed.

Lemma Bucket_Insert_mono n m b key value x :
  Bucket.Insert n b key value = Ret x → (n ≤ m)%nat → Bucket.Insert m b key value = Ret x.
Proof.
  unfold Bucket.Insert. intros E Hle.
  apply bind_Ret_inv in E as (r & Er & E).
  by rewrite (insert_scan_mono _ _ _ _ _ _ _ _ Er Hle).
Qed.

Lemma find_fold_Some key l :
  ∀ (acc : option V) v,
    fold_left (fun acc p => if decide (p.1 = key) then Some p.2 else acc) l acc = Some v →
    key ∈ l.*1 ∨ acc = Some v.
Proof.
  induction l as [|p tl IH]; intros acc v E; simpl in *; [by right|].
  apply IH in E as [Hin|E].
  - left. apply elem_of_cons. by right.
  - destruct (decide (p.1 = key)) as [Ek|]; [|by right].
    left. apply elem_of_cons. by left.
Qed.

Lemma Bucket_Find_Some b key v : Bucket.Find b key = Some v → key ∈ (Bucket.list_ b).*1.
Proof. intros E. by apply find_fold_Some in E as [?|?]. Qed.

Lemma Bucket_Insert_present_spins fuel b key value v0 :
  Bucket.Find b key = Some v0 → Bucket.Insert fuel b key value = Spin.
Proof.
  intros E. unfold Bucket.Insert.
  by rewrite insert_scan_spins by (by eapply Bucket_Find_Some).
Qed.

End BucketFacts.

Section TableFacts.
Context {K V : Type} `{EqDecision K}.
Variable hash : K → Z.
Implicit Types (h : ExtendibleHashTable.t K V) (key : K) (value : V).

Local Abbreviation Insert := (ExtendibleHashTable.Insert hash).
Local Abbreviation Find := (ExtendibleHashTable.Find hash).
Local Abbreviation Remove := (ExtendibleHashTable.Remove hash).
Local Abbreviation RedistributeBucket := (ExtendibleHashTable.RedistributeBucket hash).
Local Abbreviation move_item := (ExtendibleHashTable.move_item hash).
Local Abbreviation move_items := (ExtendibleHashTable.move_items hash).

Lemma move_item_mono n m a index h p x :
  move_item n a index h p = Ret x → (n ≤ m)%nat → move_item m a index h p = Ret x.
Proof.
  unfold ExtendibleHashTable.move_item. intros E Hle.
  destruct (decide _); [|done].
  apply bind_Ret_inv in E as (r & Er & E).
  by rewrite (Bucket_Insert_mono _ _ _ _ _ _ Er Hle).
Qed.

Lemma move_items_mono n m a index l :
  ∀ h x, move_items n a index h l = Ret x → (n ≤ m)%nat → move_items m a index h l = Ret x.
Proof.
  induction l as [|p tl IH]; intros h x E Hle; simpl in *; [done|].
  apply bind_Ret_inv in E as (h1 & E1 & E).
  rewrite (move_item_mono _ _ _ _ _ _ _ E1 Hle). simpl. by apply IH.
Qed.

Lemma RedistributeBucket_mono n m h a index x :
  RedistributeBucket n h a index = Ret x → (n ≤ m)%nat → RedistributeBucket m h a index = Ret x.
Proof. unfold ExtendibleHashTable.RedistributeBucket. apply move_items_mono. Qed.

Lemma Insert_mono n :
  ∀ m h key value x, Insert n h key value = Ret x → (n ≤ m)%nat → Insert m h key value = Ret x.
Proof.
  induction n as [|n IH]; intros m h key value x E Hle; [discriminate|].
  destruct m as [|m]; [lia|]. simpl in *.
  apply bind_Ret_inv in E as (r & Er & E).
  rewrite (Bucket_Insert_mono n m _ _ _ _ Er) by lia. simpl.
  destruct r.1; [done|].
  apply bind_Ret_inv in E as (h2 & E2 & E).
  rewrite (RedistributeBucket_mono n m _ _ _ _ E2) by lia. simpl.
  apply IH; [done|lia].
Qed.

Lemma insert_all_mono n m kvs :
  ∀ h x, insert_all hash n h kvs = Ret x → (n ≤ m)%nat → insert_all hash m h kvs = Ret x.
Proof.
  induction kvs as [|kv tl IH]; intros h x E Hle; simpl in *; [done|].
  apply bind_Ret_inv in E as (h1 & E1 & E).
  rewrite (Insert_mono _ _ _ _ _ _ E1 Hle). simpl. by apply IH.
Qed.

(** [num_buckets_] is written by the constructor only. *)
Lemma move_item_num_buckets n a index h p x :
  move_item n a index h p = Ret x →
  ExtendibleHashTable.num_buckets_ x = ExtendibleHashTable.num_buckets_ h.
Proof.
  unfold ExtendibleHashTable.move_item. intros E.
  destruct (decide _); [|by inversion E].
  apply bind_Ret_inv in E as (r & Er & E). by inversion E.
Qed.

Lemma move_items_num_buckets n a index l :
  ∀ h x, move_items n a index h l = Ret x →
    ExtendibleHashTable.num_buckets_ x = ExtendibleHashTable.num_buckets_ h.
Proof.
  induction l as [|p tl IH]; intros h x E; simpl in *; [by inversion E|].
  apply bind_Ret_inv in E as (h1 & E1 & E).
  rewrite (IH _ _ E). by eapply move_item_num_buckets.
Qed.

Lemma RedistributeBucket_num_buckets n h a index x :
  RedistributeBucket n h a index = Ret x →
  ExtendibleHashTable.num_buckets_ x = ExtendibleHashTable.num_buckets_ h.
Proof.
  unfold ExtendibleHashTable.RedistributeBucket. intros E.
  apply move_items_num_buckets in E. rewrite E. simpl. by destruct (decide _).
Qed.

Lemma Insert_num_buckets n :
  ∀ h key value x, Insert n h key value = Ret x →
    ExtendibleHashTable.num_buckets_ x = ExtendibleHashTable.num_buckets_ h.
Proof.
  induction n as [|n IH]; intros h key value x E; [discriminate|]. simpl in E.
  apply bind_Ret_inv in E as (r & Er & E).
  destruct r.1; [by inversion E|].
  apply bind_Ret_inv in E as (h2 & E2 & E).
  rewrite (IH _ _ _ _ E). by rewrite (RedistributeBucket_num_buckets _ _ _ _ _ E2).
Qed.

Lemma Find_Remove h key : Find (Remove h key).2 key = None.
Proof.
  unfold ExtendibleHashTable.Find, ExtendibleHashTable.Remove, ExtendibleHashTable.IndexOf. simpl.
  set (a := ExtendibleHashTable.slot h _).
  unfold ExtendibleHashTable.slot in *. simpl. fold a.
  unfold ExtendibleHashTable.bucket at 1. simpl.
  destruct (decide (a < length (ExtendibleHashTable.store_ h))%nat) as [Hlt|Hge].
  - rewrite list_lookup_insert_eq by done. simpl.
    unfold Bucket.Find. simpl.
    generalize (Bucket.list_ (ExtendibleHashTable.bucket h a)). intros l.
    assert (G : ∀ acc, fold_left (fun acc p => if decide (p.1 = key) then Some p.2 else acc)
                         (Bucket.remove_scan l key).2 acc = acc); [|apply G].
    induction l as [|p tl IH]; intros acc; simpl; [done|].
    destruct (decide (p.1 = key)) as [E|N]; simpl; [apply IH|].
    destruct (decide (p.1 = key)); [done|apply IH].
  - rewrite list_insert_ge by lia.
    rewrite (lookup_ge_None_2 _ a) by lia. done.
Qed.

End TableFacts.

(** ** Shape of the directory *)

Section MoreBucketFacts.
Context {K V : Type} `{EqDecision K}.
Implicit Types (b : Bucket.t K V) (l seen rest : list (K * V)) (key : K) (value : V).

(** A scan that returns met no pair with the key, and changed nothing. *)
Lemma insert_scan_Ret key value fuel seen rest flag x :
  Bucket.insert_scan fuel seen rest flag key value = Ret x →
  (key ∉ rest.*1) ∧ x = (flag, rev seen ++ rest).
Proof.
  intros E. destruct (decide (key ∈ rest.*1)) as [Hin|Hnin].
  - by rewrite insert_scan_spins in E.
  - split; [done|].
    pose proof (insert_scan_mono key value fuel (fuel + S (length rest)) seen rest flag x E) as E'.
    rewrite insert_scan_fresh in E' by (done || lia).
    specialize (E' ltac:(lia)). by inversion E'.
Qed.

Lemma find_fold_last key value l :
  ∀ acc : option V,
    fold_left (fun acc p => if decide (p.1 = key) then Some p.2 else acc) (l ++ [(key, value)]) acc
    = Some value.
Proof.
  intros acc. rewrite fold_left_app. simpl. by destruct (decide (key = key)).
Qed.

(** What a returning [Bucket::Insert] did: the key was absent; with room the
    pair went to the back, without room nothing changed. *)
Lemma Bucket_Insert_Ret fuel b key value r :
  Bucket.Insert fuel b key value = Ret r →
  (key ∉ (Bucket.list_ b).*1) ∧
  ((r.1 = true ∧ length (Bucket.list_ b) ≠ Bucket.size_ b ∧
    r.2 = Bucket.set_list b (Bucket.list_ b ++ [(key, value)])) ∨
   (r.1 = false ∧ length (Bucket.list_ b) = Bucket.size_ b ∧ r.2 = b)).
Proof.
  unfold Bucket.Insert. intros E.
  apply bind_Ret_inv in E as (x & Ex & E).
  apply insert_scan_Ret in Ex as [Hnin ->]. simpl in E. split; [done|].
  destruct (decide _) as [Hne|He]; inversion E; subst; clear E; simpl.
  - left. by destruct b.
  - right. apply dec_stable in He. by destruct b.
Qed.

Lemma Bucket_Find_after_Insert fuel b key value r :
  Bucket.Insert fuel b key value = Ret r → r.1 = true → Bucket.Find r.2 key = Some value.
Proof.
  intros E Ht. apply Bucket_Insert_Ret in E as [_ [(_ & _ & ->)|(Hf & _)]]; [|congruence].
  unfold Bucket.Find. simpl. apply find_fold_last.
Qed.

End MoreBucketFacts.

Section DirectoryShape.
Context {K V : Type} `{EqDecision K}.
Variable hash : K → Z.
Implicit Types (h : ExtendibleHashTable.t K V) (key : K) (value : V).

Local Abbreviation dir_ok := (@ExtendibleHashTable.dir_ok K V).

Lemma IndexOf_range h key :
  (0 ≤ ExtendibleHashTable.global_depth_ h)%Z →
  (0 ≤ ExtendibleHashTable.IndexOf hash h key < 2 ^ ExtendibleHashTable.global_depth_ h)%Z.
Proof.
  intros Hg. unfold ExtendibleHashTable.IndexOf. cbv zeta.
  rewrite Z.shiftl_1_l, Z.sub_1_r, <- Z.ones_equiv, Z.land_ones by done.
  apply Z.mod_pos_bound. by apply Z.pow_pos_nonneg.
Qed.

(** Under [dir_ok] the slot of a key holds a pointer to an allocated bucket. *)
Lemma slot_allocated h key :
  dir_ok h →
  (ExtendibleHashTable.slot h (ExtendibleHashTable.IndexOf hash h key)
     < length (ExtendibleHashTable.store_ h))%nat.
Proof.
  intros (Hg & Hlen & Hall). pose proof (IndexOf_range h key Hg) as Hi.
  unfold ExtendibleHashTable.slot.
  destruct (ExtendibleHashTable.dir_ h !! Z.to_nat (ExtendibleHashTable.IndexOf hash h key))
    as [a|] eqn:Ea; simpl.
  - rewrite Forall_forall in Hall. apply Hall. by eapply list_elem_of_lookup_2.
  - apply lookup_ge_None in Ea. lia.
Qed.

Lemma set_bucket_dir_ok h a b : dir_ok h → dir_ok (ExtendibleHashTable.set_bucket h a b).
Proof.
  intros (Hg & Hlen & Hall). repeat split; [done..|]. simpl. by rewrite length_insert.
Qed.

Lemma push_copies (dir : list nat) :
  ∀ n k ext, (k + n ≤ length dir)%nat →
    fold_left (fun d i => d ++ [default 0%nat (d !! i)]) (seq k n) (dir ++ ext)
    = dir ++ ext ++ take n (drop k dir).
Proof.
  induction n as [|n IH]; intros k ext Hk; simpl.
  - by rewrite app_nil_r.
  - destruct (lookup_lt_is_Some_2 dir k ltac:(lia)) as [x Ex].
    rewrite lookup_app_l by lia. rewrite Ex. simpl.
    rewrite <- (app_assoc dir). rewrite IH by lia.
    rewrite (drop_S _ _ _ Ex). simpl. by rewrite <- app_assoc.
Qed.

(** With a directory of [2 ^ global_depth_] slots the doubling loop appends a
    copy of the directory. *)
Lemma double_dir_dir h :
  dir_ok h →
  ExtendibleHashTable.dir_ (ExtendibleHashTable.double_dir h)
  = ExtendibleHashTable.dir_ h ++ ExtendibleHashTable.dir_ h.
Proof.
  intros (Hg & Hlen & Hall). unfold ExtendibleHashTable.double_dir. cbv zeta.
  rewrite Z.shiftl_1_l, <- Hlen.
  pose proof (push_copies (ExtendibleHashTable.dir_ h) (length (ExtendibleHashTable.dir_ h)) 0 [] ltac:(lia)) as E.
  rewrite app_nil_r in E. simpl in E. simpl. rewrite E. by rewrite drop_0, firstn_all.
Qed.

Lemma double_dir_dir_ok h : dir_ok h → dir_ok (ExtendibleHashTable.double_dir h).
Proof.
  intros Hok. pose proof (double_dir_dir h Hok) as E. destruct Hok as (Hg & Hlen & Hall).
  unfold dir_ok. rewrite E.
  repeat split; simpl.
  - lia.
  - rewrite length_app, Hlen, Z.pow_add_r by lia.
    assert (0 < 2 ^ ExtendibleHashTable.global_depth_ h)%Z by (by apply Z.pow_pos_nonneg). lia.
  - by apply Forall_app.
Qed.

Lemma move_item_dir_ok n a index h p x :
  ExtendibleHashTable.move_item hash n a index h p = Ret x → dir_ok h → dir_ok x.
Proof.
  unfold ExtendibleHashTable.move_item. intros E Hok.
  destruct (decide _); [|by inversion E; subst].
  apply bind_Ret_inv in E as (r & _ & E). inversion E; subst.
  by do 2 apply set_bucket_dir_ok.
Qed.

Lemma move_items_dir_ok n a index l :
  ∀ h x, ExtendibleHashTable.move_items hash n a index h l = Ret x → dir_ok h → dir_ok x.
Proof.
  induction l as [|p tl IH]; intros h x E Hok; simpl in E; [by inversion E; subst|].
  apply bind_Ret_inv in E as (h1 & E1 & E).
  eapply IH; [exact E|]. by eapply move_item_dir_ok.
Qed.

Lemma RedistributeBucket_dir_ok n h a index x :
  ExtendibleHashTable.RedistributeBucket hash n h a index = Ret x → dir_ok h → dir_ok x.
Proof.
  unfold ExtendibleHashTable.RedistributeBucket. intros E Hok.
  eapply move_items_dir_ok; [exact E|]. clear E.
  set (h1 := if decide _ then _ else h).
  assert (H1 : dir_ok h1) by (subst h1; destruct (decide _); [by apply double_dir_dir_ok|done]).
  set (h2 := ExtendibleHashTable.set_bucket h1 a _).
  assert (H2 : dir_ok h2) by by apply set_bucket_dir_ok.
  destruct H2 as (Hg & Hlen & Hall). repeat split; simpl; [done|by rewrite length_insert|].
  rewrite length_app. simpl.
  apply Forall_insert; [|lia].
  eapply Forall_impl; [exact Hall|]. simpl. intros; lia.
Qed.

(** The part of the directory invariant that every returning [Insert] keeps:
    the directory has [2 ^ global_depth_] slots, each with an allocated
    bucket. *)
Lemma Insert_dir_ok n :
  ∀ h key value x, ExtendibleHashTable.Insert hash n h key value = Ret x → dir_ok h → dir_ok x.
Proof.
  induction n as [|n IH]; intros h key value x E Hok; [discriminate|]. simpl in E.
  apply bind_Ret_inv in E as (r & _ & E).
  destruct r.1; [inversion E; subst; by apply set_bucket_dir_ok|].
  apply bind_Ret_inv in E as (h2 & E2 & E).
  eapply IH; [exact E|]. eapply RedistributeBucket_dir_ok; [exact E2|].
  by apply set_bucket_dir_ok.
Qed.

Lemma new_dir_ok (bucket_size : nat) : dir_ok (ExtendibleHashTable.new bucket_size).
Proof. repeat split; simpl; [lia|]. repeat constructor. Qed.

Lemma Remove_dir_ok h key : dir_ok h → dir_ok (ExtendibleHashTable.Remove hash h key).2.
Proof. apply set_bucket_dir_ok. Qed.

(** When [insert(k, v)] returns on a well-shaped table, a
    [find(k)] right after it gives [v]. *)
Lemma Find_after_Insert n :
  ∀ h key value x, ExtendibleHashTable.Insert hash n h key value = Ret x → dir_ok h →
    ExtendibleHashTable.Find hash x key = Some value.
Proof.
  induction n as [|n IH]; intros h key value x E Hok; [discriminate|]. simpl in E.
  apply bind_Ret_inv in E as (r & Er & E).
  destruct r.1 eqn:Hr.
  - inversion E; subst; clear E.
    unfold ExtendibleHashTable.Find, ExtendibleHashTable.IndexOf. simpl.
    fold (ExtendibleHashTable.IndexOf hash h key).
    unfold ExtendibleHashTable.slot at 1. simpl.
    fold (ExtendibleHashTable.slot h (ExtendibleHashTable.IndexOf hash h key)).
    unfold ExtendibleHashTable.bucket at 1. simpl.
    rewrite list_lookup_insert_eq by by apply slot_allocated. simpl.
    by eapply Bucket_Find_after_Insert.
  - apply bind_Ret_inv in E as (h2 & E2 & E).
    eapply IH; [exact E|]. eapply RedistributeBucket_dir_ok; [exact E2|].
    by apply set_bucket_dir_ok.
Qed.

End DirectoryShape.

(** *** A split that never ends

    The bucket [a] holds key 1, is full (capacity 1) and sits in slots 1 and 3
    of a directory of global depth at least 3.  An insert of key 3 finds it
    full and splits it; the split rebinds slot [3 + 2 ^ (global_depth_ - 1)]
    only and moves key 1 from slot 3 to slot 1, that is, back into [a].  The
    next round finds the same full bucket in slot 3. *)

Section SplitSpins.
Implicit Types (h : ExtendibleHashTable.t Z Z).

Lemma land_mask_small (x n : Z) :
  (0 ≤ n)%Z → (0 ≤ x < 2 ^ n)%Z → Z.land x (Z.shiftl 1 n - 1) = x.
Proof.
  intros Hn Hx. rewrite Z.shiftl_1_l, Z.sub_1_r, <- Z.ones_equiv, Z.land_ones by done.
  by apply Z.mod_small.
Qed.

Lemma pow2_ge (n k : Z) : (0 ≤ k ≤ n)%Z → (2 ^ k ≤ 2 ^ n)%Z.
Proof. intros Hk. apply Z.pow_le_mono_r; lia. Qed.

Lemma stuck_round fuel h a d x :
  (3 ≤ ExtendibleHashTable.global_depth_ h)%Z →
  ExtendibleHashTable.dir_ok h →
  ExtendibleHashTable.dir_ h !! 1%nat = Some a →
  ExtendibleHashTable.dir_ h !! 3%nat = Some a →
  ExtendibleHashTable.store_ h !! a = Some (Bucket.mk 1 d [(1, 10)]%Z) →
  (0 ≤ d)%Z →
  ExtendibleHashTable.RedistributeBucket hash_int fuel h a 3%Z = Ret x →
  (3 ≤ ExtendibleHashTable.global_depth_ x)%Z ∧
  ExtendibleHashTable.dir_ok x ∧
  ExtendibleHashTable.dir_ x !! 1%nat = Some a ∧
  ExtendibleHashTable.dir_ x !! 3%nat = Some a ∧
  ExtendibleHashTable.store_ x !! a = Some (Bucket.mk 1 (d + 1) [(1, 10)]%Z).
Proof.
  intros Hg Hok H1 H3 Ha Hd E.
  pose proof (RedistributeBucket_dir_ok hash_int _ _ _ _ _ E Hok) as Hokx.
  unfold ExtendibleHashTable.RedistributeBucket in E. cbv zeta in E.
  set (h1 := if decide _ then _ else h) in E.
  assert (Hh1 : (3 ≤ ExtendibleHashTable.global_depth_ h1)%Z ∧
                ExtendibleHashTable.dir_ h1 !! 1%nat = Some a ∧
                ExtendibleHashTable.dir_ h1 !! 3%nat = Some a ∧
                ExtendibleHashTable.store_ h1 = ExtendibleHashTable.store_ h).
  { subst h1. destruct (decide _); [|done].
    rewrite double_dir_dir by done. split; [simpl; lia|].
    rewrite !lookup_app_l by (by eapply lookup_lt_Some). done. }
  clearbody h1. destruct Hh1 as (Hg1 & H11 & H13 & Hst1).
  destruct h1 as [g bs nb dir st].
  cbn [ExtendibleHashTable.global_depth_ ExtendibleHashTable.dir_ ExtendibleHashTable.store_] in *.
  subst st.
  assert (Hlt : (a < length (ExtendibleHashTable.store_ h))%nat) by (by eapply lookup_lt_Some).
  unfold ExtendibleHashTable.set_bucket, ExtendibleHashTable.set_store, ExtendibleHashTable.set_dir,
    ExtendibleHashTable.bucket in E.
  cbn [ExtendibleHashTable.global_depth_ ExtendibleHashTable.dir_ ExtendibleHashTable.store_
       ExtendibleHashTable.bucket_size_ ExtendibleHashTable.num_buckets_] in E.
  rewrite Ha in E. cbn [default from_option] in E.
  rewrite list_lookup_insert_eq in E by done.
  cbn [default from_option Bucket.GetItems Bucket.GetDepth Bucket.IncrementDepth
       Bucket.depth_ Bucket.list_ Bucket.size_] in E.
  cbn [id] in E.
  assert (Hhalf : (4 ≤ Z.shiftl 1 (g - 1))%Z)
    by (rewrite Z.shiftl_1_l; change 4%Z with (2 ^ 2)%Z; apply pow2_ge; lia).
  destruct (decide (3 >= _)%Z) as [Hc|_] in E; [lia|].
  set (si := Z.to_nat (3 + Z.shiftl 1 (g - 1))) in E.
  assert (Hsi : (7 ≤ si)%nat) by (subst si; lia). clearbody si.
  set (fresh := length (<[a:=_]> (ExtendibleHashTable.store_ h))) in E. clearbody fresh.
  set (st2 := <[a:=_]> (ExtendibleHashTable.store_ h) ++ _) in E.
  assert (Hst2 : st2 !! a = Some (Bucket.mk 1 (d + 1) [(1, 10)]%Z)).
  { subst st2. rewrite lookup_app_l by (by rewrite length_insert).
    by rewrite list_lookup_insert_eq. }
  assert (Hlt2 : (a < length st2)%nat) by (by eapply lookup_lt_Some).
  clearbody st2.
  assert (Hd1 : (<[si:=fresh]> dir) !! 1%nat = Some a) by (by rewrite list_lookup_insert_ne by lia).
  assert (Hd3 : (<[si:=fresh]> dir) !! 3%nat = Some a) by (by rewrite list_lookup_insert_ne by lia).
  set (dir2 := <[si:=fresh]> dir) in *. clearbody dir2.
  cbn [ExtendibleHashTable.move_items] in E.
  apply bind_Ret_inv in E as (h5 & E5 & E). inversion E; subst x; clear E.
  unfold ExtendibleHashTable.move_item in E5. cbv zeta in E5.
  unfold ExtendibleHashTable.set_bucket, ExtendibleHashTable.set_store,
    ExtendibleHashTable.bucket, ExtendibleHashTable.slot in E5.
  cbn [ExtendibleHashTable.global_depth_ ExtendibleHashTable.dir_ ExtendibleHashTable.store_
       ExtendibleHashTable.bucket_size_ ExtendibleHashTable.num_buckets_ fst snd] in E5.
  change (Z.to_nat 3) with 3%nat in E5.
  rewrite Hst2, Hd3 in E5.
  cbn [default from_option id Bucket.GetDepth Bucket.depth_] in E5.
  assert (Hj : ExtendibleHashTable.IndexOfDepth hash_int 1%Z (d + 1) = 1%Z).
  { unfold ExtendibleHashTable.IndexOfDepth, hash_int. cbv zeta.
    change (to_size_t 1) with 1%Z. apply land_mask_small; [lia|].
    split; [lia|]. change 1%Z with (2 ^ 0)%Z at 1. apply Z.pow_lt_mono_r; lia. }
  rewrite Hj in E5. destruct (decide (1 ≠ 3)%Z) as [_|Hc] in E5; [|by destruct Hc].
  change (Z.to_nat 1) with 1%nat in E5. rewrite Hd1, Hst2 in E5.
  cbn [default from_option id] in E5.
  rewrite list_lookup_insert_eq in E5 by done.
  cbn [default from_option id] in E5.
  assert (Hrm : (Bucket.Remove (Bucket.mk 1 (d + 1) [(1, 10)]%Z) 1%Z).2 = Bucket.mk 1 (d + 1) [])
    by reflexivity.
  rewrite Hrm in E5. clear Hrm.
  apply bind_Ret_inv in E5 as (r & Er & E5). inversion E5; subst h5; clear E5.
  apply Bucket_Insert_Ret in Er as [_ [(_ & _ & Er)|(_ & Hc & _)]]; [|simpl in Hc; lia].
  rewrite Er in Hokx |- *.
  split; [exact Hg1|]. split; [exact Hokx|]. split; [exact Hd1|]. split; [exact Hd3|].
  cbn [ExtendibleHashTable.store_].
  rewrite list_lookup_insert_eq by (by rewrite length_insert). reflexivity.
Qed.

Lemma stuck_Insert_never_returns fuel :
  ∀ h a d value x,
    (3 ≤ ExtendibleHashTable.global_depth_ h)%Z →
    ExtendibleHashTable.dir_ok h →
    ExtendibleHashTable.dir_ h !! 1%nat = Some a →
    ExtendibleHashTable.dir_ h !! 3%nat = Some a →
    ExtendibleHashTable.store_ h !! a = Some (Bucket.mk 1 d [(1, 10)]%Z) →
    (0 ≤ d)%Z →
    ExtendibleHashTable.Insert hash_int fuel h 3%Z value ≠ Ret x.
Proof.
  induction fuel as [|n IH]; intros h a d value x Hg Hok H1 H3 Ha Hd E; [discriminate|].
  simpl in E.
  assert (Hi : ExtendibleHashTable.IndexOf hash_int h 3%Z = 3%Z).
  { unfold ExtendibleHashTable.IndexOf, hash_int. cbv zeta. change (to_size_t 3) with 3%Z.
    apply land_mask_small; [lia|]. split; [lia|].
    assert (2 ^ 3 ≤ 2 ^ ExtendibleHashTable.global_depth_ h)%Z by (apply pow2_ge; lia). lia. }
  assert (Hs : ExtendibleHashTable.slot h 3%Z = a).
  { unfold ExtendibleHashTable.slot. change (Z.to_nat 3) with 3%nat. by rewrite H3. }
  assert (Hb : ExtendibleHashTable.bucket h a = Bucket.mk 1 d [(1, 10)]%Z).
  { unfold ExtendibleHashTable.bucket. by rewrite Ha. }
  rewrite Hi, Hs, Hb in E.
  apply bind_Ret_inv in E as (r & Er & E).
  apply Bucket_Insert_Ret in Er as [_ [(_ & Hc & _)|(Hr & _ & Er)]]; [by simpl in Hc|].
  rewrite Hr, Er in E.
  apply bind_Ret_inv in E as (h2 & E2 & E).
  assert (Hh1 : ExtendibleHashTable.set_bucket h a (Bucket.mk 1 d [(1, 10)]%Z) = 
                ExtendibleHashTable.set_store h (ExtendibleHashTable.store_ h)).
  { unfold ExtendibleHashTable.set_bucket. by rewrite list_insert_id. }
  rewrite Hh1 in E2.
  change (ExtendibleHashTable.IndexOf hash_int (ExtendibleHashTable.set_store h ?s) 3%Z)
    with (ExtendibleHashTable.IndexOf hash_int h 3%Z) in E2.
  change (ExtendibleHashTable.slot (ExtendibleHashTable.set_store h ?s) ?i)
    with (ExtendibleHashTable.slot h i) in E2.
  rewrite Hi, Hs in E2.
  apply stuck_round with (d := d) in E2; [|done..].
  destruct E2 as (Hg2 & Hok2 & H21 & H23 & Ha2).
  eapply (IH h2 a (d + 1)%Z value x); [done..|lia|exact E].
Qed.

(** A second way in which [insert] fails to return: with
    capacity-1 buckets and the keys 0, 1, 4 in the table, the insert of the
    new key 3 splits for ever. *)
Lemma Insert_split_never_returns :
  ∃ h, table_of 30 [0; 1; 4]%Z = Ret h ∧
    ExtendibleHashTable.Find hash_int h 3%Z = None ∧
    ∀ fuel value x, ExtendibleHashTable.Insert hash_int fuel h 3%Z value ≠ Ret x.
Proof.
  eexists. split; [vm_compute; reflexivity|]. split; [reflexivity|].
  intros fuel value x.
  apply (stuck_Insert_never_returns fuel _ 1%nat 1%Z).
  - vm_compute. discriminate.
  - split; [vm_compute; discriminate|]. split; [reflexivity|].
    cbn [ExtendibleHashTable.dir_ ExtendibleHashTable.store_ length].
    repeat constructor.
  - reflexivity.
  - reflexivity.
  - reflexivity.
  - lia.
Qed.

End SplitSpins.

(** ** The directory against the specification *)

Section TableClaims.
Context {K V : Type} `{EqDecision K}.
Variable hash : K → Z.
Implicit Types (h : ExtendibleHashTable.t K V) (key : K) (value : V).

(** C5.  [insert(k, v)] on a key that is already present never returns: the
    scan of [Bucket::Insert] overwrites the pair and stays on it, so the call
    is still running whatever fuel it is given.  (The specification says it returns
    with the value overwritten.) *)
Theorem Insert_of_present_key_never_returns h key v0 value fuel :
  ExtendibleHashTable.Find hash h key = Some v0 →
  ExtendibleHashTable.Insert hash fuel h key value = Spin.
Proof.
  intros E. destruct fuel as [|n]; [reflexivity|]. simpl.
  unfold ExtendibleHashTable.Find in E.
  by rewrite (Bucket_Insert_present_spins _ _ _ _ _ E).
Qed.

(** C7.  [GetNumBuckets] after an [Insert] that returns is what it was before:
    [num_buckets_] is set to 1 by the constructor and no split updates it.
    (The specification says it counts the buckets reachable from the directory.) *)
Theorem GetNumBuckets_never_changes h key value fuel h' :
  ExtendibleHashTable.Insert hash fuel h key value = Ret h' →
  ExtendibleHashTable.GetNumBuckets h' = ExtendibleHashTable.GetNumBuckets h.
Proof. apply Insert_num_buckets. Qed.

End TableClaims.

(** Capacity-2 buckets: after [insert(1, 10)], the call [insert(1, 20)] never
    returns. *)
Lemma Insert_of_present_key_never_returns_witness :
  ∃ h, ExtendibleHashTable.Insert hash_int 4 (ExtendibleHashTable.new 2) 1%Z 10%Z = Ret h ∧
       ExtendibleHashTable.Find hash_int h 1%Z = Some 10%Z ∧
       ∀ fuel, ExtendibleHashTable.Insert hash_int fuel h 1%Z 20%Z = Spin.
Proof.
  eexists. split; [reflexivity|]. split; [reflexivity|].
  intros fuel. apply (Insert_of_present_key_never_returns hash_int _ 1%Z 10%Z 20%Z fuel). reflexivity.
Defined.

(** Capacity-1 buckets: the insert of key 1 after key 0 splits the only bucket
    and doubles the directory; two buckets are reachable and [GetNumBuckets]
    is still 1. *)
Lemma GetNumBuckets_never_changes_witness :
  ∃ h1 h2, table_of 8 [0]%Z = Ret h1 ∧
    ExtendibleHashTable.Insert hash_int 8 h1 1%Z 10%Z = Ret h2 ∧
    ExtendibleHashTable.global_depth_ h2 = (ExtendibleHashTable.global_depth_ h1 + 1)%Z ∧
    length (ExtendibleHashTable.reachable h1) = 1%nat ∧
    length (ExtendibleHashTable.reachable h2) = 2%nat ∧
    ExtendibleHashTable.GetNumBuckets h1 = 1%Z ∧
    ExtendibleHashTable.GetNumBuckets h2 = ExtendibleHashTable.GetNumBuckets h1.
Proof.
  eexists. eexists. split; [reflexivity|].
  split; [vm_compute; reflexivity|].
  repeat (split; [reflexivity|]).
  apply (GetNumBuckets_never_changes hash_int _ 1%Z 10%Z 8%nat). vm_compute. reflexivity.
Defined.

(** C4.  The directory invariant holds for the table built by inserting the
    keys 0, 1, 4 into capacity-1 buckets, and the next insert, of key 5,
    returns a table in which it fails: the bucket of local depth 2 in slot 3
    is also in slot 5, and slot 1, which shares its low two bits with slot 5,
    points elsewhere.  [RedistributeBucket] rebinds one slot only, found from
    the global depth, when the bucket is more than one level below it. *)
Theorem Insert_breaks_directory_invariant :
  ∃ h3 h4, table_of 30 [0; 1; 4]%Z = Ret h3 ∧
    ExtendibleHashTable.dir_inv h3 ∧
    (∀ fuel, (30 ≤ fuel)%nat → ExtendibleHashTable.Insert hash_int fuel h3 5%Z 50%Z = Ret h4) ∧
    ¬ ExtendibleHashTable.dir_inv h4.
Proof.
  eexists. eexists. split; [vm_compute; reflexivity|].
  split.
  { split; [reflexivity|]. intros i j a Hi Hj.
    assert (Hi' : (i < 8)%nat) by (apply lookup_lt_Some in Hi; exact Hi).
    simpl in Hj.
    do 8 (destruct i as [|i]; [inversion Hi; subst a;
      do 8 (destruct j as [|j]; [vm_compute; split; congruence|]); simpl in Hj; lia|]).
    lia. }
  split.
  { intros fuel Hle. eapply Insert_mono; [|exact Hle]. vm_compute. reflexivity. }
  intros [_ Hinv].
  specialize (Hinv 3%nat 5%nat 1%nat eq_refl).
  destruct Hinv as [Hinv _]; [simpl; lia|].
  specialize (Hinv eq_refl). vm_compute in Hinv. discriminate.
Qed.

(** C6.  After the keys 0, 1, 5, 4 (capacity-1 buckets) [find(4)] gives 40.
    The insert of key 8 overflows the bucket of slot 0, splits it and doubles
    the directory (the global depth grows by one) and returns; after it
    [find(8)] gives 80 but [find(4)] finds nothing: the split put a fresh
    empty bucket in slot 4, the slot of key 4. *)
Theorem Insert_split_loses_key :
  ∃ h4 h5, table_of 30 [0; 1; 5; 4]%Z = Ret h4 ∧
    ExtendibleHashTable.Find hash_int h4 4%Z = Some 40%Z ∧
    (∀ fuel, (30 ≤ fuel)%nat → ExtendibleHashTable.Insert hash_int fuel h4 8%Z 80%Z = Ret h5) ∧
    ExtendibleHashTable.global_depth_ h5 = (ExtendibleHashTable.global_depth_ h4 + 1)%Z ∧
    ExtendibleHashTable.Find hash_int h5 8%Z = Some 80%Z ∧
    ExtendibleHashTable.Find hash_int h5 4%Z = None.
Proof.
  eexists. eexists. split; [vm_compute; reflexivity|].
  split; [reflexivity|].
  split.
  { intros fuel Hle. eapply Insert_mono; [|exact Hle]. vm_compute. reflexivity. }
  repeat split; reflexivity.
Qed.

(** ** The replacer *)

Section ReplacerFacts.
Variable evict0 : bool.
Variable k0 : Z.
Variable node_lt : HeapNode.t → HeapNode.t → bool.
Implicit Types (r : LRUKReplacer.t) (f frame_id : Z) (n : HeapNode.t) (m : gmap Z HeapNode.t).

Local Abbreviation Evict := (LRUKReplacer.Evict evict0 k0 node_lt).
Local Abbreviation DeleteMaxInMap := (LRUKReplacer.DeleteMaxInMap evict0 k0 node_lt).
Local Abbreviation RecordAccess := (LRUKReplacer.RecordAccess evict0 k0).
Local Abbreviation Remove := (LRUKReplacer.Remove evict0 k0).
Local Abbreviation run := (ReplacerRun.run evict0 k0 node_lt).
Local Abbreviation step := (ReplacerRun.step evict0 k0 node_lt).

(** While only frame 0 is evictable the loop of [DeleteMaxInMap] ends with
    [frame = 0], the value it started from. *)
Lemma max_step_stays_zero (l : list (Z * HeapNode.t)) :
  ∀ acc, acc.1 = 0%Z →
    (∀ kv, kv ∈ l → HeapNode.evict_ kv.2 = true → kv.1 = 0%Z) →
    (fold_left (LRUKReplacer.max_step node_lt) l acc).1 = 0%Z.
Proof.
  induction l as [|kv tl IH]; intros acc Hacc Hl; simpl; [done|].
  apply IH.
  - unfold LRUKReplacer.max_step.
    destruct (HeapNode.evict_ kv.2) eqn:Ev; [|done].
    destruct (_ || _); [|done]. simpl. apply Hl; [by left|done].
  - intros kv' Hin. apply Hl. by right.
Qed.

(** C2.  When frame 0 is tracked and evictable and no other frame is, [Evict]
    returns [false] and leaves the replacer as it was: [DeleteMaxInMap] uses
    frame id 0 for "no victim found", and [Evict] tests [*frame_id != 0].
    (The specification says [evict] succeeds whenever a tracked frame is evictable.) *)
Theorem Evict_refuses_frame_zero r n :
  LRUKReplacer.node_map_ r !! 0%Z = Some n →
  HeapNode.evict_ n = true →
  (∀ f n', LRUKReplacer.node_map_ r !! f = Some n' → HeapNode.evict_ n' = true → f = 0%Z) →
  Evict r = (r, false, 0%Z).
Proof.
  intros _ _ Hothers.
  assert (E : (fold_left (LRUKReplacer.max_step node_lt) (map_to_list (LRUKReplacer.node_map_ r))
                 (0%Z, LRUKReplacer.node_default evict0 k0)).1 = 0%Z).
  { apply max_step_stays_zero; [done|]. intros [f n'] Hin Hev.
    apply elem_of_map_to_list in Hin. by eapply Hothers. }
  unfold LRUKReplacer.Evict, LRUKReplacer.DeleteMaxInMap. rewrite E.
  destruct (decide (0%Z ≠ 0%Z)); [done|]. reflexivity.
Qed.

Lemma SetEvictable_returns_iff r f b :
  (∃ r', LRUKReplacer.SetEvictable r f b = Ret r') ↔ is_Some (LRUKReplacer.node_map_ r !! f).
Proof.
  unfold LRUKReplacer.SetEvictable. destruct (LRUKReplacer.node_map_ r !! f) as [n|].
  - split; [by eexists|]. intros _. by eexists.
  - split; [by intros [? ?]|]. by intros [? ?].
Qed.

Lemma step_keeps_untracked r c r' f :
  step r c = Ret r' → c ≠ ReplacerRun.RecordAccess f →
  LRUKReplacer.node_map_ r !! f = None → LRUKReplacer.node_map_ r' !! f = None.
Proof.
  intros E Hc Hf. destruct c as [g|g b| |g]; simpl in E.
  - assert (g ≠ f) by congruence.
    unfold LRUKReplacer.RecordAccess, LRUKReplacer.AddToMap in E.
    destruct (decide _); [discriminate|]. inversion E; subst r'; clear E. simpl.
    rewrite lookup_insert_ne by done.
    destruct (LRUKReplacer.node_map_ r !! g); [done|].
    destruct (decide _); [done|]. simpl. by rewrite lookup_insert_ne.
  - unfold LRUKReplacer.SetEvictable in E.
    destruct (LRUKReplacer.node_map_ r !! g) as [n|] eqn:Eg; [|discriminate].
    assert (g ≠ f) by congruence.
    inversion E; subst r'; clear E. simpl. rewrite lookup_insert_ne by done.
    by repeat destruct (_ && _).
  - inversion E; subst r'; clear E.
    unfold LRUKReplacer.Evict, LRUKReplacer.DeleteMaxInMap. simpl.
    destruct (decide _); [|done]. simpl. by apply lookup_delete_None; right.
  - unfold LRUKReplacer.Remove in E. destruct (HeapNode.evict_ _); [|discriminate].
    inversion E; subst r'; clear E. simpl. by apply lookup_delete_None; right.
Qed.

Lemma run_keeps_untracked cs f :
  ∀ r r', run r cs = Ret r' → ReplacerRun.RecordAccess f ∉ cs →
    LRUKReplacer.node_map_ r !! f = None → LRUKReplacer.node_map_ r' !! f = None.
Proof.
  induction cs as [|c tl IH]; intros r r' E Hnin Hf; simpl in E.
  - by inversion E; subst.
  - apply bind_Ret_inv in E as (r1 & E1 & E).
    apply not_elem_of_cons in Hnin as [Hc Htl].
    eapply IH; [exact E|exact Htl|].
    eapply step_keeps_untracked; [exact E1| |exact Hf]. congruence.
Qed.

(** C10.  After any run of calls from a fresh replacer in which [frame_id] was
    never given to [RecordAccess], the frame is untracked and
    [SetEvictable(frame_id, b)] throws, whatever the size of the replacer and
    the value of [frame_id]; and on any frame [SetEvictable] returns exactly
    when the frame is tracked at that moment. *)
Theorem SetEvictable_untracked_throws num_frames k cs r frame_id b :
  run (LRUKReplacer.new num_frames k) cs = Ret r →
  ReplacerRun.RecordAccess frame_id ∉ cs →
  LRUKReplacer.node_map_ r !! frame_id = None ∧
  LRUKReplacer.SetEvictable r frame_id b = Throw "invalid frame_id" ∧
  ∀ f b', (∃ r', LRUKReplacer.SetEvictable r f b' = Ret r') ↔
          is_Some (LRUKReplacer.node_map_ r !! f).
Proof.
  intros E Hnin.
  assert (Hf : LRUKReplacer.node_map_ r !! frame_id = None).
  { eapply run_keeps_untracked; [exact E|exact Hnin|]. apply lookup_empty. }
  split; [done|]. split; [|intros f b'; apply SetEvictable_returns_iff].
  unfold LRUKReplacer.SetEvictable. by rewrite Hf.
Qed.

End ReplacerFacts.

(** Three frames, K = 2: after [RecordAccess(0)] and [SetEvictable(0, true)]
    the size is 1 and [Evict] fails. *)
Lemma Evict_refuses_frame_zero_witness :
  ∃ r, ReplacerRun.run true 0 HeapNode.lt (LRUKReplacer.new 3 2)
         [ReplacerRun.RecordAccess 0%Z; ReplacerRun.SetEvictable 0%Z true] = Ret r ∧
       LRUKReplacer.Size r = 1%Z ∧
       LRUKReplacer.Evict true 0 HeapNode.lt r = (r, false, 0%Z).
Proof.
  eexists. split; [vm_compute; reflexivity|]. split; [reflexivity|].
  apply (Evict_refuses_frame_zero true 0%Z HeapNode.lt _ (HeapNode.mk 2 [0%Z] true)).
  - reflexivity.
  - reflexivity.
  - intros f n' Hf _. simpl in Hf.
    change (({[ 0%Z := HeapNode.mk 2 [0%Z] true ]} : gmap Z HeapNode.t) !! f = Some n') in Hf.
    by apply lookup_singleton_Some in Hf as [? _].
Defined.

(** Three frames: frames 0 and 2 were accessed, frame 1 never;
    [SetEvictable(1, true)] throws although 1 is in range. *)
Lemma SetEvictable_untracked_throws_witness :
  ∃ r, ReplacerRun.run true 0 HeapNode.lt (LRUKReplacer.new 3 2)
         [ReplacerRun.RecordAccess 0%Z; ReplacerRun.RecordAccess 2%Z;
          ReplacerRun.SetEvictable 2%Z false; ReplacerRun.Evict] = Ret r ∧
       (0 ≤ 1 < LRUKReplacer.replacer_size_ r)%Z ∧
       LRUKReplacer.node_map_ r !! 1%Z = None ∧
       LRUKReplacer.SetEvictable r 1%Z true = Throw "invalid frame_id".
Proof.
  eexists. split; [vm_compute; reflexivity|]. split; [simpl; lia|].
  refine (let H := SetEvictable_untracked_throws true 0%Z HeapNode.lt 3%Z 2%Z
           [ReplacerRun.RecordAccess 0%Z; ReplacerRun.RecordAccess 2%Z;
            ReplacerRun.SetEvictable 2%Z false; ReplacerRun.Evict] _ 1%Z true _ _ in
          conj (proj1 H) (proj1 (proj2 H))).
  - vm_compute. reflexivity.
  - intros Hin. repeat (apply elem_of_cons in Hin as [Hin|Hin]; [discriminate|]).
    by apply elem_of_nil in Hin.
Defined.

(** End-to-end scenario 3 of the specification, on frames 1, 2, 3 with K = 2:
    after the accesses 1, 2, 3, 1, 2, 1 the victim is frame 3. *)
Example Evict_scenario_three :
  ∃ r, ReplacerRun.run true 0 HeapNode.lt (LRUKReplacer.new 7 2)
         (map ReplacerRun.RecordAccess [1; 2; 3; 1; 2; 1]%Z) = Ret r ∧
       (LRUKReplacer.Evict true 0 HeapNode.lt r).1.2 = true ∧
       (LRUKReplacer.Evict true 0 HeapNode.lt r).2 = 3%Z.
Proof. eexists. split; [vm_compute; reflexivity|]. split; vm_compute; reflexivity. Qed.

Section EvictSuccess.
Variable evict0 : bool.
Variable k0 : Z.
Variable node_lt : HeapNode.t → HeapNode.t → bool.
Implicit Types (r : LRUKReplacer.t).

(** The loop of [DeleteMaxInMap] ends on the frame it started from or on an
    evictable entry of the map. *)
Lemma max_step_picks (l : list (Z * HeapNode.t)) :
  ∀ acc,
    fold_left (LRUKReplacer.max_step node_lt) l acc = acc ∨
    ∃ kv, kv ∈ l ∧ HeapNode.evict_ kv.2 = true ∧
          fold_left (LRUKReplacer.max_step node_lt) l acc = kv.
Proof.
  induction l as [|kv tl IH]; intros acc; simpl; [by left|].
  destruct (IH (LRUKReplacer.max_step node_lt acc kv)) as [E|(kv' & Hin & Hev & E)].
  - rewrite E. unfold LRUKReplacer.max_step.
    destruct (HeapNode.evict_ kv.2) eqn:Ev; [|by left].
    destruct (_ || _); [|by left].
    right. exists kv. split; [by left|]. split; [done|]. by destruct kv.
  - right. exists kv'. split; [by right|]. done.
Qed.

(** What a successful [Evict] does: the frame it returns is not frame 0, was
    tracked and evictable, its entry is erased and [curr_size_] goes down by
    one. *)
Lemma Evict_success r :
  (LRUKReplacer.Evict evict0 k0 node_lt r).1.2 = true →
  let frame := (LRUKReplacer.Evict evict0 k0 node_lt r).2 in
  let r' := (LRUKReplacer.Evict evict0 k0 node_lt r).1.1 in
  frame ≠ 0%Z ∧
  (∃ n, LRUKReplacer.node_map_ r !! frame = Some n ∧ HeapNode.evict_ n = true) ∧
  LRUKReplacer.node_map_ r' = delete frame (LRUKReplacer.node_map_ r) ∧
  LRUKReplacer.curr_size_ r' = to_size_t (LRUKReplacer.curr_size_ r - 1).
Proof.
  unfold LRUKReplacer.Evict, LRUKReplacer.DeleteMaxInMap. cbv zeta.
  destruct (max_step_picks (map_to_list (LRUKReplacer.node_map_ r))
              (0%Z, LRUKReplacer.node_default evict0 k0)) as [E|(kv & Hin & Hev & E)];
    rewrite E; cbn [fst snd].
  - destruct (decide (0%Z ≠ 0%Z)); [done|]. cbn [fst snd].
    rewrite bool_decide_eq_false_2 by done. discriminate.
  - destruct (decide (kv.1 ≠ 0%Z)) as [Hne|He]; cbn [fst snd].
    + intros _. split; [done|]. split; [|done].
      exists kv.2. split; [|done]. apply elem_of_map_to_list. by destruct kv.
    + rewrite bool_decide_eq_false_2 by done. discriminate.
Qed.

End EvictSuccess.

(** ** The manager *)

Section ManagerFacts.
Variable hash : Z → Z.
Variable bucket_size : nat.
Variable INVALID_PAGE_ID : Z.
Variable PAGE_SIZE : nat.
Variable evict0 : bool.
Variable k0 : Z.
Variable node_lt : HeapNode.t → HeapNode.t → bool.
Implicit Types (s : BufferPoolManagerInstance.t) (p : Page.t) (page_id frame_id : Z).

Local Abbreviation page := (BufferPoolManagerInstance.page INVALID_PAGE_ID PAGE_SIZE).
Local Abbreviation NewPgImp :=
  (BufferPoolManagerInstance.NewPgImp hash INVALID_PAGE_ID PAGE_SIZE evict0 k0 node_lt).
Local Abbreviation FetchPgImp :=
  (BufferPoolManagerInstance.FetchPgImp hash INVALID_PAGE_ID PAGE_SIZE evict0 k0 node_lt).
Local Abbreviation FlushPgImp :=
  (BufferPoolManagerInstance.FlushPgImp hash INVALID_PAGE_ID PAGE_SIZE).
Local Abbreviation DeletePgImp :=
  (BufferPoolManagerInstance.DeletePgImp hash INVALID_PAGE_ID PAGE_SIZE).
Local Abbreviation resident s page_id :=
  (ExtendibleHashTable.Find hash (BufferPoolManagerInstance.page_table_ s) page_id).

Lemma page_set_page s frame_id p :
  (0 ≤ frame_id < Z.of_nat (length (BufferPoolManagerInstance.pages_ s)))%Z →
  page (BufferPoolManagerInstance.set_page s frame_id p) frame_id = p.
Proof.
  intros Hf. unfold BufferPoolManagerInstance.page, BufferPoolManagerInstance.set_page. simpl.
  rewrite list_lookup_insert_eq by lia. done.
Qed.

Lemma length_set_page s frame_id p :
  length (BufferPoolManagerInstance.pages_ (BufferPoolManagerInstance.set_page s frame_id p)) =
  length (BufferPoolManagerInstance.pages_ s).
Proof. simpl. apply length_insert. Qed.

(** Rewriting a frame without touching its buffer leaves all buffers alone. *)
Lemma set_page_same_data s frame_id p :
  Page.data_ p = Page.data_ (page s frame_id) →
  Page.data_ <$> BufferPoolManagerInstance.pages_ (BufferPoolManagerInstance.set_page s frame_id p) =
  Page.data_ <$> BufferPoolManagerInstance.pages_ s.
Proof.
  intros E. simpl. rewrite list_fmap_insert.
  unfold BufferPoolManagerInstance.page in E.
  destruct (BufferPoolManagerInstance.pages_ s !! Z.to_nat frame_id) as [q|] eqn:Eq; simpl in E.
  - apply list_insert_id. rewrite list_lookup_fmap, Eq. simpl. by rewrite E.
  - apply list_insert_ge. rewrite length_fmap. by apply lookup_ge_None.
Qed.

(** C1.  On a hit [FetchPgImp] returns the frame and the manager is exactly as
    before: no disk call, but also no change of the pin count, no
    [SetEvictable(frame, false)] and no [RecordAccess]; only the miss path
    performs these.  (The specification says a hit pins the frame, marks it
    non-evictable and records the access.) *)
Theorem FetchPgImp_hit_changes_nothing fuel s page_id frame_id :
  resident s page_id = Some frame_id →
  FetchPgImp fuel s page_id = Ret (Some frame_id, s).
Proof. intros E. unfold BufferPoolManagerInstance.FetchPgImp. by rewrite E. Qed.

Lemma writes_WritePage d page_id data :
  DiskManager.writes (DiskManager.WritePage d page_id data) = S (DiskManager.writes d).
Proof.
  unfold DiskManager.writes. simpl. rewrite filter_app, length_app. simpl. lia.
Qed.

Lemma reads_WritePage d page_id data :
  DiskManager.reads (DiskManager.WritePage d page_id data) = DiskManager.reads d.
Proof.
  unfold DiskManager.reads. simpl. rewrite filter_app, length_app. simpl. lia.
Qed.

(** When the directory does not resolve the page, [FlushPgImp] returns
    [false] and changes nothing, whatever the frames hold. *)
Lemma FlushPgImp_unresolved s page_id :
  resident s page_id = None → FlushPgImp s page_id = (false, s).
Proof. intros E. unfold BufferPoolManagerInstance.FlushPgImp. by rewrite E. Qed.

(** When the directory resolves the page to a frame, [FlushPgImp] returns
    [true], makes one [WritePage] call (of that frame's buffer, under the
    page id asked for) and no read, whatever the dirty flag was, and leaves
    the frame with a clear dirty flag; nothing else changes. *)
Lemma FlushPgImp_writes_and_cleans s page_id frame_id :
  resident s page_id = Some frame_id →
  (0 ≤ frame_id < Z.of_nat (length (BufferPoolManagerInstance.pages_ s)))%Z →
  let s' := (FlushPgImp s page_id).2 in
  let d := BufferPoolManagerInstance.disk_manager_ s in
  let d' := BufferPoolManagerInstance.disk_manager_ s' in
  (FlushPgImp s page_id).1 = true ∧
  DiskManager.log_ d' = DiskManager.log_ d ++ [DiskManager.Write page_id (Page.data_ (page s frame_id))] ∧
  DiskManager.writes d' = S (DiskManager.writes d) ∧
  DiskManager.reads d' = DiskManager.reads d ∧
  DiskManager.contents_ d' !! page_id = Some (Page.data_ (page s frame_id)) ∧
  page s' frame_id =
    Page.mk (Page.page_id_ (page s frame_id)) (Page.pin_count_ (page s frame_id)) false
            (Page.data_ (page s frame_id)) ∧
  (∀ i, i ≠ Z.to_nat frame_id →
     BufferPoolManagerInstance.pages_ s' !! i = BufferPoolManagerInstance.pages_ s !! i) ∧
  BufferPoolManagerInstance.page_table_ s' = BufferPoolManagerInstance.page_table_ s ∧
  BufferPoolManagerInstance.replacer_ s' = BufferPoolManagerInstance.replacer_ s ∧
  BufferPoolManagerInstance.free_list_ s' = BufferPoolManagerInstance.free_list_ s.
Proof.
  intros E Hf. unfold BufferPoolManagerInstance.FlushPgImp. rewrite E.
  cbv zeta. cbn [fst snd].
  split; [done|]. split; [done|].
  split; [apply writes_WritePage|]. split; [apply reads_WritePage|].
  split; [simpl; apply lookup_insert_eq|].
  split; [by rewrite page_set_page|].
  split; [|done].
  intros i Hi. simpl. by rewrite list_lookup_insert_ne.
Qed.

(** C3.  For a resident page whose frame is unpinned, [DeletePgImp] removes
    the binding, appends the frame to the free list, sets its page id to
    [INVALID_PAGE_ID] and zeroes its buffer; but it returns [false], and it
    does not touch the replacer, which goes on tracking the frame.  (The
    specification says the entry is removed from the replacer and the call returns
    [true].) *)
Theorem DeletePgImp_returns_false_keeps_replacer s page_id frame_id :
  resident s page_id = Some frame_id →
  Page.pin_count_ (page s frame_id) = 0%Z →
  (0 ≤ frame_id < Z.of_nat (length (BufferPoolManagerInstance.pages_ s)))%Z →
  let s' := (DeletePgImp s page_id).2 in
  (DeletePgImp s page_id).1 = false ∧
  BufferPoolManagerInstance.replacer_ s' = BufferPoolManagerInstance.replacer_ s ∧
  resident s' page_id = None ∧
  BufferPoolManagerInstance.free_list_ s' = BufferPoolManagerInstance.free_list_ s ++ [frame_id] ∧
  Page.page_id_ (page s' frame_id) = INVALID_PAGE_ID ∧
  Page.data_ (page s' frame_id) = Page.zeroed PAGE_SIZE.
Proof.
  intros E Hpin Hf. unfold BufferPoolManagerInstance.DeletePgImp.
  rewrite E. unfold Page.GetPinCount. rewrite Hpin.
  rewrite bool_decide_eq_false_2 by lia. cbv zeta.
  set (s1 := if Page.IsDirty (page s frame_id) then _ else s).
  assert (H1 : BufferPoolManagerInstance.replacer_ s1 = BufferPoolManagerInstance.replacer_ s ∧
               BufferPoolManagerInstance.page_table_ s1 = BufferPoolManagerInstance.page_table_ s ∧
               BufferPoolManagerInstance.free_list_ s1 = BufferPoolManagerInstance.free_list_ s ∧
               length (BufferPoolManagerInstance.pages_ s1) = length (BufferPoolManagerInstance.pages_ s)).
  { subst s1. destruct (Page.IsDirty _); [|done].
    unfold BufferPoolManagerInstance.FlushPgImp. rewrite E. simpl.
    by rewrite length_insert. }
  destruct H1 as (Hr & Hpt & Hfl & Hlen). cbn [fst snd].
  split; [done|]. split; [exact Hr|].
  split; [simpl; rewrite Hpt; apply Find_Remove|].
  split; [simpl; by rewrite Hfl|].
  rewrite !page_set_page; [done| |].
  - simpl. lia.
  - simpl. rewrite length_insert. lia.
Qed.

Lemma pick_frame_pages s frame_id s1 :
  BufferPoolManagerInstance.pick_frame evict0 k0 node_lt s = Some (frame_id, s1) →
  BufferPoolManagerInstance.pages_ s1 = BufferPoolManagerInstance.pages_ s.
Proof.
  unfold BufferPoolManagerInstance.pick_frame. intros E.
  destruct (BufferPoolManagerInstance.free_list_ s).
  - destruct (_.1.2); [|discriminate]. by inversion E.
  - by inversion E.
Qed.

Lemma drop_tenant_data s frame_id :
  Page.data_ <$> BufferPoolManagerInstance.pages_
    (BufferPoolManagerInstance.drop_tenant hash INVALID_PAGE_ID PAGE_SIZE s frame_id) =
  Page.data_ <$> BufferPoolManagerInstance.pages_ s.
Proof.
  unfold BufferPoolManagerInstance.drop_tenant. cbv zeta.
  destruct (Page.IsDirty _); [|done].
  change (BufferPoolManagerInstance.pages_ (BufferPoolManagerInstance.set_page_table ?x ?y))
    with (BufferPoolManagerInstance.pages_ x).
  by rewrite set_page_same_data.
Qed.

Lemma bind_frame_pages fuel s page_id frame_id s' :
  BufferPoolManagerInstance.bind_frame hash evict0 k0 fuel s page_id frame_id = Ret s' →
  BufferPoolManagerInstance.pages_ s' = BufferPoolManagerInstance.pages_ s.
Proof.
  unfold BufferPoolManagerInstance.bind_frame. intros E.
  apply bind_Ret_inv in E as (pt & _ & E).
  apply bind_Ret_inv in E as (r1 & _ & E).
  apply bind_Ret_inv in E as (r2 & _ & E).
  by inversion E.
Qed.

(** C8.  A [NewPgImp] that returns leaves the buffer of every frame as it was:
    it never calls [ResetMemory], so a frame taken over from an evicted page
    still holds that page's bytes.  (The specification says the buffer of the new page
    is zeroed.) *)
Theorem NewPgImp_keeps_buffers fuel s out s' :
  NewPgImp fuel s = Ret (out, s') →
  Page.data_ <$> BufferPoolManagerInstance.pages_ s' = Page.data_ <$> BufferPoolManagerInstance.pages_ s.
Proof.
  unfold BufferPoolManagerInstance.NewPgImp. intros E.
  destruct (negb _); [by inversion E|].
  destruct (BufferPoolManagerInstance.pick_frame _ _ _ s) as [[frame_id s1]|] eqn:Ep;
    [|by inversion E].
  apply pick_frame_pages in Ep. cbv zeta in E.
  apply bind_Ret_inv in E as (s6 & E6 & E). inversion E; subst; clear E.
  apply bind_frame_pages in E6. rewrite E6.
  rewrite !set_page_same_data by done.
  change (BufferPoolManagerInstance.pages_ (BufferPoolManagerInstance.AllocatePage ?x).2)
    with (BufferPoolManagerInstance.pages_ x).
  by rewrite drop_tenant_data, Ep.
Qed.

End ManagerFacts.

Section NewPageFrame.
Variable hash : Z → Z.
Variable INVALID_PAGE_ID : Z.
Variable PAGE_SIZE : nat.
Variable evict0 : bool.
Variable k0 : Z.
Variable node_lt : HeapNode.t → HeapNode.t → bool.
Implicit Types (s : BufferPoolManagerInstance.t) (p : Page.t) (page_id frame_id : Z).

Local Abbreviation page := (BufferPoolManagerInstance.page INVALID_PAGE_ID PAGE_SIZE).

Lemma pick_frame_next_page_id s frame_id s1 :
  BufferPoolManagerInstance.pick_frame evict0 k0 node_lt s = Some (frame_id, s1) →
  BufferPoolManagerInstance.next_page_id_ s1 = BufferPoolManagerInstance.next_page_id_ s.
Proof.
  unfold BufferPoolManagerInstance.pick_frame. intros E.
  destruct (BufferPoolManagerInstance.free_list_ s).
  - destruct (_.1.2); [|discriminate]. by inversion E.
  - by inversion E.
Qed.

Lemma drop_tenant_page s frame_id :
  (0 ≤ frame_id < Z.of_nat (length (BufferPoolManagerInstance.pages_ s)))%Z →
  page (BufferPoolManagerInstance.drop_tenant hash INVALID_PAGE_ID PAGE_SIZE s frame_id) frame_id
  = Page.set_is_dirty (page s frame_id) false.
Proof.
  intros Hf. unfold BufferPoolManagerInstance.drop_tenant. cbv zeta.
  destruct (Page.IsDirty (page s frame_id)) eqn:Ed.
  - change (page (BufferPoolManagerInstance.set_page_table ?x ?y) frame_id) with (page x frame_id).
    by rewrite page_set_page.
  - change (page (BufferPoolManagerInstance.set_page_table ?x ?y) frame_id) with (page x frame_id).
    unfold Page.IsDirty in Ed. destruct (page s frame_id). simpl in Ed. by subst.
Qed.

Lemma drop_tenant_next_page_id s frame_id :
  BufferPoolManagerInstance.next_page_id_
    (BufferPoolManagerInstance.drop_tenant hash INVALID_PAGE_ID PAGE_SIZE s frame_id)
  = BufferPoolManagerInstance.next_page_id_ s.
Proof.
  unfold BufferPoolManagerInstance.drop_tenant. cbv zeta. by destruct (Page.IsDirty _).
Qed.

Lemma drop_tenant_length s frame_id :
  length (BufferPoolManagerInstance.pages_
            (BufferPoolManagerInstance.drop_tenant hash INVALID_PAGE_ID PAGE_SIZE s frame_id))
  = length (BufferPoolManagerInstance.pages_ s).
Proof.
  unfold BufferPoolManagerInstance.drop_tenant. cbv zeta.
  destruct (Page.IsDirty _); [|done]. simpl. by rewrite length_insert.
Qed.

Lemma bind_frame_next_page_id fuel s page_id frame_id s' :
  BufferPoolManagerInstance.bind_frame hash evict0 k0 fuel s page_id frame_id = Ret s' →
  BufferPoolManagerInstance.next_page_id_ s' = BufferPoolManagerInstance.next_page_id_ s.
Proof.
  unfold BufferPoolManagerInstance.bind_frame. intros E.
  apply bind_Ret_inv in E as (pt & _ & E).
  apply bind_Ret_inv in E as (r1 & _ & E).
  apply bind_Ret_inv in E as (r2 & _ & E).
  by inversion E.
Qed.

(** What [NewPgImp] does do to the frame: a successful call hands out the
    value of the counter and advances it by one, and the chosen frame then
    carries the new page id, one pin more than before and a clear dirty flag
    (and the buffer it had). *)
Lemma NewPgImp_frame fuel s page_id frame_id s' :
  BufferPoolManagerInstance.NewPgImp hash INVALID_PAGE_ID PAGE_SIZE evict0 k0 node_lt fuel s
    = Ret (Some (page_id, frame_id), s') →
  (0 ≤ frame_id < Z.of_nat (length (BufferPoolManagerInstance.pages_ s)))%Z →
  page_id = BufferPoolManagerInstance.next_page_id_ s ∧
  BufferPoolManagerInstance.next_page_id_ s' = to_int32 (page_id + 1) ∧
  page s' frame_id =
    Page.mk page_id (Page.pin_count_ (page s frame_id) + 1) false (Page.data_ (page s frame_id)).
Proof.
  unfold BufferPoolManagerInstance.NewPgImp. intros E Hf.
  destruct (negb _); [by inversion E|].
  destruct (BufferPoolManagerInstance.pick_frame _ _ _ s) as [[f s1]|] eqn:Ep; [|by inversion E].
  pose proof (pick_frame_pages _ _ _ _ _ _ Ep) as Hp.
  pose proof (pick_frame_next_page_id _ _ _ Ep) as Hn.
  cbv zeta in E.
  remember (BufferPoolManagerInstance.drop_tenant hash INVALID_PAGE_ID PAGE_SIZE s1 f) as s2 eqn:Hs2.
  assert (Hn2 : BufferPoolManagerInstance.next_page_id_ s2 = BufferPoolManagerInstance.next_page_id_ s)
    by (subst s2; by rewrite drop_tenant_next_page_id).
  assert (Hl2 : length (BufferPoolManagerInstance.pages_ s2) = length (BufferPoolManagerInstance.pages_ s))
    by (subst s2; by rewrite drop_tenant_length, Hp).
  assert (H2 : (0 ≤ f < Z.of_nat (length (BufferPoolManagerInstance.pages_ s)))%Z →
               page s2 f = Page.set_is_dirty (page s f) false).
  { intros Hf'. subst s2. rewrite drop_tenant_page by (by rewrite Hp).
    unfold BufferPoolManagerInstance.page. by rewrite Hp. }
  clear Hs2.
  apply bind_Ret_inv in E as (s6 & E6 & E).
  pose proof (bind_frame_pages _ _ _ _ _ _ _ _ E6) as Hp6.
  pose proof (bind_frame_next_page_id _ _ _ _ _ E6) as Hn6.
  unfold BufferPoolManagerInstance.AllocatePage in *. cbn [fst snd] in *.
  injection E as Epid Ef Es. subst f s6. specialize (H2 Hf).
  split; [by rewrite <- Epid|]. split.
  - rewrite Hn6. cbn. by rewrite <- Epid.
  - unfold BufferPoolManagerInstance.page at 1. rewrite Hp6.
    change (default ?d (BufferPoolManagerInstance.pages_ ?x !! Z.to_nat frame_id))
      with (BufferPoolManagerInstance.page INVALID_PAGE_ID PAGE_SIZE x frame_id).
    rewrite page_set_page by (rewrite length_set_page; simpl; lia).
    rewrite page_set_page by (simpl; lia).
    change (page (BufferPoolManagerInstance.set_next_page_id s2 ?n) frame_id) with (page s2 frame_id).
    rewrite H2, Epid. done.
Qed.

End NewPageFrame.

(** Page 0 sits unpinned and evictable in frame 2; the fetch hits and leaves
    the pin count at 0 and the frame evictable. *)
Lemma FetchPgImp_hit_changes_nothing_witness :
  ∃ s, Sample.one_page_unpinned false = Ret s ∧
    ExtendibleHashTable.Find hash_int (BufferPoolManagerInstance.page_table_ s) 0%Z = Some 2%Z ∧
    Page.pin_count_ (Sample.page s 2%Z) = 0%Z ∧
    HeapNode.evict_ <$> LRUKReplacer.node_map_ (BufferPoolManagerInstance.replacer_ s) !! 2%Z = Some true ∧
    Sample.FetchPgImp 8 s 0%Z = Ret (Some 2%Z, s).
Proof.
  eexists. split; [vm_compute; reflexivity|].
  split; [vm_compute; reflexivity|]. split; [vm_compute; reflexivity|].
  split; [vm_compute; reflexivity|].
  unfold Sample.FetchPgImp. apply FetchPgImp_hit_changes_nothing. vm_compute. reflexivity.
Defined.

(** Page 0 sits dirty in frame 2; the flush writes once and cleans it. *)
Lemma FlushPgImp_writes_and_cleans_example :
  ∃ s, Sample.one_page_unpinned true = Ret s ∧
    ExtendibleHashTable.Find hash_int (BufferPoolManagerInstance.page_table_ s) 0%Z = Some 2%Z ∧
    Page.is_dirty_ (Sample.page s 2%Z) = true ∧
    (Sample.FlushPgImp s 0%Z).1 = true ∧
    DiskManager.writes (BufferPoolManagerInstance.disk_manager_ (Sample.FlushPgImp s 0%Z).2) = 1%nat ∧
    Page.is_dirty_ (Sample.page (Sample.FlushPgImp s 0%Z).2 2%Z) = false.
Proof.
  eexists. split; [vm_compute; reflexivity|].
  split; [vm_compute; reflexivity|]. split; [vm_compute; reflexivity|].
  match goal with |- context [Sample.FlushPgImp ?s _] =>
    destruct (FlushPgImp_writes_and_cleans hash_int (-1) 8 s 0%Z 2%Z)
      as (Hret & _ & Hw & _ & _ & Hpage & _)
  end.
  - vm_compute. reflexivity.
  - vm_compute. split; discriminate || reflexivity.
  - split; [exact Hret|]. split; [exact Hw|].
    unfold Sample.page, Sample.FlushPgImp. by rewrite Hpage.
Qed.

(** C9.  [FlushPgImp] can return [false] for a page that is in the pool.
    After the ten fetches of [Scenario.lost_page] frame 2 holds page 6 with
    pin count 1, but the page directory no longer resolves 6; [FlushPgImp]
    of page 6 then returns [false], makes no disk call and changes nothing.
    (The specification says the call returns false only for a page that is
    not resident, and writes a resident page.) *)
Theorem FlushPgImp_refuses_held_page :
  ∃ s, Scenario.lost_page = Ret s ∧
    length (BufferPoolManagerInstance.pages_ s) = 10%nat ∧
    Page.page_id_ (Sample.page s 2%Z) = 6%Z ∧
    Page.pin_count_ (Sample.page s 2%Z) = 1%Z ∧
    ExtendibleHashTable.Find hash_int (BufferPoolManagerInstance.page_table_ s) 6%Z = None ∧
    Sample.FlushPgImp s 6%Z = (false, s).
Proof.
  eexists. split; [vm_compute; reflexivity|].
  split; [vm_compute; reflexivity|].
  split; [vm_compute; reflexivity|].
  split; [vm_compute; reflexivity|].
  match goal with |- ?P ∧ _ => assert P as E by (vm_compute; reflexivity) end.
  split; [exact E|]. exact (FlushPgImp_unresolved hash_int (-1) 8 _ 6%Z E).
Qed.

(** Page 0 sits unpinned (and dirty) in frame 2; the delete returns [false] and
    the replacer still tracks frame 2. *)
Lemma DeletePgImp_returns_false_keeps_replacer_witness :
  ∃ s, Sample.one_page_unpinned true = Ret s ∧
    ExtendibleHashTable.Find hash_int (BufferPoolManagerInstance.page_table_ s) 0%Z = Some 2%Z ∧
    Page.pin_count_ (Sample.page s 2%Z) = 0%Z ∧
    (Sample.DeletePgImp s 0%Z).1 = false ∧
    BufferPoolManagerInstance.replacer_ (Sample.DeletePgImp s 0%Z).2 = BufferPoolManagerInstance.replacer_ s ∧
    is_Some (LRUKReplacer.node_map_
               (BufferPoolManagerInstance.replacer_ (Sample.DeletePgImp s 0%Z).2) !! 2%Z).
Proof.
  eexists. split; [vm_compute; reflexivity|].
  split; [vm_compute; reflexivity|]. split; [vm_compute; reflexivity|].
  match goal with |- context [Sample.DeletePgImp ?s _] =>
    destruct (DeletePgImp_returns_false_keeps_replacer hash_int (-1) 8 s 0%Z 2%Z)
      as (Hret & Hrep & _)
  end.
  - vm_compute. reflexivity.
  - vm_compute. reflexivity.
  - vm_compute. split; discriminate || reflexivity.
  - split; [exact Hret|]. split; [exact Hrep|]. vm_compute. by eexists.
Defined.

(** Both frames are bound and the free list is empty; the new page evicts
    page 7 from frame 1 and gets page id 1 with page 7's bytes in its buffer. *)
Lemma NewPgImp_keeps_buffers_witness :
  ∃ s s', Sample.fetched_then_full = Ret s ∧
    BufferPoolManagerInstance.free_list_ s = [] ∧
    Sample.NewPgImp 8 s = Ret (Some (1%Z, 1%Z), s') ∧
    Page.page_id_ (Sample.page s' 1%Z) = 1%Z ∧
    Page.data_ (Sample.page s' 1%Z) = replicate 8 Byte.x01 ∧
    Page.data_ (Sample.page s' 1%Z) ≠ Page.zeroed 8 ∧
    Page.data_ <$> BufferPoolManagerInstance.pages_ s' = Page.data_ <$> BufferPoolManagerInstance.pages_ s.
Proof.
  eexists. eexists. split; [vm_compute; reflexivity|].
  split; [vm_compute; reflexivity|].
  split; [vm_compute; reflexivity|].
  split; [vm_compute; reflexivity|].
  split; [vm_compute; reflexivity|].
  split; [vm_compute; discriminate|].
  apply (NewPgImp_keeps_buffers hash_int (-1) 8 Sample.evict0 Sample.k0 HeapNode.lt 8 _ (Some (1%Z, 1%Z))).
  vm_compute. reflexivity.
Defined.

(** * Further properties of the code *)

(** ** Hash table: lookups, removals, inserts without a split *)

Section TableLookups.
Context {K V : Type} `{EqDecision K}.
Variable hash : K → Z.
Implicit Types (h : ExtendibleHashTable.t K V) (b : Bucket.t K V) (key : K) (value : V).

Lemma find_fold_from_Some key (l : list (K * V)) :
  ∀ v : V, is_Some (fold_left (fun acc p => if decide (p.1 = key) then Some p.2 else acc) l (Some v)).
Proof.
  induction l as [|p tl IH]; intros v; simpl; [by eexists|].
  destruct (decide (p.1 = key)); apply IH.
Qed.

Lemma find_fold_in key (l : list (K * V)) :
  ∀ acc : option V, key ∈ l.*1 →
    is_Some (fold_left (fun acc p => if decide (p.1 = key) then Some p.2 else acc) l acc).
Proof.
  induction l as [|p tl IH]; intros acc Hin; [by apply elem_of_nil in Hin|].
  rewrite fmap_cons in Hin. simpl.
  destruct (decide (p.1 = key)) as [E|N]; [apply find_fold_from_Some|].
  apply IH. apply elem_of_cons in Hin as [Hk|Hk]; [by subst|done].
Qed.

Lemma Bucket_Find_is_Some b key : is_Some (Bucket.Find b key) ↔ key ∈ (Bucket.list_ b).*1.
Proof.
  split.
  - intros [v Hv]. by eapply Bucket_Find_Some.
  - apply find_fold_in.
Qed.

Lemma remove_scan_flag key (l : list (K * V)) :
  (Bucket.remove_scan l key).1 = true ↔ key ∈ l.*1.
Proof.
  induction l as [|p tl IH]; simpl.
  - split; [discriminate|]. intros Hin. by apply elem_of_nil in Hin.
  - destruct (decide (p.1 = key)) as [E|N]; simpl.
    + split; [|done]. intros _. apply elem_of_cons. by left.
    + rewrite IH. split; [intros; apply elem_of_cons; by right|].
      intros Hin. apply elem_of_cons in Hin as [Hk|Hk]; [by subst|done].
Qed.

Lemma remove_scan_other key key' (l : list (K * V)) :
  key' ≠ key →
  ∀ acc : option V,
    fold_left (fun acc p => if decide (p.1 = key') then Some p.2 else acc)
      (Bucket.remove_scan l key).2 acc
    = fold_left (fun acc p => if decide (p.1 = key') then Some p.2 else acc) l acc.
Proof.
  intros Hne. induction l as [|p tl IH]; intros acc; simpl; [done|].
  destruct (decide (p.1 = key)) as [E|N]; simpl.
  - rewrite IH. destruct (decide (p.1 = key')); [congruence|done].
  - apply IH.
Qed.

(** X2.  After [Remove(key)] a [Find(key)] finds nothing, and the flag that
    [Remove] returns tells whether [Find(key)] found something before. *)
Theorem Remove_then_Find h key :
  ExtendibleHashTable.Find hash (ExtendibleHashTable.Remove hash h key).2 key = None ∧
  ((ExtendibleHashTable.Remove hash h key).1 = true ↔
   is_Some (ExtendibleHashTable.Find hash h key)).
Proof.
  split; [apply Find_Remove|].
  unfold ExtendibleHashTable.Remove, ExtendibleHashTable.Find. cbn [fst].
  unfold Bucket.Remove. cbn [fst]. rewrite remove_scan_flag. symmetry.
  apply Bucket_Find_is_Some.
Qed.

(** X3.  [Remove(key)] leaves the answer of [Find] for every other key as it
    was, and never changes the directory, the global depth or a local depth:
    buckets are not merged and the directory does not shrink. *)
Theorem Remove_keeps_other_keys h key key' :
  key' ≠ key →
  let h' := (ExtendibleHashTable.Remove hash h key).2 in
  ExtendibleHashTable.Find hash h' key' = ExtendibleHashTable.Find hash h key' ∧
  ExtendibleHashTable.dir_ h' = ExtendibleHashTable.dir_ h ∧
  ExtendibleHashTable.global_depth_ h' = ExtendibleHashTable.global_depth_ h ∧
  ∀ i, ExtendibleHashTable.GetLocalDepth h' i = ExtendibleHashTable.GetLocalDepth h i.
Proof.
  intros Hne. cbv zeta. unfold ExtendibleHashTable.Remove. cbn [snd].
  set (a := ExtendibleHashTable.slot h (ExtendibleHashTable.IndexOf hash h key)).
  assert (Hb : ∀ c,
    ExtendibleHashTable.bucket
      (ExtendibleHashTable.set_bucket h a (Bucket.Remove (ExtendibleHashTable.bucket h a) key).2) c
    = if decide (c = a) then (Bucket.Remove (ExtendibleHashTable.bucket h c) key).2
      else ExtendibleHashTable.bucket h c).
  { intros c. unfold ExtendibleHashTable.bucket at 1. simpl.
    destruct (decide (c = a)) as [->|Hc].
    - destruct (decide (a < length (ExtendibleHashTable.store_ h))%nat).
      + by rewrite list_lookup_insert_eq.
      + rewrite list_insert_ge by lia. unfold ExtendibleHashTable.bucket.
        by rewrite (lookup_ge_None_2 _ a) by lia.
    - by rewrite list_lookup_insert_ne. }
  split; [|split; [done|split; [done|]]].
  - unfold ExtendibleHashTable.Find.
    change (ExtendibleHashTable.IndexOf hash (ExtendibleHashTable.set_bucket h a ?b) key')
      with (ExtendibleHashTable.IndexOf hash h key').
    change (ExtendibleHashTable.slot (ExtendibleHashTable.set_bucket h a ?b) ?i)
      with (ExtendibleHashTable.slot h i).
    rewrite Hb. destruct (decide _) as [E|_]; [|done].
    unfold Bucket.Find, Bucket.Remove. cbn [snd Bucket.list_ Bucket.set_list].
    by apply remove_scan_other.
  - intros i. unfold ExtendibleHashTable.GetLocalDepth.
    change (ExtendibleHashTable.slot (ExtendibleHashTable.set_bucket h a ?b) ?i)
      with (ExtendibleHashTable.slot h i).
    rewrite Hb. by destruct (decide _).
Qed.

(** X1.  Insert/lookup round trip: on a table whose directory has
    [2 ^ global_depth_] slots with allocated buckets, an [Insert(key, value)]
    that returns is followed by a [Find(key)] that gives [value]. *)
Theorem Insert_then_Find fuel h key value h' :
  ExtendibleHashTable.dir_ok h →
  ExtendibleHashTable.Insert hash fuel h key value = Ret h' →
  ExtendibleHashTable.Find hash h' key = Some value.
Proof. intros Hok E. by eapply Find_after_Insert. Qed.

Lemma find_fold_app_other key key' value (l : list (K * V)) :
  key' ≠ key →
  ∀ acc : option V,
    fold_left (fun acc p => if decide (p.1 = key') then Some p.2 else acc) (l ++ [(key, value)]) acc
    = fold_left (fun acc p => if decide (p.1 = key') then Some p.2 else acc) l acc.
Proof.
  intros Hne acc. rewrite fold_left_app. simpl. by destruct (decide (key = key')).
Qed.

(** X5.  An [Insert] of a key that [Find] does not find, into a bucket that
    is not full, returns (given fuel for one scan of the bucket) without
    splitting: the pair is appended to that bucket, the directory and the
    global depth stay as they were, and [Find] answers as before for every
    other key. *)
Theorem Insert_with_room fuel h key value :
  let a := ExtendibleHashTable.slot h (ExtendibleHashTable.IndexOf hash h key) in
  let b := ExtendibleHashTable.bucket h a in
  ExtendibleHashTable.Find hash h key = None →
  length (Bucket.list_ b) ≠ Bucket.size_ b →
  (length (Bucket.list_ b) + 1 < fuel)%nat →
  ∃ h',
    ExtendibleHashTable.Insert hash fuel h key value = Ret h' ∧
    h' = ExtendibleHashTable.set_bucket h a (Bucket.set_list b (Bucket.list_ b ++ [(key, value)])) ∧
    ExtendibleHashTable.dir_ h' = ExtendibleHashTable.dir_ h ∧
    ExtendibleHashTable.global_depth_ h' = ExtendibleHashTable.global_depth_ h ∧
    ∀ key', key' ≠ key →
      ExtendibleHashTable.Find hash h' key' = ExtendibleHashTable.Find hash h key'.
Proof.
  cbv zeta. intros Hfind Hroom Hfuel.
  set (a := ExtendibleHashTable.slot h (ExtendibleHashTable.IndexOf hash h key)) in *.
  set (b := ExtendibleHashTable.bucket h a) in *.
  assert (Hnin : key ∉ (Bucket.list_ b).*1).
  { intros Hin. apply Bucket_Find_is_Some in Hin as [v Hv].
    unfold ExtendibleHashTable.Find in Hfind. fold a b in Hfind. congruence. }
  eexists. split; [|split; [reflexivity|split; [done|split; [done|]]]].
  - destruct fuel as [|n]; [lia|]. simpl. fold a b.
    unfold Bucket.Insert. rewrite insert_scan_fresh by (done || lia). simpl.
    destruct (decide _) as [_|Hc]; [done|]. by destruct Hc.
  - intros key' Hne. unfold ExtendibleHashTable.Find.
    change (ExtendibleHashTable.IndexOf hash (ExtendibleHashTable.set_bucket h a ?b) key')
      with (ExtendibleHashTable.IndexOf hash h key').
    change (ExtendibleHashTable.slot (ExtendibleHashTable.set_bucket h a ?b) ?i)
      with (ExtendibleHashTable.slot h i).
    set (c := ExtendibleHashTable.slot h (ExtendibleHashTable.IndexOf hash h key')).
    unfold ExtendibleHashTable.bucket at 1. simpl.
    destruct (decide (c = a)) as [->|Hc].
    + destruct (decide (a < length (ExtendibleHashTable.store_ h))%nat).
      * rewrite list_lookup_insert_eq by done. simpl.
        unfold Bucket.Find. simpl. by apply find_fold_app_other.
      * by rewrite list_insert_ge by lia.
    + by rewrite list_lookup_insert_ne.
Qed.

End TableLookups.

(** Capacity-2 buckets: [Remove(2)] after the inserts of 1 and 2 keeps key 1. *)
Lemma Remove_keeps_other_keys_witness :
  ∃ h, insert_all hash_int 8 (ExtendibleHashTable.new 2) [(1, 10); (2, 20)]%Z = Ret h ∧
    ExtendibleHashTable.Find hash_int h 1%Z = Some 10%Z ∧
    ExtendibleHashTable.Find hash_int (ExtendibleHashTable.Remove hash_int h 2%Z).2 1%Z = Some 10%Z.
Proof.
  eexists. split; [vm_compute; reflexivity|]. split; [reflexivity|].
  match goal with |- ExtendibleHashTable.Find _ (ExtendibleHashTable.Remove _ ?h _).2 _ = _ =>
    destruct (Remove_keeps_other_keys hash_int h 2%Z 1%Z ltac:(discriminate)) as [E _]
  end.
  rewrite E. reflexivity.
Defined.

(** Capacity-1 buckets: the insert of key 1 after key 0 splits and returns,
    and key 1 is found. *)
Lemma Insert_then_Find_witness :
  ∃ h h', table_of 8 [0]%Z = Ret h ∧ ExtendibleHashTable.dir_ok h ∧
    ExtendibleHashTable.Insert hash_int 8 h 1%Z 10%Z = Ret h' ∧
    ExtendibleHashTable.Find hash_int h' 1%Z = Some 10%Z.
Proof.
  eexists. eexists. split; [vm_compute; reflexivity|].
  assert (Hok : ExtendibleHashTable.dir_ok
                  (ExtendibleHashTable.mk 0 1 1 [0%nat] [Bucket.mk 1 0 [(0, 0)]%Z])).
  { split; [done|]. split; [reflexivity|]. repeat constructor. }
  split; [exact Hok|].
  split; [vm_compute; reflexivity|].
  apply (Insert_then_Find hash_int 8 _ 1%Z 10%Z _ Hok). vm_compute. reflexivity.
Defined.

(** Capacity-2 buckets: key 2 goes beside key 1 without a split. *)
Lemma Insert_with_room_witness :
  ∃ h h', insert_all hash_int 8 (ExtendibleHashTable.new 2) [(1, 10)]%Z = Ret h ∧
    ExtendibleHashTable.Insert hash_int 8 h 2%Z 20%Z = Ret h' ∧
    ExtendibleHashTable.global_depth_ h' = 0%Z ∧
    ExtendibleHashTable.Find hash_int h' 1%Z = Some 10%Z.
Proof.
  eexists. eexists. split; [vm_compute; reflexivity|].
  match goal with |- ExtendibleHashTable.Insert _ _ ?h _ _ = _ ∧ _ =>
    destruct (Insert_with_room hash_int 8 h 2%Z 20%Z) as (h' & E & -> & _ & Hg & Hother)
  end.
  - reflexivity.
  - vm_compute. discriminate.
  - vm_compute. lia.
  - split; [exact E|]. split; [reflexivity|]. reflexivity.
Defined.

(** ** Hash table: what every returning insert keeps *)

Section TableInvariants.
Context {K V : Type} `{EqDecision K}.
Variable hash : K → Z.
Implicit Types (h x : ExtendibleHashTable.t K V) (b : Bucket.t K V) (key : K) (value : V).

Lemma bucket_set_bucket h a b c :
  ExtendibleHashTable.bucket (ExtendibleHashTable.set_bucket h a b) c
  = if decide (c = a ∧ (a < length (ExtendibleHashTable.store_ h))%nat) then b
    else ExtendibleHashTable.bucket h c.
Proof.
  unfold ExtendibleHashTable.bucket. simpl.
  destruct (decide _) as [[-> Hlt]|Hn].
  - by rewrite list_lookup_insert_eq.
  - destruct (decide (c = a)) as [->|Hc].
    + rewrite list_insert_ge; [done|]. apply not_and_l in Hn as [?|?]; [done|lia].
    + by rewrite list_lookup_insert_ne.
Qed.

Lemma depth_set_bucket h a b c :
  Bucket.depth_ b = Bucket.depth_ (ExtendibleHashTable.bucket h a) →
  Bucket.depth_ (ExtendibleHashTable.bucket (ExtendibleHashTable.set_bucket h a b) c)
  = Bucket.depth_ (ExtendibleHashTable.bucket h c).
Proof.
  intros E. rewrite bucket_set_bucket. destruct (decide _) as [[-> _]|_]; done.
Qed.

Lemma Bucket_Insert_depth fuel b key value r :
  Bucket.Insert fuel b key value = Ret r → Bucket.depth_ r.2 = Bucket.depth_ b.
Proof.
  intros E. by apply Bucket_Insert_Ret in E as [_ [(_ & _ & ->)|(_ & _ & ->)]].
Qed.

(** The moves of a split touch the pairs of buckets only. *)
Lemma move_item_fields n a index h p x :
  ExtendibleHashTable.move_item hash n a index h p = Ret x →
  ExtendibleHashTable.dir_ x = ExtendibleHashTable.dir_ h ∧
  ExtendibleHashTable.global_depth_ x = ExtendibleHashTable.global_depth_ h ∧
  ExtendibleHashTable.bucket_size_ x = ExtendibleHashTable.bucket_size_ h ∧
  length (ExtendibleHashTable.store_ x) = length (ExtendibleHashTable.store_ h) ∧
  ∀ c, Bucket.depth_ (ExtendibleHashTable.bucket x c) = Bucket.depth_ (ExtendibleHashTable.bucket h c).
Proof.
  unfold ExtendibleHashTable.move_item. intros E.
  destruct (decide _); [|by inversion E; subst].
  apply bind_Ret_inv in E as (r & Er & E). inversion E; subst; clear E.
  repeat split; simpl; [by rewrite !length_insert|].
  intros c. rewrite depth_set_bucket by (by eapply Bucket_Insert_depth).
  by rewrite depth_set_bucket.
Qed.

Lemma move_items_fields n a index l :
  ∀ h x, ExtendibleHashTable.move_items hash n a index h l = Ret x →
  ExtendibleHashTable.dir_ x = ExtendibleHashTable.dir_ h ∧
  ExtendibleHashTable.global_depth_ x = ExtendibleHashTable.global_depth_ h ∧
  ExtendibleHashTable.bucket_size_ x = ExtendibleHashTable.bucket_size_ h ∧
  length (ExtendibleHashTable.store_ x) = length (ExtendibleHashTable.store_ h) ∧
  ∀ c, Bucket.depth_ (ExtendibleHashTable.bucket x c) = Bucket.depth_ (ExtendibleHashTable.bucket h c).
Proof.
  induction l as [|p tl IH]; intros h x E; simpl in E; [by inversion E; subst|].
  apply bind_Ret_inv in E as (h1 & E1 & E).
  apply move_item_fields in E1 as (Hd1 & Hg1 & Hs1 & Hl1 & Hb1).
  apply IH in E as (Hd & Hg & Hs & Hl & Hb).
  rewrite Hd, Hg, Hs, Hl. repeat split; try done. intros c. by rewrite Hb.
Qed.

Lemma RedistributeBucket_depth n h a index x :
  ExtendibleHashTable.RedistributeBucket hash n h a index = Ret x →
  (ExtendibleHashTable.global_depth_ h ≤ ExtendibleHashTable.global_depth_ x
     ≤ ExtendibleHashTable.global_depth_ h + 1)%Z ∧
  ExtendibleHashTable.bucket_size_ x = ExtendibleHashTable.bucket_size_ h.
Proof.
  unfold ExtendibleHashTable.RedistributeBucket. intros E.
  apply move_items_fields in E as (_ & Hg & Hs & _). rewrite Hg, Hs. simpl.
  destruct (decide _); simpl; split; (lia || done).
Qed.

Lemma Insert_depth n :
  ∀ h key value x, ExtendibleHashTable.Insert hash n h key value = Ret x →
    (ExtendibleHashTable.global_depth_ h ≤ ExtendibleHashTable.global_depth_ x)%Z ∧
    ExtendibleHashTable.bucket_size_ x = ExtendibleHashTable.bucket_size_ h.
Proof.
  induction n as [|n IH]; intros h key value x E; [discriminate|]. simpl in E.
  apply bind_Ret_inv in E as (r & _ & E).
  destruct r.1; [by inversion E; subst|].
  apply bind_Ret_inv in E as (h2 & E2 & E).
  apply RedistributeBucket_depth in E2 as [Hg2 Hs2]. apply IH in E as [Hg Hs].
  simpl in *. split; [lia|congruence].
Qed.

(** X4.  A returning [Insert] keeps the shape of the directory: it still has
    [2 ^ global_depth_] slots, every slot points to an allocated bucket, the
    global depth did not go down, and the bucket capacity is unchanged. *)
Theorem Insert_keeps_directory_shape fuel h key value h' :
  ExtendibleHashTable.dir_ok h →
  ExtendibleHashTable.Insert hash fuel h key value = Ret h' →
  ExtendibleHashTable.dir_ok h' ∧
  length (ExtendibleHashTable.dir_ h') = Z.to_nat (2 ^ ExtendibleHashTable.global_depth_ h') ∧
  (ExtendibleHashTable.global_depth_ h ≤ ExtendibleHashTable.global_depth_ h')%Z ∧
  ExtendibleHashTable.bucket_size_ h' = ExtendibleHashTable.bucket_size_ h.
Proof.
  intros Hok E. pose proof (Insert_dir_ok hash _ _ _ _ _ E Hok) as Hok'.
  split; [done|]. split; [by destruct Hok' as (_ & ? & _)|].
  by eapply Insert_depth.
Qed.

(** *** Buckets stay within capacity and hold no key twice *)

Lemma remove_scan_sublist key (l : list (K * V)) : sublist (Bucket.remove_scan l key).2 l.
Proof.
  induction l as [|p tl IH]; simpl; [done|].
  destruct (decide (p.1 = key)); simpl; [by apply sublist_cons|by apply sublist_skip].
Qed.

Lemma Bucket_Remove_ok h b key : bucket_ok h b → bucket_ok h (Bucket.Remove b key).2.
Proof.
  intros (Hs & Hl & Hn). pose proof (remove_scan_sublist key (Bucket.list_ b)) as Hsub.
  unfold Bucket.Remove. repeat split; simpl; [done| |].
  - apply sublist_length in Hsub. lia.
  - eapply sublist_NoDup; [exact Hn|by apply fmap_sublist].
Qed.

Lemma Bucket_Insert_ok fuel h b key value r :
  Bucket.Insert fuel b key value = Ret r → bucket_ok h b → bucket_ok h r.2.
Proof.
  intros E (Hs & Hl & Hn).
  apply Bucket_Insert_Ret in E as [Hnin [(_ & Hne & ->)|(_ & _ & ->)]]; [|done].
  repeat split; simpl; [done|rewrite length_app; simpl; lia|].
  rewrite fmap_app. apply NoDup_app. split; [done|]. split; [|apply NoDup_singleton].
  intros k Hk Hk'. simpl in Hk'. apply list_elem_of_singleton in Hk'. by subst.
Qed.

Lemma default_bucket_or_ok h a :
  buckets_ok h → (a < length (ExtendibleHashTable.store_ h))%nat →
  bucket_ok h (ExtendibleHashTable.bucket h a).
Proof.
  intros Hall Hlt. unfold ExtendibleHashTable.bucket.
  destruct (lookup_lt_is_Some_2 _ _ Hlt) as [b Hb]. rewrite Hb. simpl.
  unfold buckets_ok in Hall. rewrite Forall_forall in Hall. apply Hall.
  by eapply list_elem_of_lookup_2.
Qed.

Lemma set_bucket_buckets_ok h a b :
  buckets_ok h → ((a < length (ExtendibleHashTable.store_ h))%nat → bucket_ok h b) →
  buckets_ok (ExtendibleHashTable.set_bucket h a b).
Proof.
  intros Hall Hb. unfold buckets_ok. simpl.
  destruct (decide (a < length (ExtendibleHashTable.store_ h))%nat).
  - apply Forall_insert; [exact Hall|by apply Hb].
  - rewrite list_insert_ge by lia. exact Hall.
Qed.

Lemma move_item_buckets_ok n a index h p x :
  ExtendibleHashTable.move_item hash n a index h p = Ret x → buckets_ok h → buckets_ok x.
Proof.
  unfold ExtendibleHashTable.move_item. intros E Hok.
  destruct (decide _); [|by inversion E; subst].
  apply bind_Ret_inv in E as (r & Er & E). inversion E; subst; clear E.
  set (h1 := ExtendibleHashTable.set_bucket h _ _) in *.
  assert (H1 : buckets_ok h1).
  { apply set_bucket_buckets_ok; [done|]. intros Hlt.
    apply Bucket_Remove_ok. by apply default_bucket_or_ok. }
  apply set_bucket_buckets_ok; [done|]. intros Hlt.
  eapply (Bucket_Insert_ok _ h1); [exact Er|]. by apply default_bucket_or_ok.
Qed.

Lemma move_items_buckets_ok n a index l :
  ∀ h x, ExtendibleHashTable.move_items hash n a index h l = Ret x → buckets_ok h → buckets_ok x.
Proof.
  induction l as [|p tl IH]; intros h x E Hok; simpl in E; [by inversion E; subst|].
  apply bind_Ret_inv in E as (h1 & E1 & E).
  eapply IH; [exact E|]. by eapply move_item_buckets_ok.
Qed.

Lemma RedistributeBucket_buckets_ok n h a index x :
  ExtendibleHashTable.RedistributeBucket hash n h a index = Ret x → buckets_ok h → buckets_ok x.
Proof.
  unfold ExtendibleHashTable.RedistributeBucket. intros E Hok.
  eapply move_items_buckets_ok; [exact E|]. clear E.
  set (h1 := if decide _ then _ else h).
  assert (H1 : buckets_ok h1) by (subst h1; by destruct (decide _)).
  set (h2 := ExtendibleHashTable.set_bucket h1 a _).
  assert (H2 : buckets_ok h2).
  { apply set_bucket_buckets_ok; [done|]. intros Hlt.
    pose proof (default_bucket_or_ok h1 a H1 Hlt) as (? & ? & ?). by repeat split. }
  unfold buckets_ok. simpl. apply Forall_app. split; [exact H2|].
  apply Forall_singleton. repeat split; simpl; [lia|apply NoDup_nil_2].
Qed.

(** X6.  If every bucket of the store has the table's capacity, holds at most
    that many pairs and holds no key twice, the same is true after an
    [Insert] that returns and after a [Remove]. *)
Theorem Insert_Remove_keep_buckets_ok h :
  buckets_ok h →
  (∀ fuel key value h', ExtendibleHashTable.Insert hash fuel h key value = Ret h' → buckets_ok h') ∧
  (∀ key, buckets_ok (ExtendibleHashTable.Remove hash h key).2).
Proof.
  intros Hok. split.
  - intros fuel. revert h Hok.
    induction fuel as [|n IH]; intros h Hok key value h' E; [discriminate|]. simpl in E.
    apply bind_Ret_inv in E as (r & Er & E).
    assert (H1 : buckets_ok (ExtendibleHashTable.set_bucket h
                   (ExtendibleHashTable.slot h (ExtendibleHashTable.IndexOf hash h key)) r.2)).
    { apply set_bucket_buckets_ok; [done|]. intros Hlt.
      eapply Bucket_Insert_ok; [exact Er|]. by apply default_bucket_or_ok. }
    destruct r.1; [by inversion E; subst|].
    apply bind_Ret_inv in E as (h2 & E2 & E).
    eapply IH; [|exact E]. by eapply RedistributeBucket_buckets_ok.
  - intros key. unfold ExtendibleHashTable.Remove. cbn [snd].
    apply set_bucket_buckets_ok; [done|]. intros Hlt.
    apply Bucket_Remove_ok. by apply default_bucket_or_ok.
Qed.

End TableInvariants.

(** *** Local depths stay within the global depth *)

Section TableDepths.
Context {K V : Type} `{EqDecision K}.
Variable hash : K → Z.
Implicit Types (h x : ExtendibleHashTable.t K V) (b : Bucket.t K V) (key : K) (value : V).

Lemma slot_in_dir h key :
  ExtendibleHashTable.dir_ok h →
  ∃ i, ExtendibleHashTable.dir_ h !! i
       = Some (ExtendibleHashTable.slot h (ExtendibleHashTable.IndexOf hash h key)).
Proof.
  intros (Hg & Hlen & Hall). pose proof (IndexOf_range hash h key Hg) as Hi.
  exists (Z.to_nat (ExtendibleHashTable.IndexOf hash h key)).
  unfold ExtendibleHashTable.slot.
  destruct (lookup_lt_is_Some_2 (ExtendibleHashTable.dir_ h)
              (Z.to_nat (ExtendibleHashTable.IndexOf hash h key)) ltac:(lia)) as [a Ha].
  by rewrite Ha.
Qed.

Lemma set_bucket_depths_ok h a b :
  depths_ok h → Bucket.depth_ b = Bucket.depth_ (ExtendibleHashTable.bucket h a) →
  depths_ok (ExtendibleHashTable.set_bucket h a b).
Proof.
  intros Hd E i c Hc. rewrite depth_set_bucket by done. by apply (Hd i c).
Qed.

Lemma RedistributeBucket_depths_ok n h a index x i0 :
  ExtendibleHashTable.dir_ok h → depths_ok h →
  ExtendibleHashTable.dir_ h !! i0 = Some a →
  ExtendibleHashTable.RedistributeBucket hash n h a index = Ret x →
  depths_ok x.
Proof.
  intros Hok Hd Ha E. unfold ExtendibleHashTable.RedistributeBucket in E. cbv zeta in E.
  apply move_items_fields in E as (Hdx & Hgx & _ & _ & Hbx).
  intros i c Hc. rewrite Hdx in Hc. rewrite Hbx, Hgx. clear Hdx Hgx Hbx x.
  revert Hc. set (h1 := if decide _ then _ else h).
  assert (H1 : ExtendibleHashTable.dir_ok h1 ∧
               ExtendibleHashTable.store_ h1 = ExtendibleHashTable.store_ h ∧
               (ExtendibleHashTable.global_depth_ h ≤ ExtendibleHashTable.global_depth_ h1)%Z ∧
               (Bucket.depth_ (ExtendibleHashTable.bucket h a) + 1
                  ≤ ExtendibleHashTable.global_depth_ h1)%Z ∧
               ∀ j c', ExtendibleHashTable.dir_ h1 !! j = Some c' →
                       ∃ j', ExtendibleHashTable.dir_ h !! j' = Some c').
  { pose proof (Hd _ _ Ha) as Hda. subst h1. destruct (decide _) as [Eg|Ng].
    - split; [by apply double_dir_dir_ok|]. split; [done|].
      unfold Bucket.GetDepth in Eg. split; [simpl; lia|]. split; [simpl; lia|].
      intros j c'. rewrite double_dir_dir by done. intros Hj.
      apply list_elem_of_lookup_2 in Hj. apply elem_of_app in Hj.
      apply list_elem_of_lookup_1. by destruct Hj.
    - unfold Bucket.GetDepth in Ng. split; [done|]. split; [done|].
      split; [lia|]. split; [lia|]. intros j c' Hj. by exists j. }
  destruct H1 as (Hok1 & Hst1 & Hg1 & Hda1 & Hdir1).
  assert (Hlt : (a < length (ExtendibleHashTable.store_ h1))%nat).
  { rewrite Hst1. destruct Hok as (_ & _ & Hall). rewrite Forall_forall in Hall.
    apply Hall. by eapply list_elem_of_lookup_2. }
  assert (Hba : ExtendibleHashTable.bucket h1 a = ExtendibleHashTable.bucket h a)
    by (unfold ExtendibleHashTable.bucket; by rewrite Hst1).
  clearbody h1.
  set (inc := Bucket.IncrementDepth (ExtendibleHashTable.bucket h1 a)).
  assert (Hb2 : ExtendibleHashTable.bucket (ExtendibleHashTable.set_bucket h1 a inc) a = inc).
  { rewrite bucket_set_bucket. destruct (decide _) as [_|Hn]; [done|]. by destruct Hn. }
  rewrite Hb2. cbn [ExtendibleHashTable.dir_ ExtendibleHashTable.set_dir
                    ExtendibleHashTable.set_store ExtendibleHashTable.set_bucket
                    ExtendibleHashTable.global_depth_ ExtendibleHashTable.store_].
  intros Hc. unfold ExtendibleHashTable.bucket.
  cbn [ExtendibleHashTable.store_ ExtendibleHashTable.set_dir ExtendibleHashTable.set_store].
  pose proof (Hd _ _ Ha) as Hda.
  apply list_lookup_insert_Some in Hc as [(_ & <- & _)|(_ & Hc)].
  - rewrite lookup_app_r by lia. rewrite Nat.sub_diag. simpl.
    rewrite Hba. lia.
  - assert (Hcl : (c < length (ExtendibleHashTable.store_ h1))%nat).
    { destruct Hok1 as (_ & _ & Hall). rewrite Forall_forall in Hall.
      apply Hall. by eapply list_elem_of_lookup_2. }
    rewrite lookup_app_l by (by rewrite length_insert).
    destruct (decide (c = a)) as [->|Hne].
    + rewrite list_lookup_insert_eq by done. simpl. rewrite Hba. lia.
    + rewrite list_lookup_insert_ne by done.
      destruct (Hdir1 _ _ Hc) as [j' Hj']. pose proof (Hd _ _ Hj') as Hdc.
      unfold ExtendibleHashTable.bucket in Hdc. rewrite <- Hst1 in Hdc. lia.
Qed.

(** X7.  On a table with a well-shaped directory in which every local depth
    lies between 0 and the global depth, the same holds after an [Insert]
    that returns: [GetLocalDepth(i) <= GetGlobalDepth()] for every slot. *)
Theorem Insert_keeps_depths_ok fuel :
  ∀ h key value h',
    ExtendibleHashTable.dir_ok h → depths_ok h →
    ExtendibleHashTable.Insert hash fuel h key value = Ret h' →
    depths_ok h' ∧
    ∀ i, (0 ≤ i < 2 ^ ExtendibleHashTable.global_depth_ h')%Z →
      (0 ≤ ExtendibleHashTable.GetLocalDepth h' i ≤ ExtendibleHashTable.GetGlobalDepth h')%Z.
Proof.
  assert (G : ∀ h key value h',
    ExtendibleHashTable.dir_ok h → depths_ok h →
    ExtendibleHashTable.Insert hash fuel h key value = Ret h' → depths_ok h').
  { induction fuel as [|n IH]; intros h key value h' Hok Hd E; [discriminate|]. simpl in E.
    apply bind_Ret_inv in E as (r & Er & E).
    set (h1 := ExtendibleHashTable.set_bucket h _ r.2) in E.
    assert (Hok1 : ExtendibleHashTable.dir_ok h1) by (by apply set_bucket_dir_ok).
    assert (Hd1 : depths_ok h1)
      by (apply set_bucket_depths_ok; [done|by eapply Bucket_Insert_depth]).
    destruct r.1; [by inversion E; subst|].
    apply bind_Ret_inv in E as (h2 & E2 & E).
    destruct (slot_in_dir h1 key Hok1) as [i0 Hi0].
    eapply IH; [| |exact E].
    - by eapply RedistributeBucket_dir_ok.
    - by eapply RedistributeBucket_depths_ok. }
  intros h key value h' Hok Hd E. pose proof (G _ _ _ _ Hok Hd E) as Hd'.
  split; [exact Hd'|]. intros i Hi.
  pose proof (Insert_dir_ok hash _ _ _ _ _ E Hok) as (Hg & Hlen & _).
  unfold ExtendibleHashTable.GetLocalDepth, ExtendibleHashTable.GetGlobalDepth,
    ExtendibleHashTable.slot, Bucket.GetDepth.
  destruct (lookup_lt_is_Some_2 (ExtendibleHashTable.dir_ h') (Z.to_nat i) ltac:(lia)) as [a Ha].
  rewrite Ha. simpl. by apply (Hd' _ _ Ha).
Qed.

End TableDepths.

(** Capacity-1 buckets, keys 0, 1, 4 and then 5: every invariant of this
    section holds before and after the last insert. *)
Lemma Insert_keeps_directory_shape_witness :
  ∃ h h', table_of 30 [0; 1; 4]%Z = Ret h ∧ ExtendibleHashTable.dir_ok h ∧
    ExtendibleHashTable.Insert hash_int 30 h 5%Z 50%Z = Ret h' ∧
    ExtendibleHashTable.dir_ok h' ∧
    length (ExtendibleHashTable.dir_ h') = 8%nat.
Proof.
  eexists. eexists. split; [vm_compute; reflexivity|].
  match goal with |- ExtendibleHashTable.dir_ok ?h ∧ _ =>
    assert (Hok : ExtendibleHashTable.dir_ok h)
      by (split; [vm_compute; discriminate|]; split; [reflexivity|];
          cbn [ExtendibleHashTable.dir_ ExtendibleHashTable.store_ length]; repeat constructor)
  end.
  split; [exact Hok|]. split; [vm_compute; reflexivity|].
  match goal with |- ExtendibleHashTable.dir_ok ?h' ∧ _ =>
    destruct (Insert_keeps_directory_shape hash_int 30 _ 5%Z 50%Z h' Hok) as (Hok' & Hlen & _)
  end.
  - vm_compute. reflexivity.
  - split; [exact Hok'|]. rewrite Hlen. reflexivity.
Defined.

Lemma Insert_Remove_keep_buckets_ok_witness :
  ∃ h h', table_of 30 [0; 1; 4]%Z = Ret h ∧ buckets_ok h ∧
    ExtendibleHashTable.Insert hash_int 30 h 5%Z 50%Z = Ret h' ∧ buckets_ok h' ∧
    buckets_ok (ExtendibleHashTable.Remove hash_int h 4%Z).2.
Proof.
  eexists. eexists. split; [vm_compute; reflexivity|].
  match goal with |- buckets_ok ?h ∧ _ =>
    assert (Hok : buckets_ok h)
      by (unfold buckets_ok; cbn [ExtendibleHashTable.store_];
          repeat (apply Forall_cons; split;
                  [repeat split; cbn; [lia|repeat constructor; set_solver]|]);
          apply Forall_nil_2)
  end.
  split; [exact Hok|]. split; [vm_compute; reflexivity|].
  destruct (Insert_Remove_keep_buckets_ok hash_int _ Hok) as [Hi Hr].
  split; [|apply Hr].
  apply (Hi 30%nat 5%Z 50%Z). vm_compute. reflexivity.
Defined.

Lemma Insert_keeps_depths_ok_witness :
  ∃ h h', table_of 30 [0; 1; 4]%Z = Ret h ∧ ExtendibleHashTable.dir_ok h ∧ depths_ok h ∧
    ExtendibleHashTable.Insert hash_int 30 h 5%Z 50%Z = Ret h' ∧ depths_ok h'.
Proof.
  eexists. eexists. split; [vm_compute; reflexivity|].
  match goal with |- ExtendibleHashTable.dir_ok ?h ∧ _ =>
    assert (Hok : ExtendibleHashTable.dir_ok h)
      by (split; [vm_compute; discriminate|]; split; [reflexivity|];
          cbn [ExtendibleHashTable.dir_ ExtendibleHashTable.store_ length]; repeat constructor);
    assert (Hd : depths_ok h)
      by (intros i a Hi; cbn [ExtendibleHashTable.dir_] in Hi;
          do 8 (destruct i as [|i]; [inversion Hi; subst a; vm_compute; split; discriminate|]);
          discriminate)
  end.
  split; [exact Hok|]. split; [exact Hd|]. split; [vm_compute; reflexivity|].
  eapply (Insert_keeps_depths_ok hash_int 30 _ 5%Z 50%Z _ Hok Hd). vm_compute. reflexivity.
Defined.

(** ** Replacer: bounds, victims, bookkeeping *)

Section ReplacerMore.
Variable evict0 : bool.
Variable k0 : Z.
Variable node_lt : HeapNode.t → HeapNode.t → bool.
Implicit Types (r : LRUKReplacer.t) (f frame_id : Z) (n : HeapNode.t).

(** X8.  A successful [Evict] never hands out a frame that is not evictable:
    the frame it returns was tracked with [evict_ = true] (and is not frame
    0); its entry is erased, every other entry stays, and [curr_size_] goes
    down by one. *)
Theorem Evict_victim_was_evictable r :
  (LRUKReplacer.Evict evict0 k0 node_lt r).1.2 = true →
  let frame := (LRUKReplacer.Evict evict0 k0 node_lt r).2 in
  let r' := (LRUKReplacer.Evict evict0 k0 node_lt r).1.1 in
  frame ≠ 0%Z ∧
  (∃ n, LRUKReplacer.node_map_ r !! frame = Some n ∧ HeapNode.evict_ n = true) ∧
  LRUKReplacer.node_map_ r' !! frame = None ∧
  (∀ g, g ≠ frame → LRUKReplacer.node_map_ r' !! g = LRUKReplacer.node_map_ r !! g) ∧
  LRUKReplacer.Size r' = to_size_t (LRUKReplacer.Size r - 1).
Proof.
  intros Hs. destruct (Evict_success evict0 k0 node_lt r Hs) as (Hne & Hn & Hm & Hc).
  cbv zeta. split; [done|]. split; [done|]. rewrite Hm.
  split; [apply lookup_delete_eq|]. split; [|done].
  intros g Hg. by apply lookup_delete_ne.
Qed.

(** X9.  When no tracked frame is evictable (in particular on an empty
    replacer) [Evict] returns [false] and changes nothing. *)
Theorem Evict_nothing_evictable r :
  (∀ f n, LRUKReplacer.node_map_ r !! f = Some n → HeapNode.evict_ n = false) →
  LRUKReplacer.Evict evict0 k0 node_lt r = (r, false, 0%Z).
Proof.
  intros Hnone.
  assert (E : (fold_left (LRUKReplacer.max_step node_lt) (map_to_list (LRUKReplacer.node_map_ r))
                 (0%Z, LRUKReplacer.node_default evict0 k0)).1 = 0%Z).
  { apply max_step_stays_zero; [done|]. intros [f n] Hin Hev.
    apply elem_of_map_to_list in Hin. apply Hnone in Hin. simpl in Hev. congruence. }
  unfold LRUKReplacer.Evict, LRUKReplacer.DeleteMaxInMap. rewrite E.
  destruct (decide (0%Z ≠ 0%Z)); [done|]. reflexivity.
Qed.

(** X10.  [RecordAccess(frame_id)] throws exactly when [frame_id], read as a
    [size_t], is greater than [replacer_size_] (so a negative id throws and
    the id [replacer_size_] itself is accepted).  When it returns, the frame
    is tracked, no other entry has changed, the timestamp counter has advanced
    by one, and [curr_size_] has grown by one exactly if the frame was
    untracked and [curr_size_] was not [replacer_size_]. *)
Theorem RecordAccess_bounds r frame_id :
  match LRUKReplacer.RecordAccess evict0 k0 r frame_id with
  | Ret r' =>
      (to_size_t frame_id ≤ LRUKReplacer.replacer_size_ r)%Z ∧
      is_Some (LRUKReplacer.node_map_ r' !! frame_id) ∧
      (∀ g, g ≠ frame_id → LRUKReplacer.node_map_ r' !! g = LRUKReplacer.node_map_ r !! g) ∧
      LRUKReplacer.current_timestamp_ r' = to_size_t (LRUKReplacer.current_timestamp_ r + 1) ∧
      LRUKReplacer.replacer_size_ r' = LRUKReplacer.replacer_size_ r ∧
      LRUKReplacer.curr_size_ r' =
        (if bool_decide (LRUKReplacer.node_map_ r !! frame_id = None ∧
                         LRUKReplacer.curr_size_ r ≠ LRUKReplacer.replacer_size_ r)
         then to_size_t (LRUKReplacer.curr_size_ r + 1) else LRUKReplacer.curr_size_ r)
  | Throw _ => (to_size_t frame_id > LRUKReplacer.replacer_size_ r)%Z
  | Spin => False
  end.
Proof.
  unfold LRUKReplacer.RecordAccess, LRUKReplacer.AddToMap.
  destruct (decide _) as [Hgt|Hle]; [done|].
  split; [lia|]. simpl. split; [rewrite lookup_insert_eq; by eexists|].
  destruct (LRUKReplacer.node_map_ r !! frame_id) as [n|] eqn:En.
  - split; [intros g Hg; by rewrite lookup_insert_ne|].
    split; [done|]. split; [done|].
    rewrite bool_decide_eq_false_2; [done|]. by intros [? _].
  - destruct (decide (LRUKReplacer.curr_size_ r = LRUKReplacer.replacer_size_ r)) as [Ec|Nc]; simpl.
    + split; [intros g Hg; by rewrite lookup_insert_ne|].
      split; [done|]. split; [done|].
      rewrite bool_decide_eq_false_2; [done|]. by intros [_ ?].
    + split; [intros g Hg; by rewrite !lookup_insert_ne|].
      split; [done|]. split; [done|].
      by rewrite bool_decide_eq_true_2.
Qed.

(** X11.  On a tracked frame [SetEvictable(frame_id, b)] returns; it sets the
    flag, moves [curr_size_] by one only when the flag changes (up for
    [true], down for [false]), leaves every other entry alone, and a second
    call with the same flag changes nothing at all. *)
Theorem SetEvictable_tracked r frame_id b n :
  LRUKReplacer.node_map_ r !! frame_id = Some n →
  ∃ r',
    LRUKReplacer.SetEvictable r frame_id b = Ret r' ∧
    LRUKReplacer.node_map_ r' !! frame_id = Some (HeapNode.set_evict n b) ∧
    (∀ g, g ≠ frame_id → LRUKReplacer.node_map_ r' !! g = LRUKReplacer.node_map_ r !! g) ∧
    LRUKReplacer.curr_size_ r' =
      (if bool_decide (HeapNode.evict_ n = b) then LRUKReplacer.curr_size_ r
       else if b then to_size_t (LRUKReplacer.curr_size_ r + 1)
            else to_size_t (LRUKReplacer.curr_size_ r - 1)) ∧
    LRUKReplacer.SetEvictable r' frame_id b = Ret r'.
Proof.
  intros En. unfold LRUKReplacer.SetEvictable at 1. rewrite En.
  eexists. split; [reflexivity|].
  split; [destruct (HeapNode.evict_ n), b; simpl; apply lookup_insert_eq|].
  split; [intros g Hg; destruct (HeapNode.evict_ n), b; simpl; by rewrite lookup_insert_ne|].
  split; [by destruct (HeapNode.evict_ n), b|].
  unfold LRUKReplacer.SetEvictable.
  destruct (HeapNode.evict_ n) eqn:Ev, b; simpl; rewrite lookup_insert_eq; simpl;
    rewrite insert_insert_eq; reflexivity.
Qed.

Lemma step_tracked_bounded r c r' (N : Z) :
  ReplacerRun.step evict0 k0 node_lt r c = Ret r' →
  LRUKReplacer.replacer_size_ r = N →
  (∀ f, is_Some (LRUKReplacer.node_map_ r !! f) → (to_size_t f ≤ N)%Z) →
  LRUKReplacer.replacer_size_ r' = N ∧
  (∀ f, is_Some (LRUKReplacer.node_map_ r' !! f) → (to_size_t f ≤ N)%Z).
Proof.
  intros E HN Hb. destruct c as [g|g b| |g]; simpl in E.
  - pose proof (RecordAccess_bounds r g) as H. rewrite E in H.
    destruct H as (Hg & _ & Hoth & _ & Hsz & _). split; [congruence|].
    intros f Hf. destruct (decide (f = g)) as [->|Hne]; [lia|].
    apply Hb. by rewrite <- Hoth.
  - unfold LRUKReplacer.SetEvictable in E.
    destruct (LRUKReplacer.node_map_ r !! g) as [n|] eqn:Eg; [|discriminate].
    inversion E; subst r'; clear E. split; [by repeat destruct (_ && _)|].
    intros f Hf. apply Hb. destruct (decide (f = g)) as [->|Hne]; [by rewrite Eg|].
    simpl in Hf. rewrite lookup_insert_ne in Hf by done. by repeat destruct (_ && _).
  - inversion E; subst r'; clear E.
    unfold LRUKReplacer.Evict, LRUKReplacer.DeleteMaxInMap. simpl.
    destruct (decide _); simpl; [|done]. split; [done|].
    intros f [nf Hf]. apply lookup_delete_Some in Hf as [_ Hf]. apply Hb. by eexists.
  - unfold LRUKReplacer.Remove in E. destruct (HeapNode.evict_ _); [|discriminate].
    inversion E; subst r'; clear E. simpl. split; [done|].
    intros f [nf Hf]. apply lookup_delete_Some in Hf as [_ Hf]. apply Hb. by eexists.
Qed.

(** X12.  Whatever calls were made on a replacer created for [num_frames]
    frames, as long as none threw: every tracked frame was given to
    [RecordAccess] at some point, and its id, read as a [size_t], is at most
    [num_frames]. *)
Theorem tracked_frames_were_accessed num_frames k cs r frame_id :
  ReplacerRun.run evict0 k0 node_lt (LRUKReplacer.new num_frames k) cs = Ret r →
  is_Some (LRUKReplacer.node_map_ r !! frame_id) →
  ReplacerRun.RecordAccess frame_id ∈ cs ∧ (to_size_t frame_id ≤ num_frames)%Z.
Proof.
  intros E Hf. split.
  - destruct (decide (ReplacerRun.RecordAccess frame_id ∈ cs)) as [|Hnin]; [done|].
    pose proof (run_keeps_untracked evict0 k0 node_lt cs frame_id _ _ E Hnin (lookup_empty _)) as Hn.
    rewrite Hn in Hf. by destruct Hf.
  - assert (G : ∀ cs r0 r1, ReplacerRun.run evict0 k0 node_lt r0 cs = Ret r1 →
      LRUKReplacer.replacer_size_ r0 = num_frames →
      (∀ f, is_Some (LRUKReplacer.node_map_ r0 !! f) → (to_size_t f ≤ num_frames)%Z) →
      (∀ f, is_Some (LRUKReplacer.node_map_ r1 !! f) → (to_size_t f ≤ num_frames)%Z)).
    { clear. induction cs as [|c tl IH]; intros r0 r1 E HN Hb; simpl in E.
      - by inversion E; subst.
      - apply bind_Ret_inv in E as (r2 & E2 & E).
        destruct (step_tracked_bounded _ _ _ _ E2 HN Hb) as [HN2 Hb2].
        by eapply IH. }
    eapply G; [exact E|done| |exact Hf].
    intros f [n Hn]. simpl in Hn. by rewrite lookup_empty in Hn.
Qed.

End ReplacerMore.

(** Frames 1 and 2 were accessed (nodes are born evictable here): [Evict]
    succeeds and the frame it returns was evictable. *)
Lemma Evict_victim_was_evictable_witness :
  ∃ r, ReplacerRun.run true 0 HeapNode.lt (LRUKReplacer.new 3 2)
         [ReplacerRun.RecordAccess 1%Z; ReplacerRun.RecordAccess 2%Z] = Ret r ∧
    (LRUKReplacer.Evict true 0 HeapNode.lt r).1.2 = true ∧
    (∃ n, LRUKReplacer.node_map_ r !! (LRUKReplacer.Evict true 0 HeapNode.lt r).2 = Some n ∧
          HeapNode.evict_ n = true) ∧
    LRUKReplacer.Size (LRUKReplacer.Evict true 0 HeapNode.lt r).1.1 = 1%Z.
Proof.
  eexists. split; [vm_compute; reflexivity|].
  match goal with |- (LRUKReplacer.Evict _ _ _ ?r).1.2 = true ∧ _ =>
    assert (Hs : (LRUKReplacer.Evict true 0 HeapNode.lt r).1.2 = true) by (vm_compute; reflexivity);
    destruct (Evict_victim_was_evictable true 0%Z HeapNode.lt r Hs) as (_ & Hn & _ & _ & Hsz)
  end.
  split; [exact Hs|]. split; [exact Hn|]. rewrite Hsz. vm_compute. reflexivity.
Defined.

(** A fresh replacer has nothing to evict. *)
Lemma Evict_nothing_evictable_witness :
  LRUKReplacer.Evict true 0 HeapNode.lt (LRUKReplacer.new 3 2) = (LRUKReplacer.new 3 2, false, 0%Z).
Proof.
  apply Evict_nothing_evictable. intros f n Hf. simpl in Hf. by rewrite lookup_empty in Hf.
Defined.

(** Frame 1 was accessed: it can be pinned in the replacer, and [curr_size_]
    drops from 1 to 0. *)
Lemma SetEvictable_tracked_witness :
  ∃ r r', ReplacerRun.run true 0 HeapNode.lt (LRUKReplacer.new 3 2)
            [ReplacerRun.RecordAccess 1%Z] = Ret r ∧
    LRUKReplacer.SetEvictable r 1%Z false = Ret r' ∧
    LRUKReplacer.curr_size_ r = 1%Z ∧ LRUKReplacer.curr_size_ r' = 0%Z.
Proof.
  eexists. eexists. split; [vm_compute; reflexivity|].
  match goal with |- LRUKReplacer.SetEvictable ?r _ _ = _ ∧ _ =>
    destruct (SetEvictable_tracked r 1%Z false (HeapNode.mk 2 [0%Z] true) eq_refl)
      as (r' & E & _ & _ & Hc & _)
  end.
  split; [vm_compute; reflexivity|]. split; reflexivity.
Defined.

(** Three frames: the id 3, equal to the size, is accepted and tracked. *)
Lemma tracked_frames_were_accessed_witness :
  ∃ r, ReplacerRun.run true 0 HeapNode.lt (LRUKReplacer.new 3 2)
         [ReplacerRun.RecordAccess 2%Z; ReplacerRun.RecordAccess 3%Z] = Ret r ∧
    is_Some (LRUKReplacer.node_map_ r !! 3%Z) ∧
    ReplacerRun.RecordAccess 3%Z ∈ [ReplacerRun.RecordAccess 2%Z; ReplacerRun.RecordAccess 3%Z] ∧
    (to_size_t 3 ≤ 3)%Z.
Proof.
  eexists. split; [vm_compute; reflexivity|].
  split; [vm_compute; by eexists|].
  eapply (tracked_frames_were_accessed true 0%Z HeapNode.lt 3%Z 2%Z
            [ReplacerRun.RecordAccess 2%Z; ReplacerRun.RecordAccess 3%Z]).
  - vm_compute. reflexivity.
  - vm_compute. by eexists.
Defined.

(** ** Manager: new pages, misses, unpinning *)

Section ManagerMore.
Variable hash : Z → Z.
Variable INVALID_PAGE_ID : Z.
Variable PAGE_SIZE : nat.
Variable evict0 : bool.
Variable k0 : Z.
Variable node_lt : HeapNode.t → HeapNode.t → bool.
Implicit Types (s : BufferPoolManagerInstance.t) (p : Page.t) (page_id frame_id : Z).

Local Abbreviation page := (BufferPoolManagerInstance.page INVALID_PAGE_ID PAGE_SIZE).
Local Abbreviation NewPgImp :=
  (BufferPoolManagerInstance.NewPgImp hash INVALID_PAGE_ID PAGE_SIZE evict0 k0 node_lt).
Local Abbreviation FetchPgImp :=
  (BufferPoolManagerInstance.FetchPgImp hash INVALID_PAGE_ID PAGE_SIZE evict0 k0 node_lt).
Local Abbreviation UnpinPgImp :=
  (BufferPoolManagerInstance.UnpinPgImp hash INVALID_PAGE_ID PAGE_SIZE).
Local Abbreviation DeletePgImp :=
  (BufferPoolManagerInstance.DeletePgImp hash INVALID_PAGE_ID PAGE_SIZE).
Local Abbreviation drop_tenant :=
  (BufferPoolManagerInstance.drop_tenant hash INVALID_PAGE_ID PAGE_SIZE).
Local Abbreviation bind_frame := (BufferPoolManagerInstance.bind_frame hash evict0 k0).
Local Abbreviation pick_frame := (BufferPoolManagerInstance.pick_frame evict0 k0 node_lt).
Local Abbreviation resident s page_id :=
  (ExtendibleHashTable.Find hash (BufferPoolManagerInstance.page_table_ s) page_id).

Lemma pick_frame_keeps s frame_id s1 :
  pick_frame s = Some (frame_id, s1) →
  BufferPoolManagerInstance.pages_ s1 = BufferPoolManagerInstance.pages_ s ∧
  BufferPoolManagerInstance.page_table_ s1 = BufferPoolManagerInstance.page_table_ s ∧
  BufferPoolManagerInstance.disk_manager_ s1 = BufferPoolManagerInstance.disk_manager_ s ∧
  BufferPoolManagerInstance.next_page_id_ s1 = BufferPoolManagerInstance.next_page_id_ s.
Proof.
  unfold BufferPoolManagerInstance.pick_frame. intros E.
  destruct (BufferPoolManagerInstance.free_list_ s).
  - destruct (_.1.2); [|discriminate]. by inversion E.
  - by inversion E.
Qed.

Lemma drop_tenant_disk s frame_id :
  BufferPoolManagerInstance.disk_manager_ (drop_tenant s frame_id)
  = written_back (BufferPoolManagerInstance.disk_manager_ s) (page s frame_id).
Proof.
  unfold BufferPoolManagerInstance.drop_tenant, written_back, Page.IsDirty. cbv zeta.
  by destruct (Page.is_dirty_ _).
Qed.

Lemma drop_tenant_page_table s frame_id :
  ExtendibleHashTable.dir_ok (BufferPoolManagerInstance.page_table_ s) →
  ExtendibleHashTable.dir_ok (BufferPoolManagerInstance.page_table_ (drop_tenant s frame_id)).
Proof.
  intros Hok. unfold BufferPoolManagerInstance.drop_tenant. cbv zeta. simpl.
  apply Remove_dir_ok. by destruct (Page.IsDirty _).
Qed.

(** What the common tail does: the directory maps the page to the frame, the
    replacer tracks the frame as not evictable; pages, disk, counter and free
    list are not touched. *)
Lemma bind_frame_effect fuel s page_id frame_id s' :
  bind_frame fuel s page_id frame_id = Ret s' →
  BufferPoolManagerInstance.pages_ s' = BufferPoolManagerInstance.pages_ s ∧
  BufferPoolManagerInstance.disk_manager_ s' = BufferPoolManagerInstance.disk_manager_ s ∧
  BufferPoolManagerInstance.free_list_ s' = BufferPoolManagerInstance.free_list_ s ∧
  (∃ n, LRUKReplacer.node_map_ (BufferPoolManagerInstance.replacer_ s') !! frame_id = Some n ∧
        HeapNode.evict_ n = false) ∧
  (ExtendibleHashTable.dir_ok (BufferPoolManagerInstance.page_table_ s) →
   resident s' page_id = Some frame_id ∧
   ExtendibleHashTable.dir_ok (BufferPoolManagerInstance.page_table_ s')).
Proof.
  unfold BufferPoolManagerInstance.bind_frame. intros E.
  apply bind_Ret_inv in E as (pt & Ept & E).
  apply bind_Ret_inv in E as (r1 & Er1 & E).
  apply bind_Ret_inv in E as (r2 & Er2 & E).
  inversion E; subst s'; clear E. simpl.
  split; [done|]. split; [done|]. split; [done|]. split.
  - unfold LRUKReplacer.SetEvictable in Er2.
    destruct (LRUKReplacer.node_map_ r1 !! frame_id) as [n|]; [|discriminate].
    inversion Er2; subst r2; clear Er2. eexists. simpl.
    split; [apply lookup_insert_eq|done].
  - intros Hok. split; [by eapply Find_after_Insert|by eapply Insert_dir_ok].
Qed.

(** X13.  A successful [NewPgImp] hands out the value of the page counter and
    advances the counter by one (wrapping as [int]); the frame it chose then
    carries the new page id, one pin more than it had, a clear dirty flag and
    the buffer it had. *)
Theorem NewPgImp_sets_up_frame fuel s page_id frame_id s' :
  NewPgImp fuel s = Ret (Some (page_id, frame_id), s') →
  (0 ≤ frame_id < Z.of_nat (length (BufferPoolManagerInstance.pages_ s)))%Z →
  page_id = BufferPoolManagerInstance.next_page_id_ s ∧
  BufferPoolManagerInstance.next_page_id_ s' = to_int32 (page_id + 1) ∧
  page s' frame_id =
    Page.mk page_id (Page.pin_count_ (page s frame_id) + 1) false (Page.data_ (page s frame_id)).
Proof. apply NewPgImp_frame. Qed.

(** X14.  A successful [NewPgImp] writes the old contents of the frame it
    takes to disk, once and under the old page id, exactly when that frame
    was dirty; it makes no other disk call, and it does so before the frame
    gets its new page id. *)
Theorem NewPgImp_writes_back_dirty_victim fuel s page_id frame_id s' :
  NewPgImp fuel s = Ret (Some (page_id, frame_id), s') →
  BufferPoolManagerInstance.disk_manager_ s'
  = written_back (BufferPoolManagerInstance.disk_manager_ s) (page s frame_id).
Proof.
  unfold BufferPoolManagerInstance.NewPgImp. intros E.
  destruct (negb _); [by inversion E|].
  destruct (pick_frame s) as [[f s1]|] eqn:Ep; [|by inversion E].
  apply pick_frame_keeps in Ep as (Hp & _ & Hd & _).
  cbv zeta in E.
  remember (drop_tenant s1 f) as s2 eqn:Hs2.
  assert (Hd2 : BufferPoolManagerInstance.disk_manager_ s2
                = written_back (BufferPoolManagerInstance.disk_manager_ s) (page s f)).
  { subst s2. rewrite drop_tenant_disk, Hd. unfold BufferPoolManagerInstance.page. by rewrite Hp. }
  clear Hs2.
  apply bind_Ret_inv in E as (s6 & E6 & E).
  apply bind_frame_effect in E6 as (_ & Hd6 & _).
  injection E as _ Ef Es. subst f s6. rewrite Hd6. simpl. exact Hd2.
Qed.


Lemma NewPgImp_resident fuel s page_id frame_id s' :
  ExtendibleHashTable.dir_ok (BufferPoolManagerInstance.page_table_ s) →
  NewPgImp fuel s = Ret (Some (page_id, frame_id), s') →
  resident s' page_id = Some frame_id ∧
  ExtendibleHashTable.dir_ok (BufferPoolManagerInstance.page_table_ s') ∧
  ∃ n, LRUKReplacer.node_map_ (BufferPoolManagerInstance.replacer_ s') !! frame_id = Some n ∧
       HeapNode.evict_ n = false.
Proof.
  unfold BufferPoolManagerInstance.NewPgImp. intros Hok E.
  destruct (negb _); [by inversion E|].
  destruct (pick_frame s) as [[f s1]|] eqn:Ep; [|by inversion E].
  apply pick_frame_keeps in Ep as (_ & Hpt & _ & _).
  cbv zeta in E. apply bind_Ret_inv in E as (s6 & E6 & E).
  apply bind_frame_effect in E6 as (_ & _ & _ & Hn & Hres).
  injection E as Epid Ef Es. subst f s6. rewrite <- Epid in *.
  destruct Hres as [Hr Hok'].
  { simpl. apply (drop_tenant_page_table s1 frame_id). by rewrite Hpt. }
  done.
Qed.

(** X16.  After a successful [NewPgImp] on a manager whose page directory is
    well shaped, the directory resolves the new page id to the frame that was
    returned, and the replacer tracks that frame as not evictable. *)
Theorem NewPgImp_makes_resident fuel s page_id frame_id s' :
  ExtendibleHashTable.dir_ok (BufferPoolManagerInstance.page_table_ s) →
  NewPgImp fuel s = Ret (Some (page_id, frame_id), s') →
  resident s' page_id = Some frame_id ∧
  ExtendibleHashTable.dir_ok (BufferPoolManagerInstance.page_table_ s') ∧
  ∃ n, LRUKReplacer.node_map_ (BufferPoolManagerInstance.replacer_ s') !! frame_id = Some n ∧
       HeapNode.evict_ n = false.
Proof. apply NewPgImp_resident. Qed.


End ManagerMore.

(** ** Manager: unpinning, flushing everything, deleting *)

Section ManagerUnpin.
Variable hash : Z → Z.
Variable INVALID_PAGE_ID : Z.
Variable PAGE_SIZE : nat.
Variable evict0 : bool.
Variable k0 : Z.
Variable node_lt : HeapNode.t → HeapNode.t → bool.
Implicit Types (s : BufferPoolManagerInstance.t) (p : Page.t) (page_id frame_id : Z).

Local Abbreviation page := (BufferPoolManagerInstance.page INVALID_PAGE_ID PAGE_SIZE).
Local Abbreviation NewPgImp :=
  (BufferPoolManagerInstance.NewPgImp hash INVALID_PAGE_ID PAGE_SIZE evict0 k0 node_lt).
Local Abbreviation UnpinPgImp :=
  (BufferPoolManagerInstance.UnpinPgImp hash INVALID_PAGE_ID PAGE_SIZE).
Local Abbreviation DeletePgImp :=
  (BufferPoolManagerInstance.DeletePgImp hash INVALID_PAGE_ID PAGE_SIZE).
Local Abbreviation FlushAllPgsImp :=
  (BufferPoolManagerInstance.FlushAllPgsImp INVALID_PAGE_ID PAGE_SIZE).
Local Abbreviation resident s page_id :=
  (ExtendibleHashTable.Find hash (BufferPoolManagerInstance.page_table_ s) page_id).

Lemma UnpinPgImp_effect s page_id is_dirty frame_id :
  resident s page_id = Some frame_id →
  (0 ≤ frame_id < Z.of_nat (length (BufferPoolManagerInstance.pages_ s)))%Z →
  Page.pin_count_ (page s frame_id) ≠ 0%Z →
  (Page.pin_count_ (page s frame_id) = 1%Z →
   is_Some (LRUKReplacer.node_map_ (BufferPoolManagerInstance.replacer_ s) !! frame_id)) →
  ∃ s',
    UnpinPgImp s page_id is_dirty = Ret (true, s') ∧
    page s' frame_id =
      Page.mk (Page.page_id_ (page s frame_id)) (Page.pin_count_ (page s frame_id) - 1)
        (Page.is_dirty_ (page s frame_id) || is_dirty) (Page.data_ (page s frame_id)) ∧
    (∀ i, i ≠ Z.to_nat frame_id →
       BufferPoolManagerInstance.pages_ s' !! i = BufferPoolManagerInstance.pages_ s !! i) ∧
    BufferPoolManagerInstance.disk_manager_ s' = BufferPoolManagerInstance.disk_manager_ s ∧
    BufferPoolManagerInstance.page_table_ s' = BufferPoolManagerInstance.page_table_ s ∧
    BufferPoolManagerInstance.free_list_ s' = BufferPoolManagerInstance.free_list_ s ∧
    (if bool_decide (Page.pin_count_ (page s frame_id) = 1%Z)
     then ∃ n, LRUKReplacer.node_map_ (BufferPoolManagerInstance.replacer_ s') !! frame_id = Some n ∧
               HeapNode.evict_ n = true
     else BufferPoolManagerInstance.replacer_ s' = BufferPoolManagerInstance.replacer_ s).
Proof.
  intros E Hf Hpin Htr. unfold BufferPoolManagerInstance.UnpinPgImp. rewrite E.
  unfold Page.GetPinCount. rewrite bool_decide_eq_false_2 by done. cbv zeta.
  set (s1 := if is_dirty then _ else s).
  assert (H1 : page s1 frame_id
               = Page.set_is_dirty (page s frame_id) (Page.is_dirty_ (page s frame_id) || is_dirty) ∧
               length (BufferPoolManagerInstance.pages_ s1) = length (BufferPoolManagerInstance.pages_ s) ∧
               (∀ i, i ≠ Z.to_nat frame_id →
                  BufferPoolManagerInstance.pages_ s1 !! i = BufferPoolManagerInstance.pages_ s !! i) ∧
               BufferPoolManagerInstance.replacer_ s1 = BufferPoolManagerInstance.replacer_ s ∧
               BufferPoolManagerInstance.disk_manager_ s1 = BufferPoolManagerInstance.disk_manager_ s ∧
               BufferPoolManagerInstance.page_table_ s1 = BufferPoolManagerInstance.page_table_ s ∧
               BufferPoolManagerInstance.free_list_ s1 = BufferPoolManagerInstance.free_list_ s).
  { subst s1. destruct is_dirty.
    - rewrite page_set_page by done. rewrite orb_true_r.
      split; [done|]. split; [by rewrite length_set_page|].
      split; [intros i Hi; simpl; by rewrite list_lookup_insert_ne|done].
    - rewrite orb_false_r. split; [by destruct (page s frame_id)|done]. }
  clearbody s1. destruct H1 as (Hp1 & Hl1 & Ho1 & Hr1 & Hd1 & Hpt1 & Hfl1).
  assert (Hf1 : (0 ≤ frame_id < Z.of_nat (length (BufferPoolManagerInstance.pages_ s1)))%Z) by lia.
  rewrite Hp1. cbn [Page.pin_count_ Page.set_is_dirty].
  destruct (bool_decide (Page.pin_count_ (page s frame_id) = 1%Z)) eqn:Eb.
  - apply bool_decide_eq_true in Eb. destruct (Htr Eb) as [n Hn].
    unfold LRUKReplacer.SetEvictable. simpl. rewrite Hr1, Hn. simpl.
    eexists. split; [reflexivity|].
    change (page (BufferPoolManagerInstance.set_replacer ?x ?r) frame_id) with (page x frame_id).
    split; [by rewrite page_set_page|].
    split; [intros i Hi; simpl; rewrite list_lookup_insert_ne by done; by apply Ho1|].
    split; [done|]. split; [done|]. split; [done|].
    exists (HeapNode.set_evict n true). split; [|done].
    simpl. destruct (HeapNode.evict_ n); simpl; apply lookup_insert_eq.
  - eexists. split; [reflexivity|].
    split; [by rewrite page_set_page|].
    split; [intros i Hi; simpl; rewrite list_lookup_insert_ne by done; by apply Ho1|].
    done.
Qed.


(** [UnpinPgImp] returns [false] exactly when the directory's [Find] fails
    or the frame it finds has pin count 0, and then it has changed
    nothing. *)
Lemma UnpinPgImp_false_iff s page_id is_dirty s' :
  UnpinPgImp s page_id is_dirty = Ret (false, s') ↔
  s' = s ∧
  (resident s page_id = None ∨
   ∃ frame_id, resident s page_id = Some frame_id ∧ Page.pin_count_ (page s frame_id) = 0%Z).
Proof.
  unfold BufferPoolManagerInstance.UnpinPgImp.
  destruct (resident s page_id) as [f|] eqn:E.
  - unfold Page.GetPinCount.
    destruct (bool_decide (Page.pin_count_ (page s f) = 0%Z)) eqn:Eb.
    + apply bool_decide_eq_true in Eb. split.
      * intros H. inversion H; subst. split; [done|]. right. by exists f.
      * intros [-> _]. done.
    + apply bool_decide_eq_false in Eb. split.
      * cbv zeta. destruct (bool_decide _).
        -- intros H. apply bind_Ret_inv in H as (r & _ & H). discriminate.
        -- discriminate.
      * intros [_ [Hn|(f' & Hf' & Hp)]]; [discriminate|]. congruence.
  - split.
    + intros H. inversion H; subst. split; [done|by left].
    + intros [-> _]. done.
Qed.

(** The loop of [FlushAllPgsImp] after its first [m] rounds. *)
Lemma FlushAllPgsImp_rounds s m :
  (m ≤ length (BufferPoolManagerInstance.pages_ s))%nat →
  let s' :=
    fold_left
      (fun s i =>
         let p := page s (Z.of_nat i) in
         if decide (Page.GetPageId p ≠ INVALID_PAGE_ID) then
           BufferPoolManagerInstance.set_page
             (BufferPoolManagerInstance.set_disk_manager s
                (DiskManager.WritePage (BufferPoolManagerInstance.disk_manager_ s)
                   (Page.GetPageId p) (Page.GetData p)))
             (Z.of_nat i) (Page.set_is_dirty p false)
         else s)
      (seq 0 m) s in
  BufferPoolManagerInstance.pages_ s'
    = (flushed INVALID_PAGE_ID <$> take m (BufferPoolManagerInstance.pages_ s))
      ++ drop m (BufferPoolManagerInstance.pages_ s) ∧
  DiskManager.log_ (BufferPoolManagerInstance.disk_manager_ s')
    = DiskManager.log_ (BufferPoolManagerInstance.disk_manager_ s)
      ++ flush_calls INVALID_PAGE_ID (take m (BufferPoolManagerInstance.pages_ s)) ∧
  BufferPoolManagerInstance.page_table_ s' = BufferPoolManagerInstance.page_table_ s ∧
  BufferPoolManagerInstance.replacer_ s' = BufferPoolManagerInstance.replacer_ s ∧
  BufferPoolManagerInstance.free_list_ s' = BufferPoolManagerInstance.free_list_ s ∧
  BufferPoolManagerInstance.next_page_id_ s' = BufferPoolManagerInstance.next_page_id_ s ∧
  BufferPoolManagerInstance.pool_size_ s' = BufferPoolManagerInstance.pool_size_ s.
Proof.
  cbv zeta. induction m as [|m IH]; intros Hm.
  - rewrite take_0, drop_0. cbn [fold_left seq fmap list_fmap flush_calls flat_map app].
    by rewrite app_nil_r.
  - rewrite seq_S, fold_left_app. simpl.
    destruct (IH ltac:(lia)) as (Hp & Hl & Hpt & Hr & Hfl & Hn & Hps). clear IH.
    set (sm := fold_left _ (seq 0 m) s) in *. clearbody sm.
    destruct (lookup_lt_is_Some_2 (BufferPoolManagerInstance.pages_ s) m ltac:(lia)) as [p Ep].
    assert (Hlen : length (flushed INVALID_PAGE_ID <$> take m (BufferPoolManagerInstance.pages_ s)) = m)
      by (rewrite length_fmap, length_take; lia).
    assert (Hpm : page sm (Z.of_nat m) = p).
    { unfold BufferPoolManagerInstance.page. rewrite Nat2Z.id, Hp.
      rewrite lookup_app_r by lia. rewrite Hlen, Nat.sub_diag, lookup_drop, Nat.add_0_r, Ep. done. }
    rewrite Hpm. rewrite (take_S_r _ _ _ Ep), fmap_app.
    unfold flush_calls. rewrite flat_map_app. fold (flush_calls INVALID_PAGE_ID).
    simpl. unfold flushed at 2. unfold Page.GetPageId, Page.GetData.
    destruct (decide (Page.page_id_ p ≠ INVALID_PAGE_ID)) as [Hb|Hb]; simpl.
    + rewrite Nat2Z.id, Hp, Hl. rewrite insert_app_r_alt by lia.
      rewrite Hlen, Nat.sub_diag. rewrite (drop_S _ _ _ Ep). simpl.
      rewrite <- !app_assoc. simpl. done.
    + rewrite Hp, Hl. rewrite (drop_S _ _ _ Ep). rewrite <- !app_assoc. simpl.
      rewrite ?app_nil_r. done.
Qed.

(** X20.  [FlushAllPgsImp] (on a manager whose [pool_size_] is the number of
    frames) makes one [WritePage] call for every frame whose page id is not
    [INVALID_PAGE_ID], in frame order, dirty or not, and clears the dirty flag
    of exactly those frames; page ids, pin counts, buffers, directory,
    replacer and free list stay as they were. *)
Theorem FlushAllPgsImp_flushes_bound_frames s :
  BufferPoolManagerInstance.pool_size_ s = length (BufferPoolManagerInstance.pages_ s) →
  let s' := FlushAllPgsImp s in
  BufferPoolManagerInstance.pages_ s' = flushed INVALID_PAGE_ID <$> BufferPoolManagerInstance.pages_ s ∧
  DiskManager.log_ (BufferPoolManagerInstance.disk_manager_ s')
    = DiskManager.log_ (BufferPoolManagerInstance.disk_manager_ s)
      ++ flush_calls INVALID_PAGE_ID (BufferPoolManagerInstance.pages_ s) ∧
  BufferPoolManagerInstance.page_table_ s' = BufferPoolManagerInstance.page_table_ s ∧
  BufferPoolManagerInstance.replacer_ s' = BufferPoolManagerInstance.replacer_ s ∧
  BufferPoolManagerInstance.free_list_ s' = BufferPoolManagerInstance.free_list_ s.
Proof.
  intros Hps. cbv zeta. unfold BufferPoolManagerInstance.FlushAllPgsImp. rewrite Hps.
  destruct (FlushAllPgsImp_rounds s (length (BufferPoolManagerInstance.pages_ s)) ltac:(lia))
    as (Hp & Hl & Hpt & Hr & Hfl & _).
  rewrite firstn_all, drop_all, app_nil_r in Hp. rewrite firstn_all in Hl. done.
Qed.

End ManagerUnpin.

(** X19.  [UnpinPgImp] decides by the page directory alone, not by what the
    frames hold.  It returns [false] exactly when the directory's [Find]
    fails or the frame found has pin count 0, and then it has changed
    nothing.  A page held by a frame with a non-zero pin count can therefore
    be refused: after the ten fetches of [Scenario.lost_page] frame 2 holds
    page 6 with pin count 1, the directory no longer resolves 6, and
    [UnpinPgImp] of page 6 returns [false]. *)
Theorem UnpinPgImp_false_changes_nothing :
  (∀ (hash : Z → Z) (INVALID_PAGE_ID : Z) (PAGE_SIZE : nat)
     (s : BufferPoolManagerInstance.t) (page_id : Z) (is_dirty : bool)
     (s' : BufferPoolManagerInstance.t),
     BufferPoolManagerInstance.UnpinPgImp hash INVALID_PAGE_ID PAGE_SIZE s page_id is_dirty
       = Ret (false, s') ↔
     s' = s ∧
     (ExtendibleHashTable.Find hash (BufferPoolManagerInstance.page_table_ s) page_id = None ∨
      ∃ frame_id,
        ExtendibleHashTable.Find hash (BufferPoolManagerInstance.page_table_ s) page_id
          = Some frame_id ∧
        Page.pin_count_ (BufferPoolManagerInstance.page INVALID_PAGE_ID PAGE_SIZE s frame_id)
          = 0%Z)) ∧
  (∃ s, Scenario.lost_page = Ret s ∧
     length (BufferPoolManagerInstance.pages_ s) = 10%nat ∧
     Page.page_id_ (Sample.page s 2%Z) = 6%Z ∧
     Page.pin_count_ (Sample.page s 2%Z) = 1%Z ∧
     ∀ is_dirty, Sample.UnpinPgImp s 6%Z is_dirty = Ret (false, s)).
Proof.
  split.
  - intros. apply UnpinPgImp_false_iff.
  - eexists. split; [vm_compute; reflexivity|].
    split; [vm_compute; reflexivity|].
    split; [vm_compute; reflexivity|].
    split; [vm_compute; reflexivity|].
    intros is_dirty. apply UnpinPgImp_false_iff. split; [done|]. left.
    vm_compute. reflexivity.
Qed.

(** ** Manager: how the calls compose *)

Section ManagerCompose.
Variable hash : Z → Z.
Variable INVALID_PAGE_ID : Z.
Variable PAGE_SIZE : nat.
Variable evict0 : bool.
Variable k0 : Z.
Variable node_lt : HeapNode.t → HeapNode.t → bool.
Implicit Types (s : BufferPoolManagerInstance.t) (p : Page.t) (page_id frame_id : Z).

Local Abbreviation page := (BufferPoolManagerInstance.page INVALID_PAGE_ID PAGE_SIZE).
Local Abbreviation NewPgImp :=
  (BufferPoolManagerInstance.NewPgImp hash INVALID_PAGE_ID PAGE_SIZE evict0 k0 node_lt).
Local Abbreviation UnpinPgImp :=
  (BufferPoolManagerInstance.UnpinPgImp hash INVALID_PAGE_ID PAGE_SIZE).
Local Abbreviation DeletePgImp :=
  (BufferPoolManagerInstance.DeletePgImp hash INVALID_PAGE_ID PAGE_SIZE).
Local Abbreviation resident s page_id :=
  (ExtendibleHashTable.Find hash (BufferPoolManagerInstance.page_table_ s) page_id).

Lemma NewPgImp_pages_length fuel s out s' :
  NewPgImp fuel s = Ret (out, s') →
  length (BufferPoolManagerInstance.pages_ s') = length (BufferPoolManagerInstance.pages_ s).
Proof.
  unfold BufferPoolManagerInstance.NewPgImp. intros E.
  destruct (negb _); [by inversion E|].
  destruct (BufferPoolManagerInstance.pick_frame _ _ _ s) as [[f s1]|] eqn:Ep; [|by inversion E].
  apply pick_frame_keeps in Ep as (Hp & _).
  cbv zeta in E.
  remember (BufferPoolManagerInstance.drop_tenant hash INVALID_PAGE_ID PAGE_SIZE s1 f) as s2 eqn:Hs2.
  assert (Hl2 : length (BufferPoolManagerInstance.pages_ s2) = length (BufferPoolManagerInstance.pages_ s))
    by (subst s2; by rewrite drop_tenant_length, Hp).
  clear Hs2.
  apply bind_Ret_inv in E as (s6 & E6 & E).
  apply bind_frame_effect in E6 as (Hp6 & _). injection E as _ Es. subst s6.
  rewrite Hp6, !length_set_page. simpl. exact Hl2.
Qed.

(** X21.  A page that [NewPgImp] has just returned cannot be deleted: while
    its pin is held [DeletePgImp] on the new page id returns [false] and
    changes nothing. *)
Theorem new_page_cannot_be_deleted fuel s page_id frame_id s' :
  ExtendibleHashTable.dir_ok (BufferPoolManagerInstance.page_table_ s) →
  NewPgImp fuel s = Ret (Some (page_id, frame_id), s') →
  (0 ≤ frame_id < Z.of_nat (length (BufferPoolManagerInstance.pages_ s)))%Z →
  (0 ≤ Page.pin_count_ (page s frame_id))%Z →
  DeletePgImp s' page_id = (false, s').
Proof.
  intros Hok E Hf Hpin.
  destruct (NewPgImp_resident _ _ _ _ _ _ _ _ _ _ _ Hok E) as (Hr & _).
  destruct (NewPgImp_frame _ _ _ _ _ _ _ _ _ _ _ E Hf) as (_ & _ & Hp).
  unfold BufferPoolManagerInstance.DeletePgImp. rewrite Hr, Hp.
  unfold Page.GetPinCount. simpl. by rewrite bool_decide_eq_true_2 by lia.
Qed.

(** X22.  A page that [NewPgImp] put into an unpinned frame can be unpinned
    once: [UnpinPgImp] returns [true], the pin count is back at 0, the dirty
    flag is the one given, and the replacer now holds the frame evictable. *)
Theorem new_page_then_unpin fuel s page_id frame_id s1 is_dirty :
  ExtendibleHashTable.dir_ok (BufferPoolManagerInstance.page_table_ s) →
  NewPgImp fuel s = Ret (Some (page_id, frame_id), s1) →
  (0 ≤ frame_id < Z.of_nat (length (BufferPoolManagerInstance.pages_ s)))%Z →
  Page.pin_count_ (page s frame_id) = 0%Z →
  ∃ s2,
    UnpinPgImp s1 page_id is_dirty = Ret (true, s2) ∧
    page s2 frame_id = Page.mk page_id 0 is_dirty (Page.data_ (page s frame_id)) ∧
    ∃ n, LRUKReplacer.node_map_ (BufferPoolManagerInstance.replacer_ s2) !! frame_id = Some n ∧
         HeapNode.evict_ n = true.
Proof.
  intros Hok E Hf Hpin.
  destruct (NewPgImp_resident _ _ _ _ _ _ _ _ _ _ _ Hok E) as (Hr & _ & n & Hn & _).
  destruct (NewPgImp_frame _ _ _ _ _ _ _ _ _ _ _ E Hf) as (_ & _ & Hp).
  pose proof (NewPgImp_pages_length _ _ _ _ E) as Hlen.
  rewrite Hpin in Hp. simpl in Hp.
  destruct (UnpinPgImp_effect hash INVALID_PAGE_ID PAGE_SIZE s1 page_id is_dirty frame_id Hr)
    as (s2 & Eu & Hp2 & _ & _ & _ & _ & Hrep).
  - by rewrite Hlen.
  - by rewrite Hp.
  - intros _. by eexists.
  - exists s2. split; [exact Eu|]. rewrite Hp in Hp2, Hrep. simpl in Hp2, Hrep.
    split; [exact Hp2|exact Hrep].
Qed.


End ManagerCompose.

(** ** Examples for the manager properties *)

(** Three free frames: the first new page is page 0, in frame 2, pinned
    once. *)
Lemma NewPgImp_sets_up_frame_witness :
  ∃ s', Sample.NewPgImp 8 (Sample.new 3 Sample.empty_disk) = Ret (Some (0%Z, 2%Z), s') ∧
    BufferPoolManagerInstance.next_page_id_ s' = 1%Z ∧
    Sample.page s' 2%Z = Page.mk 0 1 false (Page.zeroed 8).
Proof.
  eexists. split; [vm_compute; reflexivity|].
  match goal with |- BufferPoolManagerInstance.next_page_id_ ?s' = _ ∧ _ =>
    destruct (NewPgImp_sets_up_frame hash_int (-1) 8 Sample.evict0 Sample.k0 HeapNode.lt 8
                (Sample.new 3 Sample.empty_disk) 0%Z 2%Z s') as (_ & Hn & Hp)
  end.
  - vm_compute. reflexivity.
  - vm_compute. split; discriminate || reflexivity.
  - split; [exact Hn|exact Hp].
Defined.

(** The only victim is dirty: the new page makes one write, of page 7. *)
Lemma NewPgImp_writes_back_dirty_victim_witness :
  ∃ s s', Scenario.dirty_victim = Ret s ∧
    Sample.NewPgImp 8 s = Ret (Some (1%Z, 1%Z), s') ∧
    DiskManager.log_ (BufferPoolManagerInstance.disk_manager_ s')
      = [DiskManager.Read 7; DiskManager.Write 7 (replicate 8 Byte.x01)].
Proof.
  eexists. eexists. split; [vm_compute; reflexivity|].
  match goal with |- Sample.NewPgImp 8 ?s = _ ∧ _ => pose (s0 := s) end.
  split; [vm_compute; reflexivity|].
  rewrite (NewPgImp_writes_back_dirty_victim hash_int (-1) 8 Sample.evict0 Sample.k0 HeapNode.lt 8
             s0 1%Z 1%Z).
  - vm_compute. reflexivity.
  - vm_compute. reflexivity.
Defined.


(** The first new page of a fresh manager is resident in frame 2. *)
Lemma NewPgImp_makes_resident_witness :
  ∃ s', Sample.NewPgImp 8 (Sample.new 3 Sample.empty_disk) = Ret (Some (0%Z, 2%Z), s') ∧
    ExtendibleHashTable.dir_ok (BufferPoolManagerInstance.page_table_ (Sample.new 3 Sample.empty_disk)) ∧
    ExtendibleHashTable.Find hash_int (BufferPoolManagerInstance.page_table_ s') 0%Z = Some 2%Z.
Proof.
  eexists. split; [vm_compute; reflexivity|].
  assert (Hok : ExtendibleHashTable.dir_ok
                  (BufferPoolManagerInstance.page_table_ (Sample.new 3 Sample.empty_disk)))
    by apply new_dir_ok.
  split; [exact Hok|].
  match goal with |- ExtendibleHashTable.Find _ (BufferPoolManagerInstance.page_table_ ?s') _ = _ =>
    destruct (NewPgImp_makes_resident hash_int (-1) 8 Sample.evict0 Sample.k0 HeapNode.lt 8
                (Sample.new 3 Sample.empty_disk) 0%Z 2%Z s' Hok) as (Hr & _)
  end.
  - vm_compute. reflexivity.
  - exact Hr.
Defined.



(** Frame 0 holds page 0 (clean), frame 1 holds page 7 (dirty): two writes,
    both frames clean afterwards. *)
Lemma FlushAllPgsImp_flushes_bound_frames_witness :
  ∃ s, Scenario.dirty_victim = Ret s ∧
    BufferPoolManagerInstance.pool_size_ s = length (BufferPoolManagerInstance.pages_ s) ∧
    DiskManager.writes (BufferPoolManagerInstance.disk_manager_
                          (BufferPoolManagerInstance.FlushAllPgsImp (-1) 8 s)) = 2%nat ∧
    Page.is_dirty_ <$> BufferPoolManagerInstance.pages_ (BufferPoolManagerInstance.FlushAllPgsImp (-1) 8 s)
      = [false; false].
Proof.
  eexists. split; [vm_compute; reflexivity|]. split; [reflexivity|].
  match goal with |- context [BufferPoolManagerInstance.FlushAllPgsImp _ _ ?s] =>
    destruct (FlushAllPgsImp_flushes_bound_frames (-1) 8 s eq_refl) as (Hp & _)
  end.
  split; [vm_compute; reflexivity|]. rewrite Hp. vm_compute. reflexivity.
Defined.

(** The new page 0 is pinned: it cannot be deleted. *)
Lemma new_page_cannot_be_deleted_witness :
  ∃ s', Sample.NewPgImp 8 (Sample.new 3 Sample.empty_disk) = Ret (Some (0%Z, 2%Z), s') ∧
    Sample.DeletePgImp s' 0%Z = (false, s').
Proof.
  eexists. split; [vm_compute; reflexivity|].
  unfold Sample.DeletePgImp.
  eapply (new_page_cannot_be_deleted hash_int (-1) 8 Sample.evict0 Sample.k0 HeapNode.lt 8
            (Sample.new 3 Sample.empty_disk) 0%Z 2%Z).
  - apply new_dir_ok.
  - vm_compute. reflexivity.
  - vm_compute. split; discriminate || reflexivity.
  - vm_compute. discriminate.
Defined.

(** The new page 0 is unpinned clean, and frame 2 becomes evictable. *)
Lemma new_page_then_unpin_witness :
  ∃ s1 s2, Sample.NewPgImp 8 (Sample.new 3 Sample.empty_disk) = Ret (Some (0%Z, 2%Z), s1) ∧
    Sample.UnpinPgImp s1 0%Z false = Ret (true, s2) ∧
    Page.pin_count_ (Sample.page s2 2%Z) = 0%Z.
Proof.
  eexists. eexists. split; [vm_compute; reflexivity|].
  match goal with |- Sample.UnpinPgImp ?s1 _ _ = _ ∧ _ =>
    destruct (new_page_then_unpin hash_int (-1) 8 Sample.evict0 Sample.k0 HeapNode.lt 8
                (Sample.new 3 Sample.empty_disk) 0%Z 2%Z s1 false) as (s2 & E & Hp & _)
  end.
  - apply new_dir_ok.
  - vm_compute. reflexivity.
  - vm_compute. split; discriminate || reflexivity.
  - vm_compute. reflexivity.
  - split; [vm_compute; reflexivity|]. vm_compute. reflexivity.
Defined.


(** ** The LRU replacer and its linked list *)

Section LRUList.

Import LRUReplacer.

Implicit Types (h : list DqueueNode) (c m : list (nat * Z)) (r : t).

Lemma seg_frame h prev c nxt a nd :
  a ∉ c.*1 → seg h prev c nxt → seg (<[a := nd]> h) prev c nxt.
Proof.
  revert prev. induction c as [|[b f] c IH]; intros prev Hn; [done|].
  cbn [seg]. intros [H1 H2]. rewrite fmap_cons in Hn. cbn in Hn.
  apply not_elem_of_cons in Hn as [Hab Hn]. split.
  - by rewrite list_lookup_insert_ne.
  - by apply IH.
Qed.

Lemma seg_alloc h prev c nxt nd :
  seg h prev c nxt → seg (h ++ [nd]) prev c nxt.
Proof.
  revert prev. induction c as [|[b f] c IH]; intros prev; [done|].
  cbn [seg]. intros [H1 H2]. split; [by apply lookup_app_l_Some|by apply IH].
Qed.

Lemma seg_lt h prev c nxt a :
  seg h prev c nxt → a ∈ c.*1 → (a < length h)%nat.
Proof.
  revert prev. induction c as [|[b f] c IH]; intros prev.
  - intros _ Ha. by apply elem_of_nil in Ha.
  - cbn [seg]. intros [H1 H2]. rewrite fmap_cons. cbn.
    intros [->|Ha]%elem_of_cons; [exact (lookup_lt_Some _ _ _ H1)|exact (IH _ H2 Ha)].
Qed.

Lemma head_addr_app c1 c2 nxt :
  head_addr (c1 ++ c2) nxt = head_addr c1 (head_addr c2 nxt).
Proof. by destruct c1 as [|[??] ?]. Qed.

Lemma last_addr_cons prev a f c :
  last_addr prev ((a, f) :: c) = last_addr (Some a) c.
Proof.
  unfold last_addr. destruct c as [|[b g] c]; [done|].
  change (last ((a, f) :: (b, g) :: c)) with (last ((b, g) :: c)).
  destruct (last ((b, g) :: c)) as [[??]|] eqn:E; [done|].
  by apply last_None in E.
Qed.

Lemma last_addr_snoc prev c a f : last_addr prev (c ++ [(a, f)]) = Some a.
Proof. unfold last_addr. by rewrite last_snoc. Qed.

Lemma seg_app h prev c1 c2 nxt :
  seg h prev (c1 ++ c2) nxt ↔
  seg h prev c1 (head_addr c2 nxt) ∧ seg h (last_addr prev c1) c2 nxt.
Proof.
  revert prev. induction c1 as [|[a f] c1 IH]; intros prev.
  - cbn. tauto.
  - rewrite <- app_comm_cons. cbn [seg].
    rewrite head_addr_app, last_addr_cons, IH. tauto.
Qed.

(** Unlinking a node that has a node before it and a node after it. *)
Lemma RemoveNode_middle r c1 p fp n fn x fx c2 :
  NoDup (c1 ++ (p, fp) :: (n, fn) :: (x, fx) :: c2).*1 →
  seg (heap_ r) None (c1 ++ (p, fp) :: (n, fn) :: (x, fx) :: c2) None →
  ∃ h', RemoveNode r (Some n) = Some (set_heap r h') ∧
        length h' = length (heap_ r) ∧
        seg h' None (c1 ++ (p, fp) :: (x, fx) :: c2) None.
Proof.
  intros Hnd Hseg.
  rewrite fmap_app, !fmap_cons in Hnd. cbn [fst] in Hnd.
  apply NoDup_app in Hnd as (_ & Hc1 & Hnd).
  apply NoDup_cons in Hnd as [Hp Hnd].
  apply NoDup_cons in Hnd as [Hn Hnd].
  apply NoDup_cons in Hnd as [Hx _].
  apply not_elem_of_cons in Hp as (Hpn & (Hpx & Hpc2)%not_elem_of_cons).
  apply not_elem_of_cons in Hn as (Hnx & _).
  assert (p ∉ c1.*1) as Hpc1.
  { intros Hin. apply (Hc1 _ Hin). rewrite !elem_of_cons. auto. }
  assert (x ∉ c1.*1) as Hxc1.
  { intros Hin. apply (Hc1 _ Hin). rewrite !elem_of_cons. auto. }
  rename Hx into Hxc2.
  apply seg_app in Hseg as [Hs1 Hs2]. cbn [head_addr] in Hs1.
  cbn [seg head_addr] in Hs2. destruct Hs2 as (Ep & En & Ex & Hs2).
  pose proof (lookup_lt_Some _ _ _ Ep) as Lp.
  pose proof (lookup_lt_Some _ _ _ Ex) as Lx.
  unfold RemoveNode. cbn [mbind option_bind]. rewrite En. cbn [mbind option_bind pre_ next_].
  rewrite Ep. cbn [mbind option_bind].
  rewrite (list_lookup_insert_ne _ p n) by done. rewrite En.
  cbn [mbind option_bind pre_ next_].
  rewrite (list_lookup_insert_ne _ p x) by done. rewrite Ex.
  cbn [mbind option_bind].
  eexists. split; [reflexivity|]. split; [by rewrite !length_insert|].
  apply seg_app. split.
  - cbn [head_addr]. by repeat (apply seg_frame; [done|]).
  - cbn [seg head_addr]. split; [|split].
    + rewrite list_lookup_insert_ne by done.
      by rewrite list_lookup_insert_eq.
    + rewrite list_lookup_insert_eq; [done|by rewrite length_insert].
    + by repeat (apply seg_frame; [done|]).
Qed.

(** Linking a fresh node in after [dummy_]. *)
Lemma AddToHead_seg r a f x fx c2 :
  heap_ r !! a = Some (mkNode None None f) →
  NoDup (dummy_ r :: a :: x :: c2.*1) →
  seg (heap_ r) None ((dummy_ r, 0%Z) :: (x, fx) :: c2) None →
  ∃ h', AddToHead r a = Some (set_heap r h') ∧
        length h' = length (heap_ r) ∧
        seg h' None ((dummy_ r, 0%Z) :: (a, f) :: (x, fx) :: c2) None.
Proof.
  intros Ea Hnd Hseg.
  apply NoDup_cons in Hnd as [Hd Hnd].
  apply NoDup_cons in Hnd as [Ha Hnd].
  apply NoDup_cons in Hnd as [Hx _].
  apply not_elem_of_cons in Hd as (Hda & (Hdx & Hdc)%not_elem_of_cons).
  apply not_elem_of_cons in Ha as (Hax & Hac).
  cbn [seg head_addr] in Hseg. destruct Hseg as (Ed & Ex & Hs).
  pose proof (lookup_lt_Some _ _ _ Ea) as La.
  pose proof (lookup_lt_Some _ _ _ Ed) as Ld.
  pose proof (lookup_lt_Some _ _ _ Ex) as Lx.
  unfold AddToHead. rewrite Ea. cbn [mbind option_bind]. rewrite Ed.
  cbn [mbind option_bind next_].
  rewrite list_lookup_insert_eq by done. cbn [mbind option_bind].
  rewrite (list_lookup_insert_ne _ a (dummy_ r)) by done.
  rewrite (list_lookup_insert_ne _ a (dummy_ r)) by done.
  rewrite Ed. cbn [mbind option_bind next_].
  rewrite (list_lookup_insert_ne _ a x) by done.
  rewrite (list_lookup_insert_ne _ a x) by done.
  rewrite Ex. cbn [mbind option_bind].
  rewrite (list_lookup_insert_ne _ x (dummy_ r)) by done.
  rewrite (list_lookup_insert_ne _ a (dummy_ r)) by done.
  rewrite (list_lookup_insert_ne _ a (dummy_ r)) by done.
  rewrite Ed. cbn [mbind option_bind].
  eexists. split; [reflexivity|]. split; [by rewrite !length_insert|].
  cbn [seg head_addr]. split; [|split; [|split]].
  - rewrite list_lookup_insert_eq; [done|by rewrite !length_insert].
  - rewrite list_lookup_insert_ne by done.
    rewrite list_lookup_insert_ne by done.
    rewrite list_lookup_insert_eq; [done|by rewrite !length_insert].
  - rewrite list_lookup_insert_ne by done.
    rewrite list_lookup_insert_eq; [done|by rewrite !length_insert].
  - by repeat (apply seg_frame; [done|]).
Qed.

End LRUList.

Section LRUQueue.

Import LRUReplacer.

Implicit Types (h : list DqueueNode) (c m : list (nat * Z)) (r : t) (l : list Z).

Lemma cons_snoc {A} (x : A) (k : list A) : ∃ k' y, x :: k = k' ++ [y].
Proof.
  revert x. induction k as [|z k IH]; intros x.
  - by exists [], x.
  - destruct (IH z) as (k' & y & E). exists (x :: k'), y. by rewrite E.
Qed.

Lemma new_linked n : linked (new n) [].
Proof.
  unfold linked, new. cbn. split; [|split; [|split; [|split]]].
  - apply NoDup_cons. split; [|apply NoDup_singleton].
    by intros ?%list_elem_of_singleton.
  - apply NoDup_nil_2.
  - done.
  - intros f a. rewrite lookup_empty. split; [done|]. by intros ?%elem_of_nil.
  - done.
Qed.

Lemma linked_absent r m f : linked r m → f ∉ m.*2 → node_map_ r !! f = None.
Proof.
  intros (_ & _ & _ & Hmap & _) Hf.
  destruct (node_map_ r !! f) as [a|] eqn:E; [|done].
  apply Hmap in E. destruct Hf. apply list_elem_of_fmap. by exists (a, f).
Qed.

Lemma linked_held r m1 n f m2 :
  linked r (m1 ++ (n, f) :: m2) → node_map_ r !! f = Some n.
Proof.
  intros (_ & _ & _ & Hmap & _). apply Hmap.
  apply elem_of_app. right. apply elem_of_cons. by left.
Qed.

(** The node before [tail_]: the last node of the list, or [dummy_]. *)
Lemma tail_node r m :
  linked r m →
  ∃ p pd, heap_ r !! tail_ r = Some (mkNode (Some p) None 0) ∧
          heap_ r !! p = Some pd ∧ p ≠ tail_ r ∧
          cur_frame_ pd = match last m with Some (_, f) => f | None => 0%Z end.
Proof.
  intros (Hnd & _ & _ & _ & Hseg).
  destruct (cons_snoc (dummy_ r, 0%Z) m) as (c1 & [p fp] & E).
  rewrite app_comm_cons, E in Hseg.
  rewrite <- app_assoc in Hseg. apply seg_app in Hseg as [_ Hseg].
  cbn [app seg head_addr] in Hseg. destruct Hseg as (Ep & Et & _).
  exists p, (mkNode (last_addr None c1) (Some (tail_ r)) fp).
  split; [done|]. split; [done|]. split.
  - intros ->. rewrite Ep in Et. congruence.
  - cbn [cur_frame_]. destruct m as [|y m' _] using rev_ind.
    + cbn in E. destruct c1 as [|? [|??]]; by simplify_eq/=.
    + rewrite app_comm_cons in E. apply app_inj_tail in E as [_ ->].
      by rewrite last_snoc.
Qed.

Lemma GetTail_linked r m :
  linked r m →
  GetTail r = Some (match last m with Some (_, f) => f | None => 0%Z end).
Proof.
  intros H. destruct (tail_node r m H) as (p & pd & Et & Ep & _ & Ef).
  unfold GetTail. rewrite Et. cbn. rewrite Ep. cbn. by rewrite Ef.
Qed.

(** [RemoveNode] on the sentinel [tail_] reads through its null [next_]. *)
Lemma RemoveNode_tail r m :
  linked r m → RemoveNode r (Some (tail_ r)) = None.
Proof.
  intros H. destruct (tail_node r m H) as (p & pd & Et & Ep & Hpt & _).
  unfold RemoveNode. cbn. rewrite Et. cbn. rewrite Ep. cbn.
  rewrite list_lookup_insert_ne by done. by rewrite Et.
Qed.

(** Unlinking a node of the list, with the bookkeeping [Pin] and [Victim]
    do after it. *)
Lemma RemoveNode_linked r m1 n f m2 :
  linked r (m1 ++ (n, f) :: m2) →
  ∃ h', RemoveNode r (Some n) = Some (set_heap r h') ∧
        linked (set_size (set_node_map (set_heap r h') (delete f (node_map_ r)))
                         (size_ r - 1)) (m1 ++ m2).
Proof.
  intros (Hnd & Hnf & Hsz & Hmap & Hseg).
  destruct (cons_snoc (dummy_ r, 0%Z) m1) as (c1 & [p fp] & E1).
  assert (∃ x fx c2, m2 ++ [(tail_ r, 0%Z)] = (x, fx) :: c2) as (x & fx & c2 & E2).
  { destruct m2 as [|[x fx] m2]; cbn; eauto. }
  assert ((dummy_ r, 0%Z) :: (m1 ++ (n, f) :: m2) ++ [(tail_ r, 0%Z)]
          = c1 ++ (p, fp) :: (n, f) :: (x, fx) :: c2) as Ec.
  { rewrite <- app_assoc, <- app_comm_cons, E2, app_comm_cons, E1.
    by rewrite <- app_assoc. }
  assert ((dummy_ r, 0%Z) :: (m1 ++ m2) ++ [(tail_ r, 0%Z)]
          = c1 ++ (p, fp) :: (x, fx) :: c2) as Ec'.
  { rewrite <- app_assoc, E2, app_comm_cons, E1. by rewrite <- app_assoc. }
  assert ((dummy_ r :: (m1 ++ (n, f) :: m2).*1 ++ [tail_ r])
          = ((dummy_ r, 0%Z) :: (m1 ++ (n, f) :: m2) ++ [(tail_ r, 0%Z)]).*1) as Ef.
  { by rewrite fmap_cons, !fmap_app. }
  rewrite Ef, Ec in Hnd. rewrite Ec in Hseg.
  destruct (RemoveNode_middle r c1 p fp n f x fx c2 Hnd Hseg) as (h' & E & Hlen & Hs').
  exists h'. split; [done|].
  unfold linked. cbn [dummy_ tail_ size_ node_map_ heap_ set_size set_node_map set_heap].
  split; [|split; [|split; [|split]]].
  - assert ((dummy_ r :: (m1 ++ m2).*1 ++ [tail_ r])
            = ((dummy_ r, 0%Z) :: (m1 ++ m2) ++ [(tail_ r, 0%Z)]).*1) as ->.
    { by rewrite fmap_cons, !fmap_app. }
    rewrite Ec'. revert Hnd. rewrite !fmap_app, !fmap_cons. cbn [fst].
    rewrite !NoDup_app, !NoDup_cons, !elem_of_cons.
    intros (H1 & H2 & H3 & H4 & H5 & H6). split; [done|]. split; [|tauto].
    intros y Hy. specialize (H2 y Hy). rewrite !elem_of_cons in H2.
    rewrite !elem_of_cons. tauto.
  - revert Hnf. rewrite !fmap_app, fmap_cons. cbn [snd].
    rewrite !NoDup_app, NoDup_cons. intros (H1 & H2 & H3 & H4).
    split; [done|]. split; [|done].
    intros y Hy. specialize (H2 y Hy). rewrite elem_of_cons in H2. tauto.
  - rewrite Hsz, !length_app. cbn [length]. lia.
  - intros f' a'. destruct (decide (f' = f)) as [->|Hne].
    + rewrite lookup_delete_eq. split; [done|]. intros Hin. exfalso.
      revert Hnf. rewrite !fmap_app, fmap_cons. cbn [snd].
      rewrite !NoDup_app, NoDup_cons. intros (H1 & H2 & H3 & H4).
      apply elem_of_app in Hin as [Hin|Hin].
      * apply (H2 f); [|apply elem_of_cons; by left].
        apply list_elem_of_fmap. by exists (a', f).
      * apply H3. apply list_elem_of_fmap. by exists (a', f).
    + rewrite lookup_delete_ne by done. split.
      * intros Hin%Hmap. revert Hin. rewrite !elem_of_app, elem_of_cons.
        intros [?|[?|?]]; [tauto| |tauto]. by simplify_eq.
      * intros Hin. apply Hmap. revert Hin. rewrite !elem_of_app, elem_of_cons.
        tauto.
  - by rewrite Ec'.
Qed.

Lemma Unpin_held r m f : linked r m → f ∈ m.*2 → Unpin r f = Some r.
Proof.
  intros (_ & _ & _ & Hmap & _) Hf.
  apply list_elem_of_fmap in Hf as ([a f'] & -> & Hin).
  apply Hmap in Hin. cbn [snd]. unfold Unpin. by rewrite Hin.
Qed.

Lemma Unpin_full r m f :
  linked r m → f ∉ m.*2 → size_ r = capacity_ r → Unpin r f = None.
Proof.
  intros H Hf Hcap. unfold Unpin. rewrite (linked_absent r m f H Hf).
  rewrite decide_True by done.
  destruct (tail_node r m H) as (p & pd & Et & Ep & Hpt & _).
  rewrite Et. cbn [mbind option_bind cur_frame_].
  unfold RemoveNode. cbn. rewrite Et. cbn. rewrite Ep. cbn.
  rewrite list_lookup_insert_ne by done. by rewrite Et.
Qed.

Lemma Unpin_fresh r m f :
  linked r m → f ∉ m.*2 → size_ r ≠ capacity_ r →
  ∃ r', Unpin r f = Some r' ∧ linked r' ((length (heap_ r), f) :: m) ∧
        capacity_ r' = capacity_ r.
Proof.
  intros H Hf Hcap. pose proof H as (Hnd & Hnf & Hsz & Hmap & Hseg).
  unfold Unpin. rewrite (linked_absent r m f H Hf).
  rewrite decide_False by done. cbn [mbind option_bind].
  set (a := length (heap_ r)).
  set (r3 := set_node_map _ _).
  assert (∃ x fx c2, m ++ [(tail_ r, 0%Z)] = (x, fx) :: c2) as (x & fx & c2 & E2).
  { destruct m as [|[x fx] m']; cbn; eauto. }
  assert ((dummy_ r :: m.*1 ++ [tail_ r])
          = ((dummy_ r, 0%Z) :: m ++ [(tail_ r, 0%Z)]).*1) as Ef.
  { by rewrite fmap_cons, !fmap_app. }
  assert (a ∉ dummy_ r :: m.*1 ++ [tail_ r]) as Ha.
  { intros Hin. rewrite Ef in Hin. apply (seg_lt _ _ _ _ _ Hseg) in Hin. unfold a in Hin. lia. }
  assert (heap_ r3 !! a = Some (mkNode None None f)) as Ea.
  { cbn. unfold a. by apply list_lookup_middle. }
  assert (NoDup (dummy_ r3 :: a :: x :: c2.*1)) as Hnd3.
  { cbn [r3 dummy_ set_node_map set_heap].
    assert (x :: c2.*1 = m.*1 ++ [tail_ r]) as Ex.
    { change (x :: c2.*1) with (((x, fx) :: c2).*1). rewrite <- E2. by rewrite fmap_app. }
    rewrite Ex. apply NoDup_cons in Hnd as [Hd Hnd].
    apply not_elem_of_cons in Ha as [Had Ha].
    apply NoDup_cons. split.
    - apply not_elem_of_cons. split; [done|done].
    - apply NoDup_cons. by split. }
  assert (seg (heap_ r3) None ((dummy_ r3, 0%Z) :: (x, fx) :: c2) None) as Hseg3.
  { cbn [r3 dummy_ heap_ set_node_map set_heap]. rewrite <- E2. by apply seg_alloc. }
  destruct (AddToHead_seg r3 a f x fx c2 Ea Hnd3 Hseg3) as (h' & E & Hlen & Hs').
  rewrite E. cbn [mbind option_bind]. eexists. split; [reflexivity|].
  split; [|done].
  unfold linked. cbn [r3 dummy_ tail_ size_ node_map_ heap_ set_size set_node_map set_heap].
  split; [|split; [|split; [|split]]].
  - rewrite fmap_cons. cbn [fst]. apply NoDup_cons in Hnd as [Hd Hnd].
    apply not_elem_of_cons in Ha as [Had Ha].
    apply NoDup_cons. split.
    + apply not_elem_of_cons. by split.
    + rewrite <- app_comm_cons. apply NoDup_cons. by split.
  - rewrite fmap_cons. cbn [snd]. apply NoDup_cons. by split.
  - rewrite Hsz. cbn [length]. lia.
  - intros f' a'. rewrite elem_of_cons. destruct (decide (f' = f)) as [->|Hne].
    + rewrite lookup_insert_eq. split.
      * intros [= <-]. by left.
      * intros [[= ->]|Hin]; [done|]. destruct Hf.
        apply list_elem_of_fmap. by exists (a', f).
    + rewrite lookup_insert_ne by done. split.
      * intros Hin%Hmap. by right.
      * intros [?|?]; [by simplify_eq|by apply Hmap].
  - cbn [r3 dummy_ set_node_map set_heap] in Hs'.
    rewrite <- app_comm_cons, E2. exact Hs'.
Qed.

Lemma Pin_held r m1 n f m2 :
  linked r (m1 ++ (n, f) :: m2) →
  ∃ r', Pin r f = Some r' ∧ linked r' (m1 ++ m2) ∧ capacity_ r' = capacity_ r.
Proof.
  intros H. unfold Pin. rewrite (linked_held r m1 n f m2 H).
  destruct (RemoveNode_linked r m1 n f m2 H) as (h' & E & Hl).
  rewrite E. cbn [mbind option_bind]. eexists. split; [reflexivity|].
  split; [exact Hl|done].
Qed.

Lemma Pin_absent r m f : linked r m → f ∉ m.*2 → Pin r f = Some r.
Proof. intros H Hf. unfold Pin. by rewrite (linked_absent r m f H Hf). Qed.

Lemma Victim_last r m n f out :
  linked r (m ++ [(n, f)]) → f ≠ (-1)%Z →
  ∃ r', Victim r out = Some (r', f, true) ∧ linked r' m ∧
        capacity_ r' = capacity_ r.
Proof.
  intros H Hf. unfold Victim. rewrite (GetTail_linked r _ H), last_snoc.
  cbn [mbind option_bind]. rewrite decide_False by done.
  rewrite (linked_held r m n f [] H).
  destruct (RemoveNode_linked r m n f [] H) as (h' & E & Hl).
  rewrite E. cbn [mbind option_bind]. eexists. split; [reflexivity|].
  rewrite app_nil_r in Hl. split; [exact Hl|done].
Qed.

Lemma Victim_minus_one r m n out :
  linked r (m ++ [(n, (-1)%Z)]) → Victim r out = Some (r, out, false).
Proof.
  intros H. unfold Victim. rewrite (GetTail_linked r _ H), last_snoc.
  cbn [mbind option_bind]. by rewrite decide_True.
Qed.

Lemma Victim_empty r out : linked r [] → Victim r out = None.
Proof.
  intros H. unfold Victim. rewrite (GetTail_linked r _ H).
  cbn [last mbind option_bind]. rewrite decide_False by done.
  by rewrite (linked_absent r [] 0%Z H) by apply not_elem_of_nil.
Qed.

(** Every call that is defined keeps the list, and the list stays within a
    capacity that is not negative. *)
Lemma step_linked r m (c : call) r' :
  linked r m → step r c = Some r' →
  ∃ m', linked r' m' ∧ capacity_ r' = capacity_ r ∧
        (Z.of_nat (length m) ≤ capacity_ r → Z.of_nat (length m') ≤ capacity_ r)%Z.
Proof.
  intros H E. destruct c as [|f|f]; cbn [step] in E.
  - destruct m as [|[n f] m _] using rev_ind.
    + by rewrite (Victim_empty r 0%Z H) in E.
    + destruct (decide (f = (-1)%Z)) as [->|Hf].
      * rewrite (Victim_minus_one r m n 0%Z H) in E. cbn in E.
        injection E as <-. by exists (m ++ [(n, (-1)%Z)]).
      * destruct (Victim_last r m n f 0%Z H Hf) as (r1 & E1 & H1 & C1).
        rewrite E1 in E. cbn in E. injection E as <-. exists m.
        split; [done|]. split; [done|]. rewrite length_app. lia.
  - destruct (decide (f ∈ m.*2)) as [Hin|Hout].
    + apply list_elem_of_fmap in Hin as ([n f'] & -> & Hin). cbn [snd] in *.
      apply list_elem_of_split in Hin as (m1 & m2 & ->).
      destruct (Pin_held r m1 n f' m2 H) as (r1 & E1 & H1 & C1).
      rewrite E1 in E. injection E as <-. exists (m1 ++ m2).
      split; [done|]. split; [done|]. rewrite !length_app. cbn [length]. lia.
    + rewrite (Pin_absent r m f H Hout) in E. injection E as <-. by exists m.
  - destruct (decide (f ∈ m.*2)) as [Hin|Hout].
    + rewrite (Unpin_held r m f H Hin) in E. injection E as <-. by exists m.
    + destruct (decide (size_ r = capacity_ r)) as [Hc|Hc].
      * by rewrite (Unpin_full r m f H Hout Hc) in E.
      * destruct (Unpin_fresh r m f H Hout Hc) as (r1 & E1 & H1 & C1).
        rewrite E1 in E. injection E as <-. eexists. split; [exact H1|].
        split; [done|]. destruct H as (_ & _ & Hsz & _). cbn [length]. lia.
Qed.

Lemma run_linked cs : ∀ r m r',
  linked r m → (Z.of_nat (length m) ≤ capacity_ r)%Z → run r cs = Some r' →
  ∃ m', linked r' m' ∧ capacity_ r' = capacity_ r ∧
        (Z.of_nat (length m') ≤ capacity_ r)%Z.
Proof.
  induction cs as [|c cs IH]; intros r m r' H Hc E; cbn [run] in E.
  - injection E as <-. by exists m.
  - destruct (step r c) as [r1|] eqn:E1; [|done]. cbn in E.
    destruct (step_linked r m c r1 H E1) as (m1 & H1 & C1 & L1).
    destruct (IH r1 m1 r' H1) as (m' & H' & C' & L'); [rewrite C1; auto|done|].
    exists m'. by rewrite <- C1.
Qed.

(** A list of nodes can be checked against a replacer by computation: the
    map is then compared with the map built from the list. *)
Lemma linked_of_list r m :
  NoDup (dummy_ r :: m.*1 ++ [tail_ r]) → NoDup m.*2 →
  size_ r = Z.of_nat (length m) →
  node_map_ r = list_to_map (prod_swap <$> m) →
  seg (heap_ r) None ((dummy_ r, 0%Z) :: m ++ [(tail_ r, 0%Z)]) None →
  linked r m.
Proof.
  intros Hnd Hnf Hsz Hmap Hseg. split; [done|]. split; [done|].
  split; [done|]. split; [|done].
  assert ((prod_swap <$> m).*1 = m.*2) as Efst.
  { rewrite <- list_fmap_compose. by apply list_fmap_ext; intros ? []. }
  intros f a. rewrite Hmap, <- elem_of_list_to_map by by rewrite Efst.
  rewrite list_elem_of_fmap. split.
  - intros ([a' f'] & [= -> ->] & Hin). done.
  - intros Hin. by exists (a, f).
Qed.

End LRUQueue.

Section LRUProperties.

Import LRUReplacer.

Implicit Types (r : t) (l : list Z) (f : Z).

(** X24.  [Unpin] of a frame the replacer does not hold, below capacity,
    returns and puts the frame in front of the frames held; the capacity is
    unchanged. *)
Theorem Unpin_puts_frame_in_front r l f :
  queue r l → f ∉ l → size_ r ≠ capacity_ r →
  ∃ r', Unpin r f = Some r' ∧ queue r' (f :: l) ∧ capacity_ r' = capacity_ r.
Proof.
  intros (m & H & <-) Hf Hc.
  destruct (Unpin_fresh r m f H Hf Hc) as (r' & E & H' & C).
  exists r'. split; [done|]. split; [|done]. by eexists.
Qed.

(** X25.  [Unpin] of a frame the replacer already holds changes nothing:
    the frame keeps its place in the list and is not moved to the front. *)
Theorem Unpin_of_held_frame_changes_nothing r l f :
  queue r l → f ∈ l → Unpin r f = Some r.
Proof. intros (m & H & <-) Hf. by eapply Unpin_held. Qed.

(** X26.  [Unpin] of a frame the replacer does not hold, when [size_] equals
    [capacity_], is undefined: [RemoveNode(tail_)] runs on the sentinel,
    whose [next_] is null, and dereferences it. *)
Theorem Unpin_at_capacity_is_undefined r l f :
  queue r l → f ∉ l → size_ r = capacity_ r → Unpin r f = None.
Proof. intros (m & H & <-) Hf Hc. by eapply Unpin_full. Qed.

(** X27.  [Pin] of a frame the replacer holds takes it out of the list and
    keeps the order of the others; [Pin] of any other frame changes
    nothing. *)
Theorem Pin_takes_frame_out r l f :
  queue r l →
  (f ∉ l → Pin r f = Some r) ∧
  (∀ l1 l2, l = l1 ++ f :: l2 →
     ∃ r', Pin r f = Some r' ∧ queue r' (l1 ++ l2) ∧ capacity_ r' = capacity_ r).
Proof.
  intros (m & H & <-). split.
  - intros Hf. by eapply Pin_absent.
  - intros l1 l2 E. apply fmap_app_inv in E as (m1 & m' & -> & E & ->).
    symmetry in E.
    apply fmap_cons_inv in E as ([n f'] & m2 & E & -> & ->). cbn in E. subst f'.
    destruct (Pin_held r m1 n f m2 H) as (r' & E' & H' & C).
    exists r'. split; [done|]. split; [|done]. exists (m1 ++ m2).
    split; [done|]. by rewrite fmap_app.
Qed.

(** X28.  On a replacer that holds frames, [Victim] takes the frame at the
    end of the list, the one unpinned first: it stores it in [*frame_id],
    removes it and returns true.  When that frame is -1 it returns false
    instead and changes nothing. *)
Theorem Victim_gives_oldest r l f out :
  queue r (l ++ [f]) →
  if decide (f = (-1)%Z) then Victim r out = Some (r, out, false)
  else ∃ r', Victim r out = Some (r', f, true) ∧ queue r' l ∧
             capacity_ r' = capacity_ r.
Proof.
  intros (m & H & E). apply fmap_app_inv in E as (m1 & m' & -> & E & ->).
  symmetry in E.
  apply fmap_cons_inv in E as ([n f'] & m2 & E & E2 & ->). cbn in E. subst f'.
  symmetry in E2. apply fmap_nil_inv in E2 as ->.
  destruct (decide (f = (-1)%Z)) as [->|Hf].
  - by eapply Victim_minus_one.
  - destruct (Victim_last r m1 n f out H Hf) as (r' & E' & H' & C).
    exists r'. split; [done|]. split; [|done]. by exists m1.
Qed.

(** X29.  [Victim] on a replacer that holds no frame is undefined: [GetTail]
    reads the frame id 0 of the sentinel [dummy_], which is not -1, the map
    has no node for it, and [RemoveNode] dereferences the null pointer. *)
Theorem Victim_on_empty_is_undefined r out :
  queue r [] → Victim r out = None.
Proof.
  intros (m & H & E). apply fmap_nil_inv in E as ->. by apply Victim_empty.
Qed.

(** X30.  After any sequence of [Victim], [Pin] and [Unpin] calls on a new
    replacer for [n] pages, none of them undefined, the nodes form a list
    between the sentinels that agrees with the map, [Size] is the number of
    frames held, and that number is at most [n]. *)
Theorem calls_keep_the_list (n : Z) (cs : list call) r :
  (0 ≤ n < 2 ^ 31)%Z → run (new n) cs = Some r →
  ∃ l, queue r l ∧ Size r = Z.of_nat (length l) ∧ (Z.of_nat (length l) ≤ n)%Z.
Proof.
  intros Hn E.
  assert (capacity_ (new n) = n) as Hcap.
  { cbn. unfold to_int32. rewrite Z.mod_small; lia. }
  destruct (run_linked cs (new n) [] r (new_linked n)) as (m & H & C & L);
    [rewrite Hcap; cbn; lia|done|].
  rewrite Hcap in L. exists m.*2. split; [by exists m|].
  rewrite length_fmap. split; [|done].
  destruct H as (_ & _ & Hsz & _). unfold Size, to_size_t. rewrite Hsz.
  apply Z.mod_small. lia.
Qed.

End LRUProperties.

(** *** Examples on replacers built by calls *)

(** The hypotheses of the examples are decided by computation. *)
Ltac nodup_by_computation :=
  apply (bool_decide_unpack _); vm_compute; exact I.

Ltac linked_by_computation :=
  apply linked_of_list;
  [ nodup_by_computation
  | nodup_by_computation
  | vm_compute; reflexivity
  | vm_compute; reflexivity
  | vm_compute; repeat split ].

Ltac not_in_list :=
  repeat (apply not_elem_of_cons; split; [discriminate|]); apply not_elem_of_nil.

Lemma Unpin_puts_frame_in_front_witness :
  ∃ r, LRUSample.held_2_1 3 = Some r ∧
  ∃ r', LRUReplacer.Unpin r 5 = Some r' ∧ LRUReplacer.queue r' [5; 2; 1]%Z ∧
        LRUReplacer.capacity_ r' = LRUReplacer.capacity_ r.
Proof.
  eexists. split; [vm_compute; reflexivity|].
  apply (Unpin_puts_frame_in_front _ [2; 1]%Z 5%Z).
  - exists [(3%nat, 2%Z); (2%nat, 1%Z)]. split; [linked_by_computation|reflexivity].
  - not_in_list.
  - vm_compute. discriminate.
Defined.

Lemma Unpin_of_held_frame_changes_nothing_witness :
  ∃ r, LRUSample.held_2_1 3 = Some r ∧ LRUReplacer.Unpin r 1 = Some r.
Proof.
  eexists. split; [vm_compute; reflexivity|].
  apply (Unpin_of_held_frame_changes_nothing _ [2; 1]%Z 1%Z).
  - exists [(3%nat, 2%Z); (2%nat, 1%Z)]. split; [linked_by_computation|reflexivity].
  - apply elem_of_cons. right. apply elem_of_cons. by left.
Defined.

Lemma Unpin_at_capacity_is_undefined_witness :
  ∃ r, LRUSample.held_2_1 2 = Some r ∧ LRUReplacer.Unpin r 5 = None.
Proof.
  eexists. split; [vm_compute; reflexivity|].
  apply (Unpin_at_capacity_is_undefined _ [2; 1]%Z 5%Z).
  - exists [(3%nat, 2%Z); (2%nat, 1%Z)]. split; [linked_by_computation|reflexivity].
  - not_in_list.
  - vm_compute. reflexivity.
Defined.

Lemma Pin_takes_frame_out_witness :
  ∃ r, LRUSample.held_2_1 3 = Some r ∧
  ∃ r', LRUReplacer.Pin r 2 = Some r' ∧ LRUReplacer.queue r' [1]%Z ∧
        LRUReplacer.capacity_ r' = LRUReplacer.capacity_ r.
Proof.
  eexists. split; [vm_compute; reflexivity|].
  refine (proj2 (Pin_takes_frame_out _ [2; 1]%Z 2%Z _) [] [1]%Z eq_refl).
  exists [(3%nat, 2%Z); (2%nat, 1%Z)]. split; [linked_by_computation|reflexivity].
Defined.

Lemma Victim_gives_oldest_witness :
  ∃ r, LRUSample.held_2_1 3 = Some r ∧
  ∃ r', LRUReplacer.Victim r 0 = Some (r', 1%Z, true) ∧ LRUReplacer.queue r' [2]%Z ∧
        LRUReplacer.capacity_ r' = LRUReplacer.capacity_ r.
Proof.
  eexists. split; [vm_compute; reflexivity|].
  refine (Victim_gives_oldest _ [2]%Z 1%Z 0%Z _).
  exists [(3%nat, 2%Z); (2%nat, 1%Z)]. split; [linked_by_computation|reflexivity].
Defined.

Lemma Victim_on_empty_is_undefined_witness :
  LRUReplacer.Victim (LRUReplacer.new 3) 7 = None.
Proof.
  apply Victim_on_empty_is_undefined.
  exists []. split; [linked_by_computation|reflexivity].
Defined.

Lemma calls_keep_the_list_witness :
  ∃ r, LRUSample.held_2_1 3 = Some r ∧
  ∃ l, LRUReplacer.queue r l ∧ LRUReplacer.Size r = Z.of_nat (length l) ∧
       (Z.of_nat (length l) ≤ 3)%Z.
Proof.
  eexists. split; [vm_compute; reflexivity|].
  apply (calls_keep_the_list 3 [LRUReplacer.CallUnpin 1; LRUReplacer.CallUnpin 2]).
  - lia.
  - vm_compute. reflexivity.
Defined.
